(** * gobuildcache: a GOCACHEPROG process over a disk cache and a remote bucket

    A shallow embedding of [main.go] (the protocol loop and the [Cacher]) and
    of the storage file (the [Disk] and [Bucket] tiers), followed by the
    properties of the specification that were checked against it and by
    further properties of the code.

    The storage file exists in two snapshots.  The first one (lines 1-224) is
    the one [main.go] type-checks against ([LinkActionToOutput] returns an
    [error]); the second one (lines 225-484) adds the negative-result marker
    and makes [LinkActionToOutput] return [(bool, error)].  [Disk.PutOutput],
    [Disk.GetOutput], [Disk.OutputIDFromAction], [Bucket.PutOutput],
    [Bucket.Start] and [Bucket.Close] are the same in both (up to logging) and
    are embedded once; the functions that differ live in [Snapshot1] and
    [Snapshot2]. *)

From Stdlib Require Import ZArith NArith List Ascii String Lia Permutation.
From Stdlib Require Strings.Byte.
From stdpp Require Import base option list gmap strings pretty.

(** ** Errors

    A Go [error] is [option Err]; [None] is [nil]. *)

Inductive Errno :=
  ENOENT | EEXIST | EINVAL | ENOTDIR | EISDIR | ELOOP | EACCES | ENOSPC | EIO.

Definition Errno_text (e : Errno) : string :=
  match e with
  | ENOENT => "no such file or directory"
  | EEXIST => "file exists"
  | EINVAL => "invalid argument"
  | ENOTDIR => "not a directory"
  | EISDIR => "is a directory"
  | ELOOP => "too many levels of symbolic links"
  | EACCES => "permission denied"
  | ENOSPC => "no space left on device"
  | EIO => "input/output error"
  end.

(** The codes of [gocloud.dev/gcerrors] that the program tells apart. *)
Inductive ErrorCode := OK | Unknown | NotFound | PermissionDenied | Internal.

Inductive Err :=
| PathError (op path : string) (e : Errno)        (* *fs.PathError *)
| LinkError (op old new : string) (e : Errno)     (* *os.LinkError *)
| GcError (code : ErrorCode) (msg : string)       (* the bucket's *gcerr.Error *)
| Wrapf (context : string) (e : Err)              (* fmt.Errorf("context: %w", e) *)
| ErrorString (msg : string).                     (* errors.New and foreign errors *)

Abbreviation error := (option Err).
Abbreviation nil_error := (@None Err).

(** [err.Error()] *)
Fixpoint Error (e : Err) : string :=
  match e with
  | PathError op path en => op +:+ " " +:+ path +:+ ": " +:+ Errno_text en
  | LinkError op old new en =>
      op +:+ " " +:+ old +:+ " " +:+ new +:+ ": " +:+ Errno_text en
  | GcError _ msg => msg
  | Wrapf context e' => context +:+ ": " +:+ Error e'
  | ErrorString msg => msg
  end.

(** The errno at the bottom of a chain of wrapped errors, if it ends in a
    file-system error. *)
Fixpoint errno_of (e : Err) : option Errno :=
  match e with
  | PathError _ _ en | LinkError _ _ _ en => Some en
  | Wrapf _ e' => errno_of e'
  | GcError _ _ | ErrorString _ => None
  end.

(** [errors.Is(err, os.ErrNotExist)] and [errors.Is(err, os.ErrExist)] *)
Definition is_ErrNotExist (err : error) : bool :=
  match err with
  | Some e => match errno_of e with Some ENOENT => true | _ => false end
  | None => false
  end.

Definition is_ErrExist (err : error) : bool :=
  match err with
  | Some e => match errno_of e with Some EEXIST => true | _ => false end
  | None => false
  end.

(** [gcerrors.Code(err)]: [OK] for [nil], the code of the bucket error found
    by unwrapping, [Unknown] for anything else. *)
Fixpoint Err_code (e : Err) : ErrorCode :=
  match e with
  | GcError c _ => c
  | Wrapf _ e' => Err_code e'
  | PathError _ _ _ | LinkError _ _ _ _ | ErrorString _ => Unknown
  end.

Definition gcerrors_Code (err : error) : ErrorCode :=
  match err with
  | None => OK
  | Some e => Err_code e
  end.

Definition is_NotFound (err : error) : bool :=
  match gcerrors_Code err with NotFound => true | _ => false end.

(** ** [encoding/hex] *)

Definition hextable : list ascii :=
  list_ascii_of_string "0123456789abcdef".

Definition hexchar (n : N) : ascii :=
  nth (N.to_nat n) hextable "0"%char.

Definition hex_EncodeToString (src : list Byte.byte) : string :=
  string_of_list_ascii
    (flat_map (fun b => let n := Byte.to_N b in
                        [hexchar (n / 16); hexchar (n mod 16)]) src).

Definition fromHexChar (c : ascii) : option N :=
  let n := N_of_ascii c in
  if ((48 <=? n) && (n <=? 57))%N then Some (n - 48)%N
  else if ((97 <=? n) && (n <=? 102))%N then Some (n - 97 + 10)%N
  else if ((65 <=? n) && (n <=? 70))%N then Some (n - 65 + 10)%N
  else None.

Definition byte_of_nibbles (a b : N) : Byte.byte :=
  match Byte.of_N (16 * a + b) with
  | Some x => x
  | None => Byte.x00
  end.

(** [hex.DecodeString]: the bytes decoded before the first problem, and the
    error ([InvalidByteError] or [ErrLength]). *)
Fixpoint hex_DecodeString (s : string) : list Byte.byte * error :=
  match s with
  | EmptyString => ([], None)
  | String p EmptyString =>
      match fromHexChar p with
      | None => ([], Some (ErrorString "encoding/hex: invalid byte"))
      | Some _ => ([], Some (ErrorString "encoding/hex: odd length hex string"))
      end
  | String p (String q rest) =>
      match fromHexChar p, fromHexChar q with
      | Some a, Some b =>
          let '(bs, err) := hex_DecodeString rest in
          (byte_of_nibbles a b :: bs, err)
      | _, _ => ([], Some (ErrorString "encoding/hex: invalid byte"))
      end
  end.

(** ** [path/filepath]

    Paths are strings.  [Join] is the non-empty elements separated by a
    slash: Go's [Join] without the [Clean] it ends with.  On what the program
    builds itself, a clean cache directory, the two directory names and
    identifiers in hexadecimal, [Clean] changes nothing.  An output id that
    comes from the bucket's metadata is joined as it comes: where it holds
    dots or slashes Go's [Join] shortens the path and this one does not.  The
    properties below take such an id to be a plain element
    ([plain_element]), or speak of the joined path, whatever it is. *)

Definition filepath_Join (elems : list string) : string :=
  String.concat "/" (filter (fun s => s <> "") elems).

Definition is_sep (c : ascii) : bool := Ascii.eqb c "/"%char.

Fixpoint drop_while {A} (p : A -> bool) (l : list A) : list A :=
  match l with
  | [] => []
  | x :: l' => if p x then drop_while p l' else l
  end.

Fixpoint take_while {A} (p : A -> bool) (l : list A) : list A :=
  match l with
  | [] => []
  | x :: l' => if p x then x :: take_while p l' else []
  end.

(** [filepath.Base]: the last element of the path, after trailing slashes are
    dropped; ["."] for the empty path, ["/"] for a path of slashes only. *)
Definition filepath_Base (path : string) : string :=
  match path with
  | EmptyString => "."
  | _ =>
      let r := drop_while is_sep (rev (list_ascii_of_string path)) in
      match take_while (fun c => negb (is_sep c)) r with
      | [] => "/"
      | l => string_of_list_ascii (rev l)
      end
  end.

(** [filepath.Dir], on the paths the model resolves links for: everything
    before the last slash. *)
Definition filepath_Dir (path : string) : string :=
  let r := drop_while (fun c => negb (is_sep c)) (rev (list_ascii_of_string path)) in
  match drop_while is_sep r with
  | [] => match r with [] => "." | _ => "/" end
  | l => string_of_list_ascii (rev l)
  end.

Definition actionDir : string := "action".
Definition outputDir : string := "output".

(** ** The protocol's messages ([main.go], lines 27-54)

    [cmd] is a string type.  A [[]byte] that may be [nil] is an [option].  An
    [io.Reader] is [nil] or the handle of a reader object of the world. *)

Definition Reader := option nat.

Definition cmd := string.
Definition cmdGet : cmd := "get".
Definition cmdPut : cmd := "put".
Definition cmdClose : cmd := "close".

Record request := {
  req_ID : Z;
  req_Command : cmd;
  req_ActionID : option (list Byte.byte);
  req_ObjectID : option (list Byte.byte);   (* deprecated: use OutputID *)
  req_OutputID : option (list Byte.byte);
  req_Body : Reader;
  req_BodySize : Z }.

Record response := {
  resp_ID : Z;
  resp_Err : string;
  resp_KnownCommands : list cmd;
  resp_Miss : bool;
  resp_OutputID : option (list Byte.byte);
  resp_Size : Z;
  resp_TimeNanos : Z;
  resp_DiskPath : string }.

(** ** The world the program runs in

    The file system is a finite map from paths to nodes.  A reader
    ([bytes.Reader], the read end of a pipe) is an object in a table: what is
    left to read, and the error it ends with instead of [io.EOF].  The remote
    bucket is a black box: each call is logged and its reply is a function of
    the calls made before it, so a bucket may answer differently from one call
    to the next.

    Every branch the source takes on the result of a system call can be
    reached: [os.Stat] and [os.Readlink] fail by the state of the file system;
    the calls that change it and whose error the source tests ([os.CreateTemp],
    the copy, [Close], [os.Rename], [os.Symlink], [os.MkdirAll], [Flush]) can
    also fail by a fault of the environment.  So can [os.WriteFile], whose
    error the source drops: a failed write changes nothing.  A fault stands for
    whatever the model does not keep: a parent directory that is missing, a
    full disk, permissions.  Every consultation of the environment advances
    [tick].  The other calls whose result the source drops ([os.RemoveAll],
    the deferred [Close]) are given by the effect they have when they
    succeed. *)

Inductive node :=
| File (data : list Byte.byte) (mtime : Z)
| Dir (size mtime : Z)
| Symlink (target : string).

Record FileInfo := { fi_Size : Z; fi_ModTime : Z }.

Record Stream := { s_data : list Byte.byte; s_err : error }.

Record Attributes := { Metadata : gmap string string }.

Inductive RemoteCall :=
| CallAttributes (key : string)
| CallUpload (key : string) (content : list Byte.byte)
             (metadata : gmap string string) (contentType : string)
| CallDownload (key : string).

Record Env := {
  os_fault : nat -> option Errno;
  rand : nat -> N;
  clock : nat -> Z;
  (* [b.bucket.Attributes]: the attributes, or [nil] and an error *)
  bucket_Attributes : list RemoteCall -> string -> Attributes + Err;
  bucket_Upload : list RemoteCall -> string -> list Byte.byte ->
                  gmap string string -> string -> error;
  (* [b.bucket.Download]: the bytes written to the sink, and the error *)
  bucket_Download : list RemoteCall -> string -> list Byte.byte * error }.

Record World := mkWorld {
  env : Env;
  tick : nat;
  fs : gmap string node;
  readers : gmap nat Stream;
  calls : list RemoteCall;        (* the remote calls made so far, oldest first *)
  jobs : list string;             (* the buffer of the channel [b.jobs] *)
  jobs_closed : bool;
  stdout : list response }.       (* what [enc.Encode] has written *)

Definition set_tick (t : nat) (w : World) : World :=
  mkWorld (env w) t (fs w) (readers w) (calls w) (jobs w) (jobs_closed w) (stdout w).
Definition set_fs (m : gmap string node) (w : World) : World :=
  mkWorld (env w) (tick w) m (readers w) (calls w) (jobs w) (jobs_closed w) (stdout w).
Definition set_readers (m : gmap nat Stream) (w : World) : World :=
  mkWorld (env w) (tick w) (fs w) m (calls w) (jobs w) (jobs_closed w) (stdout w).
Definition set_calls (l : list RemoteCall) (w : World) : World :=
  mkWorld (env w) (tick w) (fs w) (readers w) l (jobs w) (jobs_closed w) (stdout w).
Definition set_jobs (l : list string) (w : World) : World :=
  mkWorld (env w) (tick w) (fs w) (readers w) (calls w) l (jobs_closed w) (stdout w).
Definition set_jobs_closed (b : bool) (w : World) : World :=
  mkWorld (env w) (tick w) (fs w) (readers w) (calls w) (jobs w) b (stdout w).
Definition set_stdout (l : list response) (w : World) : World :=
  mkWorld (env w) (tick w) (fs w) (readers w) (calls w) (jobs w) (jobs_closed w) l.

(** ** The monad: state, and a panic that unwinds

    A Go function returning [(T, error)] is a computation of a pair; a panic
    stops the computation where it is. *)

Inductive outcome (A : Type) :=
| Ret (a : A)
| Panic (msg : string).
Arguments Ret {A} a.
Arguments Panic {A} msg.

Definition M (A : Type) : Type := World -> outcome A * World.

#[global] Instance M_ret : MRet M := fun A a w => (Ret a, w).

#[global] Instance M_bind : MBind M := fun A B f m w =>
  match m w with
  | (Ret a, w') => f a w'
  | (Panic msg, w') => (Panic msg, w')
  end.

Definition panic {A} (msg : string) : M A := fun w => (Panic msg, w).

(** A primitive step, given by what it does to the world. *)
Definition act {A} (f : World -> outcome A * World) : M A := f.

(** [defer cleanup; body]: the cleanup runs when the body returns and when it
    panics; what the cleanup returns is dropped. *)
Definition defer {A B} (cleanup : M B) (body : M A) : M A := fun w =>
  let '(o, w1) := body w in
  let '(_, w2) := cleanup w1 in
  (o, w2).

(** One consultation of the environment: the fault, the random number and the
    time of this tick. *)
Definition consult : M (option Errno * N * Z) := fun w =>
  (Ret (os_fault (env w) (tick w), rand (env w) (tick w), clock (env w) (tick w)),
   set_tick (S (tick w)) w).

(** ** The [os] and [io] calls the program makes *)

(** Where a link at [name] with text [target] leads: an absolute target as it
    is, a relative one from the link's directory, a leading [".."] one
    directory up. *)
Definition link_resolve (name target : string) : string :=
  if String.prefix "/" target then target
  else if String.prefix "../" target
       then filepath_Join [filepath_Dir (filepath_Dir name);
                           String.substring 3 (String.length target - 3) target]
       else filepath_Join [filepath_Dir name; target].

Fixpoint stat_node (fuel : nat) (m : gmap string node) (name : string)
  : FileInfo + Errno :=
  match m !! name with
  | None => inr ENOENT
  | Some (File data mtime) =>
      inl {| fi_Size := Z.of_nat (length data); fi_ModTime := mtime |}
  | Some (Dir size mtime) => inl {| fi_Size := size; fi_ModTime := mtime |}
  | Some (Symlink target) =>
      match fuel with
      | O => inr ELOOP
      | S fuel' => stat_node fuel' m (link_resolve name target)
      end
  end.

Definition no_FileInfo : FileInfo := {| fi_Size := 0; fi_ModTime := 0 |}.

(** [os.Stat]: follows links; the empty path names nothing. *)
Definition os_Stat (name : string) : M (FileInfo * error) := fun w =>
  if decide (name = "")
  then (Ret (no_FileInfo, Some (PathError "stat" name ENOENT)), w)
  else match stat_node 40 (fs w) name with
       | inl fi => (Ret (fi, None), w)
       | inr en => (Ret (no_FileInfo, Some (PathError "stat" name en)), w)
       end.

(** [os.Readlink] *)
Definition os_Readlink (name : string) : M (string * error) := fun w =>
  match fs w !! name with
  | Some (Symlink target) => (Ret (target, None), w)
  | Some _ => (Ret ("", Some (PathError "readlink" name EINVAL)), w)
  | None => (Ret ("", Some (PathError "readlink" name ENOENT)), w)
  end.

(** [os.Symlink]: fails when [newname] exists, or by a fault. *)
Definition os_Symlink (oldname newname : string) : M error :=
  '(fault, _, _) ← consult;
  act (fun w =>
    match fs w !! newname with
    | Some _ => (Ret (Some (LinkError "symlink" oldname newname EEXIST)), w)
    | None =>
        match fault with
        | Some en => (Ret (Some (LinkError "symlink" oldname newname en)), w)
        | None => (Ret None, set_fs (<[newname := Symlink oldname]> (fs w)) w)
        end
    end).

(** [os.CreateTemp(dir, pattern)]: a new empty file named [pattern] followed
    by a random number; the handle is the file's name.  The retries after a
    name collision are left out: a collision is reported as the failure the
    call ends with when every retry collides. *)
Definition tmp_name (dir pattern : string) (n : N) : string :=
  (if decide (dir = "") then "/tmp" else dir) +:+ "/" +:+ pattern +:+ pretty n.

Definition os_CreateTemp (dir pattern : string) : M (string * error) :=
  '(fault, n, now) ← consult;
  act (fun w =>
    let name := tmp_name dir pattern n in
    match fault with
    | Some en => (Ret ("", Some (PathError "open" name en)), w)
    | None =>
        match fs w !! name with
        | Some _ => (Ret ("", Some (PathError "open" name EEXIST)), w)
        | None => (Ret (name, None), set_fs (<[name := File [] now]> (fs w)) w)
        end
    end).

(** Appending to the regular file at [name]. *)
Definition file_append (name : string) (data : list Byte.byte) (now : Z)
    (m : gmap string node) : gmap string node :=
  match m !! name with
  | Some (File old _) => <[name := File (old ++ data) now]> m
  | _ => m
  end.

(** [io.Copy(f, r)]: everything left in [r] goes to the file [f].  A failing
    write stops the copy part-way; otherwise the copy ends with the error the
    reader ends with, [nil] at [io.EOF].  Reading from a [nil] reader
    panics. *)
Definition io_Copy (f : string) (r : Reader) : M (Z * error) :=
  '(fault, n, now) ← consult;
  act (fun w =>
    match r ≫= (fun i => readers w !! i), r with
    | Some s, Some i =>
        match fault with
        | Some en =>
            let written := take (N.to_nat n) (s_data s) in
            let left := drop (N.to_nat n) (s_data s) in
            (Ret (Z.of_nat (length written), Some (PathError "write" f en)),
             set_readers (<[i := {| s_data := left; s_err := s_err s |}]> (readers w))
               (set_fs (file_append f written now (fs w)) w))
        | None =>
            (Ret (Z.of_nat (length (s_data s)), s_err s),
             set_readers (<[i := {| s_data := []; s_err := s_err s |}]> (readers w))
               (set_fs (file_append f (s_data s) now (fs w)) w))
        end
    | _, _ => (Panic "invalid memory address or nil pointer dereference", w)
    end).

(** [f.Close()], the call whose error is tested. *)
Definition File_Close (f : string) : M error :=
  '(fault, _, _) ← consult;
  mret (match fault with
        | Some en => Some (PathError "close" f en)
        | None => None
        end).

(** The deferred [f.Close()]: the file is closed already or is closed now;
    the result is dropped. *)
Definition File_Close_deferred (f : string) : M unit := mret tt.

(** [os.Rename]: the node moves to [newpath], replacing what was there. *)
Definition os_Rename (oldpath newpath : string) : M error :=
  '(fault, _, _) ← consult;
  act (fun w =>
    match fault with
    | Some en => (Ret (Some (LinkError "rename" oldpath newpath en)), w)
    | None =>
        match fs w !! oldpath with
        | None => (Ret (Some (LinkError "rename" oldpath newpath ENOENT)), w)
        | Some nd => (Ret None, set_fs (<[newpath := nd]> (delete oldpath (fs w))) w)
        end
    end).

(** [os.RemoveAll]: the path and, under a directory, everything below it; a
    missing path is not an error. *)
Definition os_RemoveAll (path : string) : M unit := fun w =>
  match fs w !! path with
  | Some (Dir _ _) =>
      (Ret tt, set_fs (filter (fun kv => kv.1 <> path /\
                                 String.prefix (path +:+ "/") kv.1 = false) (fs w)) w)
  | _ => (Ret tt, set_fs (delete path (fs w)) w)
  end.

(** The file a write to [name] lands in: [name] itself, or where the links
    at [name] lead; a directory cannot be written to. *)
Fixpoint write_target (fuel : nat) (m : gmap string node) (name : string)
  : string + Errno :=
  match m !! name with
  | Some (Symlink target) =>
      match fuel with
      | O => inr ELOOP
      | S fuel' => write_target fuel' m (link_resolve name target)
      end
  | Some (Dir _ _) => inr EISDIR
  | Some (File _ _) | None => inl name
  end.

(** [os.WriteFile]: the file is created or truncated and holds [data]
    afterwards.  The call fails on a directory, on a loop of links, or by a
    fault, and then changes nothing: the program calls it with no data (line
    364), so no write stops part-way. *)
Definition os_WriteFile (name : string) (data : list Byte.byte) : M error :=
  '(fault, _, now) ← consult;
  act (fun w =>
    match write_target 40 (fs w) name, fault with
    | inr en, _ | inl _, Some en => (Ret (Some (PathError "open" name en)), w)
    | inl file, None => (Ret None, set_fs (<[file := File data now]> (fs w)) w)
    end).

(** [os.MkdirAll]: nothing to do on a directory; no parent relation is kept
    between paths, so only the node of [path] is added. *)
Definition os_MkdirAll (path : string) : M error :=
  '(fault, _, now) ← consult;
  act (fun w =>
    match stat_node 40 (fs w) path, fs w !! path with
    | inl _, Some (File _ _) => (Ret (Some (PathError "mkdir" path ENOTDIR)), w)
    | inl _, _ => (Ret None, w)
    | inr _, Some _ => (Ret (Some (PathError "mkdir" path EEXIST)), w)
    | inr _, None =>
        match fault with
        | Some en => (Ret (Some (PathError "mkdir" path en)), w)
        | None => (Ret None, set_fs (<[path := Dir 4096 now]> (fs w)) w)
        end
    end).

(** [os.Open] and the read of the whole file by the upload; anything but a
    regular file is reported as a failure to open. *)
Definition os_Open (name : string) : M (list Byte.byte * error) := fun w =>
  match fs w !! name with
  | Some (File data _) => (Ret (data, None), w)
  | Some (Dir _ _) => (Ret ([], Some (PathError "read" name EINVAL)), w)
  | Some (Symlink _) => (Ret ([], Some (PathError "open" name ELOOP)), w)
  | None => (Ret ([], Some (PathError "open" name ENOENT)), w)
  end.

(** [bytes.NewReader(buf)] and the read end of a pipe: a new reader object. *)
Definition new_reader (s : Stream) : M Reader := fun w =>
  let r := fresh (dom (readers w)) in
  (Ret (Some r), set_readers (<[r := s]> (readers w)) w).

(** ** The remote bucket's three calls *)

Definition Bucket_Attributes (key : string) : M (Attributes + Err) := fun w =>
  (Ret (bucket_Attributes (env w) (calls w) key),
   set_calls (calls w ++ [CallAttributes key]) w).

Definition Bucket_Upload (key : string) (content : list Byte.byte)
    (metadata : gmap string string) (contentType : string) : M error := fun w =>
  (Ret (bucket_Upload (env w) (calls w) key content metadata contentType),
   set_calls (calls w ++ [CallUpload key content metadata contentType]) w).

Definition Bucket_Download (key : string) : M (list Byte.byte * error) := fun w =>
  (Ret (bucket_Download (env w) (calls w) key),
   set_calls (calls w ++ [CallDownload key]) w).

(** ** The disk tier (storage file, lines 40-98) *)

Record Disk := { cacheDir : string }.

Definition outputPathname (d : Disk) (outputID : string) : string :=
  filepath_Join [cacheDir d; outputDir; outputID].

Definition actionPathname (d : Disk) (actionID : string) : string :=
  filepath_Join [cacheDir d; actionDir; actionID].

(** [Disk.PutOutput] (lines 51-80) *)
Definition Disk_PutOutput (d : Disk) (outputID : string) (r : Reader)
  : M (string * bool * error) :=
  '(_, err) ← os_Stat (outputPathname d outputID);
  match err with
  | None => mret (outputPathname d outputID, true, None)
  | Some _ =>
      '(f, err) ← os_CreateTemp (cacheDir d) "output";
      match err with
      | Some e => mret ("", false, Some (Wrapf "creating temporary output file" e))
      | None =>
          defer (os_RemoveAll f)
            (defer (File_Close_deferred f)
               ('(_, err) ← io_Copy f r;
                match err with
                | Some e => mret ("", false, Some (Wrapf "copying output to disk" e))
                | None =>
                    err ← File_Close f;
                    match err with
                    | Some e =>
                        mret ("", false, Some (Wrapf "flushing output to disk" e))
                    | None =>
                        err ← os_Rename f (outputPathname d outputID);
                        match err with
                        | Some e => mret ("", false, Some (Wrapf "renaming" e))
                        | None => mret (outputPathname d outputID, false, None)
                        end
                    end
                end))
      end
  end.

(** [Disk.GetOutput] (lines 82-84) *)
Definition Disk_GetOutput (d : Disk) (outputID : string) : M (string * error) :=
  mret (outputPathname d outputID, None).

(** [Disk.OutputIDFromAction] (lines 86-98) *)
Definition Disk_OutputIDFromAction (d : Disk) (actionID : string)
  : M (string * error) :=
  '(target, err) ← os_Readlink (actionPathname d actionID);
  if is_ErrNotExist err then mret ("", None)
  else match err with
       | Some e => mret ("", Some e)
       | None => mret (filepath_Base target, None)
       end.

(** ** The two-tier cache: what both snapshots share *)

(** Of the [Bucket] struct, the remote client, the channel and the wait group
    live in the world; the disk tier is what is left. *)
Record Bucket := { disk : Disk }.

Definition path_Join (elems : list string) : string := filepath_Join elems.

(** [b.jobs <- pathname].  A send on a closed channel panics.  A send on a
    full channel (capacity 1000) waits until a worker has taken a job; the
    workers are not part of this sequential model, so [jobs] holds every job
    sent and not yet uploaded and the bound does not show. *)
Definition jobs_send (pathname : string) : M unit := fun w =>
  if jobs_closed w then (Panic "send on closed channel", w)
  else (Ret tt, set_jobs (jobs w ++ [pathname]) w).

(** [Bucket.PutOutput] (lines 142-154) *)
Definition Bucket_PutOutput (b : Bucket) (outputID : string) (r : Reader)
  : M (string * bool * error) :=
  '(pathname, exists_, err) ← Disk_PutOutput (disk b) outputID r;
  match err with
  | Some e => mret ("", false, Some e)
  | None =>
      if (exists_ : bool) then mret (pathname, true, None)
      else _ ← jobs_send pathname; mret (pathname, false, None)
  end.

(** [Bucket.Start] (lines 156-184): a new empty channel; the 20 workers run
    the loop body [upload_job] on every job they receive. *)
Definition Bucket_Start (b : Bucket) : M unit := fun w =>
  (Ret tt, set_jobs_closed false (set_jobs [] w)).

Definition upload_job (pathname : string) : M unit :=
  '(content, err) ← os_Open pathname;
  match err with
  | Some _ => mret tt                      (* logged; continue *)
  | None =>
      _ ← Bucket_Upload (path_Join [outputDir; filepath_Base pathname]) content
            ∅ "application/octet-stream";
      mret tt                              (* a failed upload is logged *)
  end.

Fixpoint upload_jobs (l : list string) : M unit :=
  match l with
  | [] => mret tt
  | pathname :: l' => _ ← upload_job pathname; upload_jobs l'
  end.

(** [Bucket.Close] (lines 186-194): [close(b.jobs)], then [b.wg.Wait()]
    returns once the workers have received every job of the buffer and have
    left.  In the program the 20 workers take jobs as soon as they are sent
    and upload side by side; the sequential model keeps every job in [jobs]
    until the close and runs the uploads here, in the order of the buffer.
    That is one of the schedules (see [Bucket_Close_is_a_schedule]); neither
    the order nor the moment of the uploads is meant, and what is stated of
    [Bucket_Close] does not rest on them.  The interleavings are the matter
    of [Pipeline]. *)
Definition Bucket_Close (b : Bucket) : M unit :=
  pending ← act (fun w =>
    if jobs_closed w then (Panic "close of closed channel", w)
    else (Ret (jobs w), set_jobs [] (set_jobs_closed true w)));
  upload_jobs pending.

(** ** First snapshot of the storage file (lines 1-224) *)

Module Snapshot1.

(** [Disk.LinkActionToOutput] (lines 100-110) *)
Definition Disk_LinkActionToOutput (d : Disk) (actionID outputID : string)
  : M error :=
  err ← os_Symlink (filepath_Join [".."; outputDir; outputID])
                   (actionPathname d actionID);
  if is_ErrExist err then mret None else mret err.

(** [Bucket.OutputIDFromAction] (lines 112-128).  After an error that is
    not a not-found, [attr] is [nil] and [attr.Metadata] dereferences it. *)
Definition Bucket_OutputIDFromAction (b : Bucket) (actionID : string)
  : M (string * error) :=
  '(outputID, err) ← Disk_OutputIDFromAction (disk b) actionID;
  match err with
  | Some e => mret ("", Some (Wrapf "output id from action (disk)" e))
  | None =>
      if decide (outputID <> "") then mret (outputID, None)
      else
        reply ← Bucket_Attributes (path_Join [actionDir; actionID]);
        match reply with
        | inr e =>
            if is_NotFound (Some e) then mret ("", None)
            else panic "invalid memory address or nil pointer dereference"
        | inl attr => mret (default "" (Metadata attr !! "output_id"), None)
        end
  end.

(** [Bucket.LinkActionToOutput] (lines 130-140) *)
Definition Bucket_LinkActionToOutput (b : Bucket) (actionID outputID : string)
  : M error :=
  err ← Bucket_Upload (path_Join [actionDir; actionID]) []
          {[ "output_id" := outputID ]} "plain/text";
  match err with
  | Some e => mret (Some e)
  | None => Disk_LinkActionToOutput (disk b) actionID outputID
  end.

(** [Bucket.GetOutput] (lines 196-224).  The download runs in a goroutine
    that writes into a pipe and closes it with the download's error; the
    read end is what [Disk.PutOutput] copies from.  Sequentially: the
    download is called, and the reader holds what it sent and ends with its
    error. *)
Definition Bucket_GetOutput (b : Bucket) (outputID : string)
  : M (string * error) :=
  '(pathname, err) ← Disk_GetOutput (disk b) outputID;
  match err with
  | Some e => mret ("", Some e)
  | None =>
      '(_, err) ← os_Stat pathname;
      match err with
      | None => mret (pathname, None)
      | Some _ =>
          '(data, derr) ← Bucket_Download (path_Join [outputDir; outputID]);
          pr ← new_reader {| s_data := data; s_err := derr |};
          '(pathname, _, err) ← Disk_PutOutput (disk b) outputID pr;
          if is_NotFound err then mret ("", None) else mret (pathname, err)
      end
  end.

End Snapshot1.

(** ** Second snapshot of the storage file (lines 225-484) *)

Module Snapshot2.

(** [Disk.LinkActionToOutput] (lines 326-336) *)
Definition Disk_LinkActionToOutput (d : Disk) (actionID outputID : string)
  : M (bool * error) :=
  err ← os_Symlink (filepath_Join [".."; outputDir; outputID])
                   (actionPathname d actionID);
  if is_ErrExist err then mret (true, None) else mret (false, err).

(** The negative-result marker of an action (line 354). *)
Definition cacheEmptyOutputPath (b : Bucket) (actionID : string) : string :=
  filepath_Join [cacheDir (disk b); actionDir; actionID +:+ ".empty"].

(** [Bucket.OutputIDFromAction] (lines 338-381) *)
Definition Bucket_OutputIDFromAction (b : Bucket) (actionID : string)
  : M (string * error) :=
  '(outputID, err) ← Disk_OutputIDFromAction (disk b) actionID;
  match err with
  | Some e => mret ("", Some (Wrapf "output id from action (disk)" e))
  | None =>
      if decide (outputID <> "") then mret (outputID, None)
      else
        '(_, err) ← os_Stat (cacheEmptyOutputPath b actionID);
        match err with
        | None => mret ("", None)
        | Some _ =>
            reply ← Bucket_Attributes (path_Join [actionDir; actionID]);
            match reply with
            | inr e =>
                if is_NotFound (Some e)
                then _ ← os_WriteFile (cacheEmptyOutputPath b actionID) [];
                     mret ("", None)
                else mret ("", Some (Wrapf ("attribute for " +:+ actionID) e))
            | inl attr =>
                let outputID := default "" (Metadata attr !! "output_id") in
                if decide (outputID = "") then mret ("", None)
                else _ ← Disk_LinkActionToOutput (disk b) actionID outputID;
                     mret (outputID, None)
            end
        end
  end.

(** [Bucket.LinkActionToOutput] (lines 383-393) *)
Definition Bucket_LinkActionToOutput (b : Bucket) (actionID outputID : string)
  : M (bool * error) :=
  '(exists_, err) ← Disk_LinkActionToOutput (disk b) actionID outputID;
  if bool_decide (err <> None) || exists_ then mret (exists_, err)
  else
    err ← Bucket_Upload (path_Join [actionDir; actionID]) []
            {[ "output_id" := outputID ]} "plain/text";
    mret (false, err).

(** [Bucket.GetOutput] (lines 450-485) *)
Definition Bucket_GetOutput (b : Bucket) (outputID : string)
  : M (string * error) :=
  '(pathname, err) ← Disk_GetOutput (disk b) outputID;
  match err with
  | Some e => mret ("", Some e)
  | None =>
      '(_, err) ← os_Stat pathname;
      match err with
      | None => mret (pathname, None)
      | Some _ =>
          '(buf, err) ← Bucket_Download (path_Join [outputDir; outputID]);
          if is_NotFound err then mret ("", None)
          else match err with
               | Some e => mret ("", Some e)
               | None =>
                   r ← new_reader {| s_data := buf; s_err := None |};
                   '(pathname, _, err) ← Disk_PutOutput (disk b) outputID r;
                   mret (pathname, err)
               end
      end
  end.

End Snapshot2.

(** ** The cacher ([main.go], lines 56-98)

    [main.go] is written against the first snapshot. *)

Import Snapshot1.

Record Cacher := { c_disk : Disk; c_bucket : Bucket }.

(** [c.flight.Do(key, fn)] of [golang.org/x/sync/singleflight], in a run in
    which no other call with this key is in flight: [fn] is called and its
    result is not shared.  Callers that overlap are the matter of
    [Flight]. *)
Definition flight_Do {A} (key : string) (fn : M A) : M (A * bool) :=
  a ← fn; mret (a, false).

Definition bytes_of (b : option (list Byte.byte)) : list Byte.byte := default [] b.

(** [Cacher.Get] (lines 62-78) *)
Definition Cacher_Get (c : Cacher) (req : request) : M (string * error) :=
  let actionID := hex_EncodeToString (bytes_of (req_ActionID req)) in
  '(outputID, err) ← Bucket_OutputIDFromAction (c_bucket c) actionID;
  match err with
  | Some e => mret ("", Some (Wrapf "getting output id from action (bucket)" e))
  | None =>
      '(pathname, err, shared) ←
        flight_Do ("get" +:+ outputID) (Bucket_GetOutput (c_bucket c) outputID);
      mret (pathname, err)
  end.

(** [Cacher.Put] (lines 80-98) *)
Definition Cacher_Put (c : Cacher) (req : request) : M (string * error) :=
  let actionID := hex_EncodeToString (bytes_of (req_ActionID req)) in
  let outputID := hex_EncodeToString (bytes_of (req_OutputID req)) in
  '(pathname, err, shared) ←
    flight_Do ("put" +:+ outputID)
      ('(pathname, _, err) ← Bucket_PutOutput (c_bucket c) outputID (req_Body req);
       mret (pathname, err));
  match err with
  | Some e => mret ("", Some e)
  | None =>
      err ← Bucket_LinkActionToOutput (c_bucket c) actionID outputID;
      mret (pathname, err)
  end.

(** ** The protocol loop ([main.go], lines 100-220) *)

Definition new_response (id : Z) : response :=
  {| resp_ID := id; resp_Err := ""; resp_KnownCommands := []; resp_Miss := false;
     resp_OutputID := None; resp_Size := 0; resp_TimeNanos := 0; resp_DiskPath := "" |}.

Definition set_Err (s : string) (r : response) : response :=
  {| resp_ID := resp_ID r; resp_Err := s; resp_KnownCommands := resp_KnownCommands r;
     resp_Miss := resp_Miss r; resp_OutputID := resp_OutputID r; resp_Size := resp_Size r;
     resp_TimeNanos := resp_TimeNanos r; resp_DiskPath := resp_DiskPath r |}.
Definition set_KnownCommands (l : list cmd) (r : response) : response :=
  {| resp_ID := resp_ID r; resp_Err := resp_Err r; resp_KnownCommands := l;
     resp_Miss := resp_Miss r; resp_OutputID := resp_OutputID r; resp_Size := resp_Size r;
     resp_TimeNanos := resp_TimeNanos r; resp_DiskPath := resp_DiskPath r |}.
Definition set_Miss (b : bool) (r : response) : response :=
  {| resp_ID := resp_ID r; resp_Err := resp_Err r; resp_KnownCommands := resp_KnownCommands r;
     resp_Miss := b; resp_OutputID := resp_OutputID r; resp_Size := resp_Size r;
     resp_TimeNanos := resp_TimeNanos r; resp_DiskPath := resp_DiskPath r |}.
Definition set_DiskPath (s : string) (r : response) : response :=
  {| resp_ID := resp_ID r; resp_Err := resp_Err r; resp_KnownCommands := resp_KnownCommands r;
     resp_Miss := resp_Miss r; resp_OutputID := resp_OutputID r; resp_Size := resp_Size r;
     resp_TimeNanos := resp_TimeNanos r; resp_DiskPath := s |}.
(** The three fields the inspection of the path fills in. *)
Definition set_info (oid : list Byte.byte) (fi : FileInfo) (r : response) : response :=
  {| resp_ID := resp_ID r; resp_Err := resp_Err r; resp_KnownCommands := resp_KnownCommands r;
     resp_Miss := resp_Miss r; resp_OutputID := Some oid; resp_Size := fi_Size fi;
     resp_TimeNanos := fi_ModTime fi; resp_DiskPath := resp_DiskPath r |}.

(** [enc.Encode(resp)] followed by [w.Flush()], results dropped. *)
Definition Encode (resp : response) : M unit := fun w =>
  (Ret tt, set_stdout (stdout w ++ [resp]) w).

(** The [w.Flush()] whose error is tested (line 134). *)
Definition Flush : M error :=
  '(fault, _, _) ← consult;
  mret (match fault with
        | Some en => Some (PathError "write" "/dev/stdout" en)
        | None => None
        end).

(** The [switch] of the handler (lines 192-217): the response as the
    command's case leaves it. *)
Definition handle_switch (cacher : Cacher) (req : request) (resp : response)
  : M response :=
  if decide (req_Command req = cmdClose) then
    _ ← Bucket_Close (c_bucket cacher); mret resp
  else if decide (req_Command req = cmdGet) then
    '(pathname, err) ← Cacher_Get cacher req;
    let resp := set_DiskPath pathname resp in
    let resp := match err with Some e => set_Err (Error e) resp | None => resp end in
    mret (if decide (resp_DiskPath resp = "") then set_Miss true resp else resp)
  else if decide (req_Command req = cmdPut) then
    '(pathname, err) ← Cacher_Put cacher req;
    let resp := set_DiskPath pathname resp in
    mret (match err with Some e => set_Err (Error e) resp | None => resp end)
  else mret resp.

(** The deferred function of the handler (lines 171-190). *)
Definition handle_deferred (req : request) (resp : response) : M unit :=
  resp ← (if decide (req_Command req <> cmdClose) then
            '(fi, err) ← os_Stat (resp_DiskPath resp);
            match err with
            | Some e => mret (set_Err (Error e) resp)
            | None =>
                let '(oid, err) := hex_DecodeString (filepath_Base (resp_DiskPath resp)) in
                let resp := match err with
                            | Some _ => set_Err "invalid output id" resp
                            | None => resp
                            end in
                mret (set_info oid fi resp)
            end
          else mret resp);
  Encode resp.

(** The handler of one request (lines 168-218), run to its end.  The deferred
    function also runs when the switch panics; the response is then as it was
    before the call that panicked. *)
Definition handle (cacher : Cacher) (req : request) : M unit := fun w =>
  let resp := new_response (req_ID req) in
  match handle_switch cacher req resp w with
  | (Ret resp', w1) => handle_deferred req resp' w1
  | (Panic msg, w1) =>
      let '(_, w2) := handle_deferred req resp w1 in (Panic msg, w2)
  end.

(** The input stream, as the JSON decoder sees it: a sequence of values. *)
Inductive json :=
| JObject (r : request)            (* an object, as it decodes into a request *)
| JString (b : list Byte.byte)     (* a string holding the base64 of [b] *)
| JNull
| JOther.                          (* any other value, or text that is no JSON *)

Definition zero_request : request :=
  {| req_ID := 0; req_Command := ""; req_ActionID := None; req_ObjectID := None;
     req_OutputID := None; req_Body := None; req_BodySize := 0 |}.

Definition set_OutputID (o : option (list Byte.byte)) (r : request) : request :=
  {| req_ID := req_ID r; req_Command := req_Command r; req_ActionID := req_ActionID r;
     req_ObjectID := req_ObjectID r; req_OutputID := o; req_Body := req_Body r;
     req_BodySize := req_BodySize r |}.
Definition set_Body (b : Reader) (r : request) : request :=
  {| req_ID := req_ID r; req_Command := req_Command r; req_ActionID := req_ActionID r;
     req_ObjectID := req_ObjectID r; req_OutputID := req_OutputID r; req_Body := b;
     req_BodySize := req_BodySize r |}.

(** [dec.Decode(&req)] on the next value; [Body] is not a JSON field. *)
Definition decode_request (v : json) : request + Err :=
  match v with
  | JObject r => inl (set_Body None r)
  | JNull => inl zero_request
  | JString _ => inr (ErrorString "json: cannot unmarshal string into Go value of type main.request")
  | JOther => inr (ErrorString "json: invalid value")
  end.

(** [dec.Decode(&buf)] on the next value, [buf] a [[]byte]. *)
Definition decode_bytes (v : json) : list Byte.byte + Err :=
  match v with
  | JString b => inl b
  | JNull => inl []
  | JObject _ => inr (ErrorString "json: cannot unmarshal object into Go value of type []uint8")
  | JOther => inr (ErrorString "json: invalid value")
  end.

(** What one turn of the loop reads (lines 140-166): the end of the input,
    a fatal error, or a request to dispatch, with the bytes of its body when
    it is a put, and the input left. *)
Inductive frame :=
| Eof
| Fatal (e : Err)
| Dispatch (req : request) (body : option (list Byte.byte)) (rest : list json).

Definition read_request (input : list json) : frame :=
  match input with
  | [] => Eof
  | v :: rest =>
      match decode_request v with
      | inr e => Fatal e
      | inl req =>
          (* handle accidental naming of OutputID prior to Go 1.24 *)
          let req := match req_ObjectID req with
                     | Some o => set_OutputID (Some o) req
                     | None => req
                     end in
          if decide (req_Command req = cmdPut) then
            if (0 <? req_BodySize req)%Z then
              match rest with
              | [] => Fatal (Wrapf "decoding body" (ErrorString "EOF"))
              | v' :: rest' =>
                  match decode_bytes v' with
                  | inr e => Fatal (Wrapf "decoding body" e)
                  | inl buf =>
                      if decide (Z.of_nat (length buf) <> req_BodySize req)
                      then Fatal (ErrorString
                                    ("incorrect length: " +:+ pretty (Z.of_nat (length buf))
                                       +:+ " != " +:+ pretty (req_BodySize req)))
                      else Dispatch req (Some buf) rest'
                  end
              end
            else Dispatch req (Some []) rest
          else Dispatch req None rest
      end
  end.

(** The loop, every handler run to its end before the next request is read:
    one of the schedules of the goroutines.  The program starts every handler
    with [go] and waits for none: [run] can return, at the end of the input or
    on a fatal error, while handlers are still on their way, and what they
    have not written by then is not written.  That is outside this
    function. *)
Fixpoint serve_loop (fuel : nat) (cacher : Cacher) (input : list json) : M error :=
  match fuel with
  | O => mret None
  | S fuel' =>
      match read_request input with
      | Eof => mret None
      | Fatal e => mret (Some e)
      | Dispatch req body rest =>
          req ← match body with
                | Some buf => r ← new_reader {| s_data := buf; s_err := None |};
                              mret (set_Body r req)
                | None => mret req
                end;
          _ ← handle cacher req;
          serve_loop fuel' cacher rest
      end
  end.

Definition serve (cacher : Cacher) (input : list json) : M error :=
  serve_loop (S (length input)) cacher input.

(** [run] (lines 100-220), from where the cache directory is known and the
    bucket is open. *)
Definition run (userCacheDir : string) (readonly : bool) (input : list json)
  : M error :=
  let d := {| cacheDir := filepath_Join [userCacheDir; ".gocachebucket"] |} in
  let cacher := {| c_disk := d; c_bucket := {| disk := d |} |} in
  _ ← Bucket_Start (c_bucket cacher);
  err ← os_MkdirAll (filepath_Join [cacheDir d; actionDir]);
  match err with
  | Some e => mret (Some (Wrapf "creating cache action dir" e))
  | None =>
      err ← os_MkdirAll (filepath_Join [cacheDir d; outputDir]);
      match err with
      | Some e => mret (Some (Wrapf "creating cache output dir" e))
      | None =>
          let caps := [cmdClose; cmdGet] ++ (if readonly then [] else [cmdPut]) in
          _ ← Encode (set_KnownCommands caps (new_response 0));
          err ← Flush;
          match err with
          | Some e => mret (Some e)
          | None => serve cacher input
          end
      end
  end.

(** ** [Cacher.Get] and the handler of a get, over the second snapshot

    [main.go] as a whole does not compile against the second snapshot:
    [Cacher.Put] returns the result of [LinkActionToOutput], which has two
    values there.  [Cacher.Get] and the handler of a get call only
    [OutputIDFromAction] and [GetOutput], whose signatures are the same in
    both snapshots. *)

Module OnSnapshot2.

(** [Cacher.Get] (lines 62-78) *)
Definition Cacher_Get (c : Cacher) (req : request) : M (string * error) :=
  let actionID := hex_EncodeToString (bytes_of (req_ActionID req)) in
  '(outputID, err) ← Snapshot2.Bucket_OutputIDFromAction (c_bucket c) actionID;
  match err with
  | Some e => mret ("", Some (Wrapf "getting output id from action (bucket)" e))
  | None =>
      '(pathname, err, shared) ←
        flight_Do ("get" +:+ outputID)
          (Snapshot2.Bucket_GetOutput (c_bucket c) outputID);
      mret (pathname, err)
  end.

(** The handler of a get (lines 168-207), run to its end: the case [cmdGet]
    of the switch, then the deferred function. *)
Definition handle_get (cacher : Cacher) (req : request) : M unit := fun w =>
  let resp := new_response (req_ID req) in
  match ('(pathname, err) ← Cacher_Get cacher req;
         let resp := set_DiskPath pathname resp in
         let resp := match err with Some e => set_Err (Error e) resp | None => resp end in
         mret (if decide (resp_DiskPath resp = "") then set_Miss true resp else resp)) w with
  | (Ret resp', w1) => handle_deferred req resp' w1
  | (Panic msg, w1) =>
      let '(_, w2) := handle_deferred req resp w1 in (Panic msg, w2)
  end.

End OnSnapshot2.

(** * Notions the properties are stated with *)

(** A step that leaves the remote calls, the channel and the output stream
    alone. *)
Definition local_step (w w' : World) : Prop :=
  env w' = env w /\ calls w' = calls w /\ jobs w' = jobs w /\
  jobs_closed w' = jobs_closed w /\ stdout w' = stdout w.

(** [n] runs of [m], one after the other. *)
Fixpoint repeat_M {A} (n : nat) (m : M A) : M (list A) :=
  match n with
  | O => mret []
  | S n' => a ← m; l ← repeat_M n' m; mret (a :: l)
  end.

(** The request as the loop holds it after decoding an object (lines
    140-151). *)
Definition framed (r : request) : request :=
  match req_ObjectID r with
  | Some o => set_OutputID (Some o) (set_Body None r)
  | None => set_Body None r
  end.

(** The session has ended with an error returned by [run], or with the
    panic of a handler. *)
Definition session_failed (o : outcome error) : Prop :=
  match o with
  | Ret None => False
  | Ret (Some _) | Panic _ => True
  end.

(** A computation that does not look at the output stream and only appends
    to it: started with another stream, it returns the same, in the same
    world but for the stream, to which it has appended the same
    responses. *)
Definition emits {A} (m : M A) : Prop :=
  forall w, exists out,
    stdout (m w).2 = stdout w ++ out /\
    forall l, m (set_stdout l w) = ((m w).1, set_stdout (l ++ out) (m w).2).

(** The handshake (lines 125-133). *)
Definition handshake (readonly : bool) : response :=
  set_KnownCommands ([cmdClose; cmdGet] ++ (if readonly then [] else [cmdPut]))
    (new_response 0).

(** [run] up to the handshake (lines 113-123). *)
Definition run_setup (d : Disk) : M error :=
  _ ← Bucket_Start {| disk := d |};
  err ← os_MkdirAll (filepath_Join [cacheDir d; actionDir]);
  match err with
  | Some e => mret (Some (Wrapf "creating cache action dir" e))
  | None =>
      err ← os_MkdirAll (filepath_Join [cacheDir d; outputDir]);
      match err with
      | Some e => mret (Some (Wrapf "creating cache output dir" e))
      | None => mret None
      end
  end.

(** An element of a path that [filepath.Clean] leaves as it is and that
    [filepath.Base] gives back: not empty, not a dot or two, no slash.  The
    identifiers in hexadecimal are of this kind. *)
Definition plain_element (s : string) : bool :=
  negb (String.eqb s "") && negb (String.eqb s ".") && negb (String.eqb s "..") &&
  forallb (fun c => negb (is_sep c)) (list_ascii_of_string s).

(** The text of the link of an action (storage file, line 102), and the
    upload of the action object (lines 131-134). *)
Definition link_target (outputID : string) : string :=
  filepath_Join [".."; outputDir; outputID].

Definition action_call (actionID outputID : string) : RemoteCall :=
  CallUpload (path_Join [actionDir; actionID]) [] {[ "output_id" := outputID ]} "plain/text".

(** What the upload of a job sends to the bucket (lines 166-181): the
    content of the file under the key of its name, or nothing when the path
    is not a regular file. *)
Definition upload_of (m : gmap string node) (pathname : string) : option RemoteCall :=
  match m !! pathname with
  | Some (File content _) =>
      Some (CallUpload (path_Join [outputDir; filepath_Base pathname]) content ∅
              "application/octet-stream")
  | _ => None
  end.

(** The uploads among the remote calls made so far. *)
Definition is_upload (c : RemoteCall) : bool :=
  match c with CallUpload _ _ _ _ => true | _ => false end.

Definition uploads (w : World) : list RemoteCall := filter is_upload (calls w).

(** A computation that leaves a component of the world as it found it. *)
Definition keeps {A B} (proj : World -> B) (m : M A) : Prop :=
  forall w, proj (m w).2 = proj w.

(** A component of the world that is out of reach of the file system, of
    the readers, of the passing of time and of the remote calls that are
    not uploads. *)
Class OutOfReach {B} (proj : World -> B) : Prop := {
  reach_tick t w : proj (set_tick t w) = proj w;
  reach_fs m w : proj (set_fs m w) = proj w;
  reach_readers m w : proj (set_readers m w) = proj w;
  reach_query c w : is_upload c = false -> proj (set_calls (calls w ++ [c]) w) = proj w }.

(** The environment does not report an existing file at a path where the
    file system has none. *)
Definition no_spurious_EEXIST (e : Env) : Prop :=
  forall n, os_fault e n <> Some EEXIST.

(** * The upload pipeline as interleaved goroutines

    The channel, the wait group, the 20 workers of [Bucket.Start] and the
    handlers of put and close requests, one step of one goroutine at a
    time.  [sent] and [attempted] are ghost logs: the jobs sent on the
    channel, and the jobs whose upload has ended, with or without an error.
    [out] logs the responses written, with the command they answer and
    whether the handler was panicking when its deferred function wrote. *)

Module Pipeline.

(** A worker (storage file, lines 163-182): in [range b.jobs], uploading
    the job it received, or past the loop and its [b.wg.Done()]. *)
Inductive worker := Idle | Uploading (pathname : string) | Exited.

(** A handler ([main.go], lines 168-218), by where it stands. *)
Inductive handler :=
| Sending (pathname : string)    (* a put at [b.jobs <- pathname] *)
| Closing                        (* a close at [close(b.jobs)] *)
| Waiting                        (* a close at [b.wg.Wait()] *)
| Responding (c : cmd)           (* back from its switch; the response is next *)
| Finished.

Record state := mk {
  chan : list string;
  closed : bool;
  wg : nat;
  workers : list worker;
  handlers : list handler;
  sent : list string;
  attempted : list string;
  out : list (cmd * bool);
  crashed : bool }.

(** After [Bucket.Start]. *)
Definition init : state := mk [] false 20 (replicate 20 Idle) [] [] [] [] false.

(** Where a dispatched handler starts: a put that has a new blob to send, a
    close, or a get or put that sends nothing. *)
Definition spawned (h : handler) : Prop :=
  match h with
  | Sending _ | Closing => True
  | Responding c => c <> cmdClose
  | Waiting | Finished => False
  end.

Inductive step : state -> state -> Prop :=
| step_spawn ch cl n ws hs se att o h :
    spawned h ->
    step (mk ch cl n ws hs se att o false)
         (mk ch cl n ws (hs ++ [h]) se att o false)
| step_send ch n ws hs se att o i p :
    hs !! i = Some (Sending p) -> length ch < 1000 ->
    step (mk ch false n ws hs se att o false)
         (mk (ch ++ [p]) false n ws (<[i := Responding cmdPut]> hs) (se ++ [p]) att o false)
| step_send_on_closed ch n ws hs se att o i p :
    hs !! i = Some (Sending p) ->
    step (mk ch true n ws hs se att o false)
         (mk ch true n ws (<[i := Finished]> hs) se att (o ++ [(cmdPut, true)]) true)
| step_close ch n ws hs se att o i :
    hs !! i = Some Closing ->
    step (mk ch false n ws hs se att o false)
         (mk ch true n ws (<[i := Waiting]> hs) se att o false)
| step_close_of_closed ch n ws hs se att o i :
    hs !! i = Some Closing ->
    step (mk ch true n ws hs se att o false)
         (mk ch true n ws (<[i := Finished]> hs) se att (o ++ [(cmdClose, true)]) true)
| step_wait ch cl ws hs se att o i :
    hs !! i = Some Waiting ->
    step (mk ch cl 0 ws hs se att o false)
         (mk ch cl 0 ws (<[i := Responding cmdClose]> hs) se att o false)
| step_respond ch cl n ws hs se att o i c :
    hs !! i = Some (Responding c) ->
    step (mk ch cl n ws hs se att o false)
         (mk ch cl n ws (<[i := Finished]> hs) se att (o ++ [(c, false)]) false)
| step_receive p ch cl n ws hs se att o j :
    ws !! j = Some Idle ->
    step (mk (p :: ch) cl n ws hs se att o false)
         (mk ch cl n (<[j := Uploading p]> ws) hs se att o false)
| step_upload ch cl n ws hs se att o j p :
    ws !! j = Some (Uploading p) ->
    step (mk ch cl n ws hs se att o false)
         (mk ch cl n (<[j := Idle]> ws) hs se (att ++ [p]) o false)
| step_exit n ws hs se att o j :
    ws !! j = Some Idle ->
    step (mk [] true n ws hs se att o false)
         (mk [] true (pred n) (<[j := Exited]> ws) hs se att o false).

Definition reachable (s : state) : Prop := rtc step init s.

(** The workers still counted by the wait group, and the jobs in their
    hands. *)
Fixpoint running (ws : list worker) : nat :=
  match ws with
  | [] => 0
  | Exited :: ws' => running ws'
  | _ :: ws' => S (running ws')
  end.

Fixpoint uploading (ws : list worker) : list string :=
  match ws with
  | [] => []
  | Uploading p :: ws' => p :: uploading ws'
  | _ :: ws' => uploading ws'
  end.

Definition close_answered (s : state) : Prop := (cmdClose, false) ∈ out s.

Record invariant (s : state) : Prop := {
  inv_workers : workers s <> [];
  inv_wg : wg s = running (workers s);
  inv_jobs : sent s ≡ₚ attempted s ++ uploading (workers s) ++ chan s;
  inv_exited : Exited ∈ workers s -> closed s = true /\ chan s = [];
  inv_waited : Responding cmdClose ∈ handlers s \/ close_answered s -> wg s = 0 }.

(** One put, its upload, and a close, to the end. *)
Definition drained : state :=
  mk [] true 0 (replicate 20 Exited) [Finished; Finished] ["/c/output/bb"]
    ["/c/output/bb"] [(cmdPut, false); (cmdClose, false)] false.

(** A close that has closed the channel and waits for the workers. *)
Definition close_waiting : state :=
  mk [] true 20 (replicate 20 Idle) [Waiting] [] [] [] false.

End Pipeline.

(** * Callers of one [singleflight.Group]

    [c.flight.Do(key, fn)] of [golang.org/x/sync/singleflight], by its
    contract.  The first caller for a key registers a call and runs [fn]; a
    caller that arrives while the call is in flight adds itself to the call's
    [dups], waits, and is handed the call's value and error with [shared]
    set; when [fn] has returned the call leaves the group, so a caller that
    arrives later runs [fn] again.  The first caller reports [shared] when
    somebody waited.

    The callers are the handlers' goroutines inside [Cacher.Get] and
    [Cacher.Put]; a schedule names the caller that moves next.  A lookup, a
    run of [fn] and a link are one step each.  [executions] is a ghost log:
    for every run of [fn] that returned, its key, what it returned, and the
    callers it served. *)

Module Flight.

Inductive operation :=
| OpGet (outputID : string)      (* [Do("get"+outputID, ...)], line 69 *)
| OpPut (req : request).         (* [Do("put"+outputID, ...)], line 84 *)

Definition key (op : operation) : string :=
  match op with
  | OpGet outputID => "get" +:+ outputID
  | OpPut req => "put" +:+ hex_EncodeToString (bytes_of (req_OutputID req))
  end.

(** The function handed to [Do] (lines 69-71 and 84-87). *)
Definition fn (c : Cacher) (op : operation) : M (string * error) :=
  match op with
  | OpGet outputID => Bucket_GetOutput (c_bucket c) outputID
  | OpPut req =>
      '(pathname, _, err) ←
        Bucket_PutOutput (c_bucket c)
          (hex_EncodeToString (bytes_of (req_OutputID req))) (req_Body req);
      mret (pathname, err)
  end.

(** A caller, by where it stands. *)
Inductive caller :=
| InGet (req : request)          (* [Cacher.Get] is called *)
| InPut (req : request)          (* [Cacher.Put] is called *)
| AtDo (op : operation)          (* at the call of [c.flight.Do] *)
| Leading (op : operation)       (* in [Do], first for the key: [fn] is next *)
| Waiting (op : operation)       (* in [Do], waiting for the call in flight *)
| AfterDo (op : operation) (v : string) (err : error) (shared : bool)
| Returned (pathname : string) (err : error)
| Panicking.

Record execution := {
  e_key : string;
  e_val : string;
  e_err : error;
  e_served : list nat }.

Record state := mk {
  world : World;
  group : gmap string nat;       (* the calls in flight, with their [dups] *)
  callers : list caller;
  executions : list execution;
  crashed : bool }.

(** The method the handler's switch calls for a request (lines 193-217). *)
Definition entry (req : request) : option caller :=
  if decide (req_Command req = cmdGet) then Some (InGet req)
  else if decide (req_Command req = cmdPut) then Some (InPut req)
  else None.

Definition start (w : World) (reqs : list request) : state :=
  mk w ∅ (omap entry reqs) [] false.

(** Whom the call for [k], led by the caller [i], serves when [fn] returns:
    the leader and the callers that wait for the key. *)
Definition is_served (i : nat) (k : string) (j : nat) (cl : caller) : bool :=
  match cl with
  | Leading _ => bool_decide (j = i)
  | Waiting op => bool_decide (key op = k)
  | _ => false
  end.

Definition served (i : nat) (k : string) (cs : list caller) : list nat :=
  omap id (imap (fun j cl => if is_served i k j cl then Some j else None) cs).

Definition deliver (i : nat) (k : string) (v : string) (err : error) (dups : nat)
    (j : nat) (cl : caller) : caller :=
  match cl with
  | Leading op =>
      if bool_decide (j = i) then AfterDo op v err (bool_decide (0 < dups)) else cl
  | Waiting op =>
      if bool_decide (key op = k) then AfterDo op v err true else cl
  | _ => cl
  end.

Definition move (i : nat) (cl : caller) (w : World) (s : state) : state :=
  mk w (group s) (<[i := cl]> (callers s)) (executions s) false.

Definition crash (i : nat) (w : World) (s : state) : state :=
  mk w (group s) (<[i := Panicking]> (callers s)) (executions s) true.

(** The next step of the caller [i]. *)
Definition next (c : Cacher) (i : nat) (s : state) : state :=
  if crashed s then s
  else
    match callers s !! i with
    | Some (InGet req) =>
        (* lines 63-67 *)
        match Bucket_OutputIDFromAction (c_bucket c)
                (hex_EncodeToString (bytes_of (req_ActionID req))) (world s) with
        | (Ret (outputID, None), w) => move i (AtDo (OpGet outputID)) w s
        | (Ret (_, Some e), w) =>
            move i (Returned "" (Some (Wrapf "getting output id from action (bucket)" e)))
              w s
        | (Panic _, w) => crash i w s
        end
    | Some (InPut req) => move i (AtDo (OpPut req)) (world s) s
    | Some (AtDo op) =>
        match group s !! key op with
        | None =>
            mk (world s) (<[key op := 0]> (group s)) (<[i := Leading op]> (callers s))
               (executions s) false
        | Some dups =>
            mk (world s) (<[key op := S dups]> (group s)) (<[i := Waiting op]> (callers s))
               (executions s) false
        end
    | Some (Leading op) =>
        match fn c op (world s) with
        | (Ret (v, err), w) =>
            let dups := default 0 (group s !! key op) in
            mk w (delete (key op) (group s))
               (imap (deliver i (key op) v err dups) (callers s))
               (executions s ++
                [ {| e_key := key op; e_val := v; e_err := err;
                     e_served := served i (key op) (callers s) |} ])
               false
        | (Panic _, w) => crash i w s
        end
    | Some (AfterDo (OpGet _) v err _) =>
        (* line 77 *)
        move i (Returned v err) (world s) s
    | Some (AfterDo (OpPut req) v err _) =>
        (* lines 93-97 *)
        match err with
        | Some e => move i (Returned "" (Some e)) (world s) s
        | None =>
            match Bucket_LinkActionToOutput (c_bucket c)
                    (hex_EncodeToString (bytes_of (req_ActionID req)))
                    (hex_EncodeToString (bytes_of (req_OutputID req))) (world s) with
            | (Ret err', w) => move i (Returned v err') w s
            | (Panic _, w) => crash i w s
            end
        end
    | Some (Waiting _) | Some (Returned _ _) | Some Panicking | None => s
    end.

Definition play (c : Cacher) (schedule : list nat) (s : state) : state :=
  foldl (fun s i => next c i s) s schedule.


(** A call in flight has one leader, every waiter waits for a call in
    flight, and every caller back from [Do] holds what an execution of [fn]
    under its key returned. *)
Record invariant (s : state) : Prop := {
  inv_leading : forall i op,
    callers s !! i = Some (Leading op) -> is_Some (group s !! key op);
  inv_one_leader : forall i j op op',
    callers s !! i = Some (Leading op) -> callers s !! j = Some (Leading op') ->
    key op = key op' -> i = j;
  inv_in_flight : forall k,
    crashed s = false -> is_Some (group s !! k) ->
    exists i op, callers s !! i = Some (Leading op) /\ key op = k;
  inv_waiting : forall j op,
    callers s !! j = Some (Waiting op) -> is_Some (group s !! key op);
  inv_served : forall j op v err sh,
    callers s !! j = Some (AfterDo op v err sh) ->
    exists e, e ∈ executions s /\ j ∈ e_served e /\
      e_key e = key op /\ e_val e = v /\ e_err e = err }.


End Flight.

(** * Worlds and requests for the instances *)

(** A world to run examples in: a cache directory [/c] with its two
    directories, a bucket that holds nothing and accepts every upload, and no
    faults. *)
Definition example_env : Env :=
  {| os_fault := fun _ => None;
     rand := fun n => N.of_nat (1000 + n);
     clock := fun n => Z.of_nat n;
     bucket_Attributes := fun _ _ => inr (GcError NotFound "blob: not found");
     bucket_Upload := fun _ _ _ _ _ => None;
     bucket_Download := fun _ _ => ([], Some (GcError NotFound "blob: not found")) |}.

Definition example_disk : Disk := {| cacheDir := "/c" |}.
Definition example_cacher : Cacher :=
  {| c_disk := example_disk; c_bucket := {| disk := example_disk |} |}.

Definition example_world (files : list (string * node)) : World :=
  mkWorld example_env 0
    (list_to_map (("/c/action", Dir 4096 0) :: ("/c/output", Dir 4096 0) :: files))
    ∅ [] [] false [].

Definition fresh_world : World := mkWorld example_env 0 ∅ ∅ [] [] false [].

Definition get_0a : request :=
  {| req_ID := 7; req_Command := cmdGet; req_ActionID := Some [Byte.x0a];
     req_ObjectID := None; req_OutputID := None; req_Body := None; req_BodySize := 0 |}.

Definition put_bb : request :=
  {| req_ID := 1; req_Command := cmdPut; req_ActionID := Some [Byte.x0a];
     req_ObjectID := None; req_OutputID := Some [Byte.xbb]; req_Body := None;
     req_BodySize := 2 |}.

(** The action [0a] is linked to the output [bb], whose blob is neither on
    disk nor in the bucket. *)
Definition world_dangling_link : World :=
  example_world [("/c/action/0a", Symlink "../output/bb")].

Definition faulty_env (k : nat) : Env :=
  {| os_fault := fun n => if (n =? k)%nat then Some EIO else None;
     rand := rand example_env; clock := clock example_env;
     bucket_Attributes := fun _ _ => inr (GcError PermissionDenied "blob: permission denied");
     bucket_Upload := bucket_Upload example_env;
     bucket_Download := bucket_Download example_env |}.

(** A world with one reader, holding two bytes, in which the consultation
    number [k] of the environment gives a fault. *)
Definition world_with_fault (k : nat) : World :=
  mkWorld (faulty_env k) 0
    (list_to_map [("/c/action", Dir 4096 0); ("/c/output", Dir 4096 0)])
    {[ 0%nat := {| s_data := [Byte.x01; Byte.x02]; s_err := None |} ]}
    [] [] false [].

Definition put_bb_body : request := set_Body (Some 0%nat) put_bb.

(** A bucket that holds the action [0a], mapped to the output [bb], and the
    two bytes of that output, and that refuses every upload. *)
Definition stocked_env : Env :=
  {| os_fault := fun _ => None;
     rand := rand example_env; clock := clock example_env;
     bucket_Attributes := fun _ _ => inl {| Metadata := {[ "output_id" := "bb" ]} |};
     bucket_Upload := fun _ _ _ _ _ => Some (GcError Internal "blob: internal error");
     bucket_Download := fun _ _ => ([Byte.x01; Byte.x02], None) |}.

Definition stocked_world (files : list (string * node)) : World :=
  mkWorld stocked_env 0
    (list_to_map (("/c/action", Dir 4096 0) :: ("/c/output", Dir 4096 0) :: files))
    ∅ [] [] false [].

(** The action [0a] is linked to the output [bb], and the blob is there. *)
Definition world_cached : World :=
  example_world [("/c/action/0a", Symlink "../output/bb");
                 ("/c/output/bb", File [Byte.x01; Byte.x02] 5)].

(** Two jobs wait in the queue; the file of the second one is gone. *)
Definition world_queued : World :=
  mkWorld example_env 0
    (list_to_map [("/c/action", Dir 4096 0); ("/c/output", Dir 4096 0);
                  ("/c/output/bb", File [Byte.x01; Byte.x02] 5)])
    ∅ [] ["/c/output/bb"; "/c/output/cc"] false [].

Definition close_9 : request :=
  {| req_ID := 9; req_Command := cmdClose; req_ActionID := None;
     req_ObjectID := None; req_OutputID := None; req_Body := None; req_BodySize := 0 |}.

Definition stats_4 : request :=
  {| req_ID := 4; req_Command := "stats"; req_ActionID := None;
     req_ObjectID := None; req_OutputID := None; req_Body := None; req_BodySize := 0 |}.

(** A get that names its output in the deprecated field and declares a
    body. *)
Definition get_legacy : request :=
  {| req_ID := 3; req_Command := cmdGet; req_ActionID := Some [Byte.x0a];
     req_ObjectID := Some [Byte.xbb]; req_OutputID := Some [Byte.xcc]; req_Body := None;
     req_BodySize := 2 |}.

(** A bucket that holds nothing and refuses the uploads under the key
    [action/0b]. *)
Definition picky_env : Env :=
  {| os_fault := fun _ => None;
     rand := rand example_env; clock := clock example_env;
     bucket_Attributes := bucket_Attributes example_env;
     bucket_Upload := fun _ key _ _ _ =>
       if String.eqb key "action/0b"
       then Some (GcError PermissionDenied "blob: permission denied")
       else None;
     bucket_Download := bucket_Download example_env |}.

(** Two puts of the output [bb], for the actions [0a] and [0b], each with
    its own reader of the same two bytes. *)
Definition put_bb_0b : request :=
  {| req_ID := 2; req_Command := cmdPut; req_ActionID := Some [Byte.x0b];
     req_ObjectID := None; req_OutputID := Some [Byte.xbb]; req_Body := Some 1%nat;
     req_BodySize := 2 |}.

Definition world_two_puts : World :=
  mkWorld picky_env 0
    (list_to_map [("/c/action", Dir 4096 0); ("/c/output", Dir 4096 0)])
    {[ 0%nat := {| s_data := [Byte.x01; Byte.x02]; s_err := None |};
       1%nat := {| s_data := [Byte.x01; Byte.x02]; s_err := None |} ]}
    [] [] false [].


(** * Properties *)

(** ** Paths *)

Lemma pretty_N_go_head (x : N) (s : string) :
  (0 < x)%N ->
  exists c s', pretty_N_go x s = String c s' /\ c <> "/"%char.
Proof.
  revert s. induction (N.lt_wf_0 x) as [x _ IH]. intros s Hx.
  rewrite pretty_N_go_step by done.
  destruct (decide (x `div` 10 = 0)%N) as [Hz|Hz].
  - rewrite Hz, pretty_N_go_0. eexists _, _. split; [done|].
    unfold pretty_N_char. repeat case_match; discriminate.
  - apply IH.
    + apply N.div_lt; [done | reflexivity].
    + destruct (x `div` 10)%N; [done | reflexivity].
Qed.

Lemma pretty_N_head (n : N) :
  exists c s', pretty n = String c s' /\ c <> "/"%char.
Proof.
  unfold pretty, pretty_N. case_decide.
  - eexists _, _. split; [done | discriminate].
  - apply pretty_N_go_head. lia.
Qed.

Lemma outputPathname_nonempty d outputID : outputPathname d outputID <> "".
Proof.
  unfold outputPathname, filepath_Join, outputDir.
  destruct (cacheDir d) as [|c cd], outputID as [|c' o]; cbn; discriminate.
Qed.

Lemma tmp_not_outputPathname d outputID (n : N) :
  tmp_name (cacheDir d) "output" n <> outputPathname d outputID.
Proof.
  unfold tmp_name. destruct (pretty_N_head n) as (c & s' & -> & Hc).
  unfold outputPathname, filepath_Join, outputDir.
  destruct (cacheDir d) as [|a cd] eqn:Hcd.
  - destruct outputID; cbn; discriminate.
  - destruct outputID as [|b o]; cbn; intros [= H].
    + apply (inj (String.app cd)) in H. discriminate H.
    + apply (inj (String.app cd)) in H. injection H as H1 H2. congruence.
Qed.

(** ** The monad's equations *)

Lemma bind_eq {A B} (m : M A) (f : A -> M B) (w : World) :
  (m ≫= f) w = match m w with
               | (Ret a, w') => f a w'
               | (Panic msg, w') => (Panic msg, w')
               end.
Proof. reflexivity. Qed.

Lemma stat_node_None fuel m name :
  m !! name = None -> stat_node fuel m name = inr ENOENT.
Proof. intros H. destruct fuel; simpl; by rewrite H. Qed.

Lemma stat_node_File fuel m name data mtime :
  m !! name = Some (File data mtime) ->
  stat_node fuel m name = inl {| fi_Size := Z.of_nat (length data); fi_ModTime := mtime |}.
Proof. intros H. destruct fuel; simpl; by rewrite H. Qed.

Ltac unfold_m :=
  unfold mbind, M_bind, mret, M_ret, act, panic, defer, consult in *.

(** ** What each system call does to the world *)

Lemma local_step_refl w : local_step w w.
Proof. by repeat split. Qed.

Lemma local_step_trans w1 w2 w3 :
  local_step w1 w2 -> local_step w2 w3 -> local_step w1 w3.
Proof. unfold local_step. intros (?&?&?&?&?) (?&?&?&?&?). repeat split; congruence. Qed.

#[local] Hint Resolve local_step_refl : core.

Lemma os_Stat_inv name w o w' :
  os_Stat name w = (o, w') ->
  w' = w /\ ((exists fi, o = Ret (fi, None)) \/ (exists e, o = Ret (no_FileInfo, Some e))).
Proof. unfold os_Stat. intros H. repeat case_match; simplify_eq; eauto. Qed.

Lemma os_Stat_file name w data mtime :
  name <> "" -> fs w !! name = Some (File data mtime) ->
  os_Stat name w =
    (Ret ({| fi_Size := Z.of_nat (length data); fi_ModTime := mtime |}, None), w).
Proof.
  intros Hne H. unfold os_Stat. rewrite decide_False by done.
  by rewrite (stat_node_File _ _ _ _ _ H).
Qed.

Lemma os_Stat_None name w :
  fs w !! name = None ->
  exists e, os_Stat name w = (Ret (no_FileInfo, Some e), w).
Proof.
  intros H. unfold os_Stat. case_decide; [eauto|].
  rewrite (stat_node_None _ _ _ H). eauto.
Qed.

Lemma os_CreateTemp_inv dir pattern w o w' :
  os_CreateTemp dir pattern w = (o, w') ->
  local_step w w' /\ readers w' = readers w /\
  ((exists e, o = Ret ("", Some e) /\ fs w' = fs w) \/
   (exists n now, o = Ret (tmp_name dir pattern n, None) /\
      fs w !! tmp_name dir pattern n = None /\
      fs w' = <[tmp_name dir pattern n := File [] now]> (fs w))).
Proof.
  unfold os_CreateTemp. unfold_m. cbn. intros H.
  repeat case_match; simplify_eq; cbn; (split; [by repeat split|]); split; eauto 8.
Qed.

Lemma io_Copy_inv f r w o w' :
  io_Copy f r w = (o, w') ->
  local_step w w' /\
  match o with
  | Ret (_, None) =>
      exists i s now, r = Some i /\ readers w !! i = Some s /\ s_err s = None /\
        fs w' = file_append f (s_data s) now (fs w)
  | Ret (_, Some _) => exists data now, fs w' = file_append f data now (fs w)
  | Panic _ => fs w' = fs w
  end.
Proof.
  unfold io_Copy. unfold_m. cbn. intros H.
  destruct r as [i|]; cbn in H; [destruct (readers w !! i) as [s|] eqn:Hs|];
    repeat case_match; simplify_eq; cbn; (split; [by repeat split|]); eauto 10.
Qed.

Lemma File_Close_inv f w o w' :
  File_Close f w = (o, w') ->
  local_step w w' /\ fs w' = fs w /\ readers w' = readers w /\ exists err, o = Ret err.
Proof.
  unfold File_Close. unfold_m. cbn. intros [= <- <-]. cbn.
  split; [by repeat split|]. eauto.
Qed.

Lemma os_Rename_inv oldpath newpath w o w' :
  os_Rename oldpath newpath w = (o, w') ->
  local_step w w' /\ readers w' = readers w /\
  ((exists e, o = Ret (Some e) /\ fs w' = fs w) \/
   (exists nd, o = Ret None /\ fs w !! oldpath = Some nd /\
      fs w' = <[newpath := nd]> (delete oldpath (fs w)))).
Proof.
  unfold os_Rename. unfold_m. cbn. intros H.
  repeat case_match; simplify_eq; cbn; (split; [by repeat split|]); split; eauto 8.
Qed.

Lemma os_RemoveAll_inv path w o w' :
  os_RemoveAll path w = (o, w') ->
  (forall size mtime, fs w !! path <> Some (Dir size mtime)) ->
  local_step w w' /\ readers w' = readers w /\ o = Ret tt /\
  fs w' = delete path (fs w).
Proof.
  unfold os_RemoveAll. intros H Hd.
  repeat case_match; simplify_eq; cbn; try (by repeat split).
  by edestruct Hd.
Qed.

Lemma defer_inv {A B} (cleanup : M B) (body : M A) w o w' :
  defer cleanup body w = (o, w') ->
  exists w1 o', body w = (o, w1) /\ cleanup w1 = (o', w').
Proof.
  unfold defer. destruct (body w) as [o1 w1]. destruct (cleanup w1) as [o2 w2] eqn:Hc.
  intros [= <- <-]. eauto.
Qed.

Lemma file_append_new name data now (m : gmap string node) old mtime :
  file_append name data now (<[name := File old mtime]> m)
  = <[name := File (old ++ data) now]> m.
Proof.
  unfold file_append. rewrite lookup_insert_eq. by rewrite insert_insert_eq.
Qed.

(** What a call of [Disk.PutOutput] does to the world, by the way it
    returns. *)
Lemma Disk_PutOutput_spec d outputID r w o w' :
  Disk_PutOutput d outputID r w = (o, w') ->
  local_step w w' /\
  (forall path, path <> outputPathname d outputID -> fs w' !! path = fs w !! path) /\
  match o with
  | Ret (p, _, Some e) =>
      p = "" /\ fs w' = fs w /\
      exists e', os_Stat (outputPathname d outputID) w = (Ret (no_FileInfo, Some e'), w)
  | Ret (p, true, None) =>
      p = outputPathname d outputID /\ w' = w /\
      exists fi, os_Stat (outputPathname d outputID) w = (Ret (fi, None), w)
  | Ret (p, false, None) =>
      p = outputPathname d outputID /\
      exists i s mtime, r = Some i /\ readers w !! i = Some s /\ s_err s = None /\
        fs w' = <[outputPathname d outputID := File (s_data s) mtime]> (fs w)
  | Panic _ => fs w' = fs w
  end.
Proof.
  intros H. unfold Disk_PutOutput in H. rewrite bind_eq in H.
  destruct (os_Stat (outputPathname d outputID) w) as [o1 w1] eqn:Hstat.
  pose proof (os_Stat_inv _ _ _ _ Hstat) as [-> [(fi & ->)|(e0 & ->)]].
  { injection H as <- <-. split; [done|]. split; [done|]. eauto. }
  rewrite bind_eq in H.
  destruct (os_CreateTemp (cacheDir d) "output" w) as [o1 w1] eqn:Hct.
  apply os_CreateTemp_inv in Hct
    as (Hl1 & Hr1 & [(e & -> & Hfs1) | (n & now & -> & Hnone & Hfs1)]).
  { injection H as <- <-. rewrite Hfs1. split; [done|]. split; [done|]. eauto. }
  pose proof (tmp_not_outputPathname d outputID n) as Htmp.
  set (tmp := tmp_name (cacheDir d) "output" n) in *.
  set (target := outputPathname d outputID) in *.
  apply defer_inv in H as (w3 & o3 & H & Hrm).
  apply defer_inv in H as (w2 & o2 & H & Hcl).
  injection Hcl as _ <-.
  (* the body *)
  assert (local_step w1 w2 /\
          ((match o with Ret (p, _, Some _) => p = "" | Panic _ => True | _ => False end /\
            exists data mt, fs w2 = <[tmp := File data mt]> (fs w)) \/
           (o = Ret (target, false, None) /\
            exists i s mt, r = Some i /\ readers w !! i = Some s /\ s_err s = None /\
              fs w2 = <[target := File (s_data s) mt]> (delete tmp (fs w1)))))
    as [Hl2 Hbody].
  { rewrite bind_eq in H.
    destruct (io_Copy tmp r w1) as [o4 w4] eqn:Hcp.
    apply io_Copy_inv in Hcp as [Hl4 Hcp].
    destruct o4 as [[k [e|]]|msg].
    - injection H as <- <-. split; [done|]. left. split; [done|].
      destruct Hcp as (data & mt & ->). rewrite Hfs1, file_append_new. eauto.
    - rewrite bind_eq in H.
      destruct (File_Close tmp w4) as [o5 w5] eqn:Hfc.
      apply File_Close_inv in Hfc as (Hl5 & Hfs5 & Hr5 & [err ->]).
      destruct Hcp as (i & s & mt & -> & Hs & Herr & Hfs4).
      rewrite Hfs1, file_append_new in Hfs4.
      destruct err as [e|].
      + injection H as <- <-. split; [by eapply local_step_trans|].
        left. split; [done|]. rewrite Hfs5, Hfs4. eauto.
      + rewrite bind_eq in H.
        destruct (os_Rename tmp target w5) as [o6 w6] eqn:Hrn.
        apply os_Rename_inv in Hrn
          as (Hl6 & Hr6 & [(e & -> & Hfs6) | (nd & -> & Hnd & Hfs6)]).
        * injection H as <- <-.
          split; [eauto using local_step_trans|].
          left. split; [done|]. rewrite Hfs6, Hfs5, Hfs4. eauto.
        * injection H as <- <-.
          split; [eauto using local_step_trans|].
          right. split; [done|]. exists i, s, mt.
          rewrite Hr1 in Hs. split_and!; try done.
          rewrite Hfs6. rewrite Hfs5, Hfs4, lookup_insert_eq in Hnd.
          injection Hnd as <-. rewrite Hfs5, Hfs4, Hfs1.
          by rewrite !delete_insert_eq.
    - injection H as <- <-. split; [done|]. left. split; [done|].
      rewrite Hcp, Hfs1. eauto. }
  assert (local_step w w2) as Hl by eauto using local_step_trans.
  destruct Hbody as [[Ho (data & mt & Hfs2)] | [-> (i & s & mt & -> & Hs & Herr & Hfs2)]].
  - apply os_RemoveAll_inv in Hrm as (Hl3 & _ & _ & Hfs3);
      [|by rewrite Hfs2, lookup_insert_eq].
    rewrite Hfs2, delete_insert_eq, delete_id in Hfs3 by done.
    split; [eauto using local_step_trans|]. split; [by rewrite Hfs3|].
    destruct o as [[[p [] ] [e|]]|]; try done; eauto.
  - apply os_RemoveAll_inv in Hrm as (Hl3 & _ & _ & Hfs3);
      [|by rewrite Hfs2, lookup_insert_ne, lookup_delete_eq].
    assert (fs w' = <[target := File (s_data s) mt]> (fs w)) as Hfs'.
    { rewrite Hfs3, Hfs2, Hfs1. apply map_eq. intros k.
      destruct (decide (k = tmp)) as [Hk|Hk].
      - rewrite Hk, lookup_delete_eq, lookup_insert_ne by done. by rewrite Hnone.
      - rewrite lookup_delete_ne by done.
        destruct (decide (k = target)) as [Hk'|Hk'].
        + by rewrite Hk', !lookup_insert_eq.
        + by rewrite !lookup_insert_ne, lookup_delete_ne, lookup_insert_ne. }
    clear Hfs3. rename Hfs' into Hfs3.
    split; [eauto using local_step_trans|]. split.
    + intros path Hp. by rewrite Hfs3, lookup_insert_ne.
    + split; [done|]. by exists i, s, mt.
Qed.

Lemma Disk_PutOutput_exists d outputID r w fi :
  os_Stat (outputPathname d outputID) w = (Ret (fi, None), w) ->
  Disk_PutOutput d outputID r w = (Ret (outputPathname d outputID, true, None), w).
Proof. intros H. unfold Disk_PutOutput. by rewrite bind_eq, H. Qed.

(** ** Storing an output *)

(** C5.  A call of [Disk.PutOutput] changes no path but the output's own, so
    no temporary file is left, however the call ends.  When it fails, at
    the creation of the temporary file, the copy, the close or the rename,
    the path is empty, the file system is as it was before the call, and the
    output's path still names nothing.  When it writes the output, the file
    under the output's path holds everything the reader had, and the reader
    ended without an error. *)
Theorem Disk_PutOutput_all_or_nothing d outputID r w p existed err w' :
  Disk_PutOutput d outputID r w = (Ret (p, existed, err), w') ->
  (forall path, path <> outputPathname d outputID -> fs w' !! path = fs w !! path) /\
  (forall e, err = Some e ->
     p = "" /\ fs w' = fs w /\
     exists e', os_Stat (outputPathname d outputID) w' = (Ret (no_FileInfo, Some e'), w')) /\
  (err = None -> existed = true -> fs w' = fs w) /\
  (err = None -> existed = false ->
     exists i s mtime, r = Some i /\ readers w !! i = Some s /\ s_err s = None /\
       fs w' !! outputPathname d outputID = Some (File (s_data s) mtime)).
Proof.
  intros H. apply Disk_PutOutput_spec in H as (Hl & Hframe & Hres).
  split; [done|]. split; [|split].
  - intros e ->. destruct existed; destruct Hres as (-> & Hfs & e' & Hst);
      (split; [done|]; split; [done|]);
      unfold os_Stat in Hst |- *; rewrite Hfs;
      repeat case_match; simplify_eq; eauto.
  - intros -> ->. by destruct Hres as (_ & -> & _).
  - intros -> ->. destruct Hres as (_ & i & s & mt & -> & Hs & He & Hfs).
    exists i, s, mt. by rewrite Hfs, lookup_insert_eq.
Qed.

(** An instance: the rename fails, and the file system is as before. *)
Lemma Disk_PutOutput_all_or_nothing_witness :
  let res := Disk_PutOutput example_disk "bb" (Some 0%nat) (world_with_fault 3) in
  res.1 = Ret ("", false,
               Some (Wrapf "renaming"
                       (LinkError "rename" "/c/output1000" "/c/output/bb" EIO))) /\
  fs res.2 = fs (world_with_fault 3).
Proof.
  cbv zeta. split; [vm_compute; reflexivity|].
  destruct (Disk_PutOutput_all_or_nothing example_disk "bb" (Some 0%nat)
              (world_with_fault 3) "" false
              (Some (Wrapf "renaming"
                       (LinkError "rename" "/c/output1000" "/c/output/bb" EIO)))
              (Disk_PutOutput example_disk "bb" (Some 0%nat) (world_with_fault 3)).2)
    as (_ & H & _); [vm_compute; reflexivity|].
  destruct (H _ eq_refl) as (_ & Hfs & _). exact Hfs.
Defined.

Lemma Bucket_PutOutput_eq b outputID r w :
  Bucket_PutOutput b outputID r w =
  match Disk_PutOutput (disk b) outputID r w with
  | (Ret (_, _, Some e), wd) => (Ret ("", false, Some e), wd)
  | (Ret (p, true, None), wd) => (Ret (p, true, None), wd)
  | (Ret (p, false, None), wd) =>
      if jobs_closed wd then (Panic "send on closed channel", wd)
      else (Ret (p, false, None), set_jobs (jobs wd ++ [p]) wd)
  | (Panic msg, wd) => (Panic msg, wd)
  end.
Proof.
  unfold Bucket_PutOutput. rewrite bind_eq.
  destruct (Disk_PutOutput (disk b) outputID r w) as [[[[p []] [e|]]|msg] wd]; try done.
  rewrite bind_eq. unfold jobs_send. by destruct (jobs_closed wd).
Qed.

(** C4.  After a store of an output has succeeded, a second store of the same
    output returns the same path and reports that the output existed; it
    leaves the world as it was, so it reads nothing from its reader and sends
    no job.  The first store sent one job or none. *)
Theorem Bucket_PutOutput_idempotent b outputID r1 r2 w p1 existed1 w1 :
  Bucket_PutOutput b outputID r1 w = (Ret (p1, existed1, None), w1) ->
  Bucket_PutOutput b outputID r2 w1 = (Ret (p1, true, None), w1) /\
  (jobs w1 = jobs w \/ jobs w1 = jobs w ++ [p1]).
Proof.
  rewrite !Bucket_PutOutput_eq.
  destruct (Disk_PutOutput (disk b) outputID r1 w) as [o wd] eqn:Hd.
  apply Disk_PutOutput_spec in Hd as (Hl & _ & Hres).
  destruct Hl as (_ & _ & Hjobs & _).
  destruct o as [[[p []] [e|]]|msg]; try done.
  - intros [= -> -> ->]. destruct Hres as (-> & -> & fi & Hst).
    rewrite (Disk_PutOutput_exists _ _ _ _ _ Hst). auto.
  - destruct (jobs_closed wd) eqn:Hc; [done|].
    intros [= -> -> <-]. destruct Hres as (-> & i & s & mt & _ & _ & _ & Hfs).
    erewrite Disk_PutOutput_exists.
    + split; [done|]. right. cbn. by rewrite Hjobs.
    + apply os_Stat_file; [apply outputPathname_nonempty|].
      cbn. by rewrite Hfs, lookup_insert_eq.
Qed.

(** An instance: a new blob is stored, then stored again. *)
Lemma Bucket_PutOutput_idempotent_witness :
  let b := {| disk := example_disk |} in
  let w1 := (Bucket_PutOutput b "bb" (Some 0%nat) (world_with_fault 9)).2 in
  Bucket_PutOutput b "bb" (Some 0%nat) (world_with_fault 9)
  = (Ret ("/c/output/bb", false, None), w1) /\
  Bucket_PutOutput b "bb" (Some 0%nat) w1 = (Ret ("/c/output/bb", true, None), w1) /\
  (jobs w1 = jobs (world_with_fault 9) \/
   jobs w1 = jobs (world_with_fault 9) ++ ["/c/output/bb"]).
Proof.
  cbv zeta. split; [vm_compute; reflexivity|].
  apply (Bucket_PutOutput_idempotent {| disk := example_disk |} "bb" (Some 0%nat)
           (Some 0%nat) (world_with_fault 9) "/c/output/bb" false).
  vm_compute; reflexivity.
Defined.

(** C10.  When the disk write of a put fails, [Cacher.Put] returns the empty
    path and that error; no job has been sent, no remote call has been made,
    and the file system, action links included, is as it was. *)
Theorem Cacher_Put_failed_write c req w p existed e w1 :
  Disk_PutOutput (disk (c_bucket c))
    (hex_EncodeToString (bytes_of (req_OutputID req))) (req_Body req) w
    = (Ret (p, existed, Some e), w1) ->
  Cacher_Put c req w = (Ret ("", Some e), w1) /\
  jobs w1 = jobs w /\ calls w1 = calls w /\ fs w1 = fs w.
Proof.
  intros H. unfold Cacher_Put, flight_Do.
  rewrite !bind_eq, Bucket_PutOutput_eq, H.
  apply Disk_PutOutput_spec in H as ((_ & Hcalls & Hjobs & _) & _ & Hres).
  destruct existed; destruct Hres as (_ & -> & _); by cbn.
Qed.

(** An instance: the copy to the temporary file fails. *)
Lemma Cacher_Put_failed_write_witness :
  let w1 := (Disk_PutOutput example_disk "bb" (Some 0%nat) (world_with_fault 1)).2 in
  let e := Wrapf "copying output to disk" (PathError "write" "/c/output1000" EIO) in
  Disk_PutOutput example_disk "bb" (Some 0%nat) (world_with_fault 1)
  = (Ret ("", false, Some e), w1) /\
  Cacher_Put example_cacher put_bb_body (world_with_fault 1) = (Ret ("", Some e), w1) /\
  jobs w1 = jobs (world_with_fault 1) /\ calls w1 = calls (world_with_fault 1) /\
  fs w1 = fs (world_with_fault 1).
Proof.
  cbv zeta. split; [vm_compute; reflexivity|].
  apply (Cacher_Put_failed_write example_cacher put_bb_body (world_with_fault 1) "" false).
  vm_compute; reflexivity.
Defined.

(** ** Looking up an action (second snapshot) *)

Lemma string_length_app (s1 s2 : string) :
  String.length (s1 +:+ s2) = String.length s1 + String.length s2.
Proof.
  induction s1 as [|c s1 IH]; [done|].
  change (S (String.length (s1 +:+ s2)) = S (String.length s1 + String.length s2)).
  by rewrite IH.
Qed.

Lemma marker_not_action b actionID :
  Snapshot2.cacheEmptyOutputPath b actionID <> actionPathname (disk b) actionID.
Proof.
  unfold Snapshot2.cacheEmptyOutputPath, actionPathname, filepath_Join, actionDir.
  assert (actionID +:+ ".empty" <> actionID) as Hne.
  { intros H%(f_equal String.length). rewrite string_length_app in H. cbn in H. lia. }
  destruct (cacheDir (disk b)) as [|c cd]; destruct actionID as [|a o];
    try change (String a o +:+ ".empty") with (String a (o +:+ ".empty")) in *;
    cbn; intros H.
  - discriminate H.
  - injection H as H. by destruct Hne; f_equal.
  - injection H as H. apply (inj (String.app cd)) in H. discriminate H.
  - injection H as H. apply (inj (String.app cd)) in H.
    injection H as H. by destruct Hne; f_equal.
Qed.

Lemma marker_nonempty b actionID : Snapshot2.cacheEmptyOutputPath b actionID <> "".
Proof.
  unfold Snapshot2.cacheEmptyOutputPath, filepath_Join, actionDir.
  destruct (cacheDir (disk b)) as [|c cd]; destruct actionID as [|a o];
    try change (String a o +:+ ".empty") with (String a (o +:+ ".empty")) in *;
    cbn; discriminate.
Qed.

Lemma Disk_OutputIDFromAction_absent d actionID w :
  fs w !! actionPathname d actionID = None ->
  Disk_OutputIDFromAction d actionID w = (Ret ("", None), w).
Proof.
  intros H. unfold Disk_OutputIDFromAction, os_Readlink. rewrite bind_eq, H. done.
Qed.

Lemma lookup_served_from_marker b actionID w mtime :
  fs w !! actionPathname (disk b) actionID = None ->
  fs w !! Snapshot2.cacheEmptyOutputPath b actionID = Some (File [] mtime) ->
  Snapshot2.Bucket_OutputIDFromAction b actionID w = (Ret ("", None), w).
Proof.
  intros Hlink Hmark. unfold Snapshot2.Bucket_OutputIDFromAction.
  rewrite bind_eq, Disk_OutputIDFromAction_absent by done.
  rewrite decide_False by (by intros []). rewrite bind_eq.
  by rewrite (os_Stat_file _ _ _ _ (marker_nonempty b actionID) Hmark).
Qed.

Lemma keeps_calls_os_WriteFile name data w :
  calls (os_WriteFile name data w).2 = calls w.
Proof.
  unfold os_WriteFile. unfold_m. cbn -[write_target].
  destruct (write_target _ _ _); [|done]. by destruct (os_fault _ _).
Qed.

Lemma write_target_None fuel m name :
  m !! name = None -> write_target fuel m name = inl name.
Proof. intros H. destruct fuel; simpl; by rewrite H. Qed.

Lemma keeps_calls_Snapshot2_Disk_link d actionID outputID w :
  calls (Snapshot2.Disk_LinkActionToOutput d actionID outputID w).2 = calls w.
Proof.
  unfold Snapshot2.Disk_LinkActionToOutput, os_Symlink. unfold_m.
  cbn -[actionPathname filepath_Join]. repeat case_match; by simplify_eq/=.
Qed.

Lemma os_WriteFile_new name data w :
  fs w !! name = None ->
  os_WriteFile name data w
  = match os_fault (env w) (tick w) with
    | Some en => (Ret (Some (PathError "open" name en)), set_tick (S (tick w)) w)
    | None =>
        (Ret None,
         set_fs (<[name := File data (clock (env w) (tick w))]> (fs w))
           (set_tick (S (tick w)) w))
    end.
Proof.
  intros H. unfold os_WriteFile. unfold_m. cbn -[write_target].
  rewrite (write_target_None _ _ _ H).
  by destruct (os_fault (env w) (tick w)).
Qed.

(** The lookup of an action that has no link and no marker, when the bucket
    answers not-found: the empty output id and no error, one call to the
    bucket, and the marker, an empty file, when its write goes through.  The
    result of the write is not looked at: when it fails, the file system is as
    it was. *)
Lemma Snapshot2_lookup_not_found b actionID w e :
  fs w !! actionPathname (disk b) actionID = None ->
  fs w !! Snapshot2.cacheEmptyOutputPath b actionID = None ->
  bucket_Attributes (env w) (calls w) (path_Join [actionDir; actionID]) = inr e ->
  is_NotFound (Some e) = true ->
  Snapshot2.Bucket_OutputIDFromAction b actionID w
  = (Ret ("", None),
     let wc := set_tick (S (tick w))
                 (set_calls (calls w ++ [CallAttributes (path_Join [actionDir; actionID])]) w) in
     match os_fault (env w) (tick w) with
     | Some _ => wc
     | None =>
         set_fs (<[Snapshot2.cacheEmptyOutputPath b actionID
                   := File [] (clock (env w) (tick w))]> (fs w)) wc
     end).
Proof.
  intros Hlink Hmark Hreply Hnf.
  unfold Snapshot2.Bucket_OutputIDFromAction.
  rewrite bind_eq, Disk_OutputIDFromAction_absent by done.
  rewrite decide_False by (by intros []). rewrite bind_eq.
  destruct (os_Stat_None _ _ Hmark) as [e' ->].
  rewrite bind_eq. unfold Bucket_Attributes at 1. rewrite Hreply, Hnf.
  rewrite bind_eq, os_WriteFile_new by done. cbn.
  by destruct (os_fault (env w) (tick w)).
Qed.

(** The marker is recorded when its write goes through, and from then on, in
    any world in which the marker is there and the action still has no link,
    whatever the bucket would answer, any number of lookups give the empty
    output id each and leave the world as it is: no remote call is made. *)
Lemma marker_serves_later_lookups b actionID w e :
  fs w !! actionPathname (disk b) actionID = None ->
  fs w !! Snapshot2.cacheEmptyOutputPath b actionID = None ->
  bucket_Attributes (env w) (calls w) (path_Join [actionDir; actionID]) = inr e ->
  is_NotFound (Some e) = true ->
  os_fault (env w) (tick w) = None ->
  exists w1,
    Snapshot2.Bucket_OutputIDFromAction b actionID w = (Ret ("", None), w1) /\
    fs w1 !! actionPathname (disk b) actionID = None /\
    (exists mtime, fs w1 !! Snapshot2.cacheEmptyOutputPath b actionID
                   = Some (File [] mtime)) /\
    forall n w2,
      fs w2 !! actionPathname (disk b) actionID = None ->
      fs w2 !! Snapshot2.cacheEmptyOutputPath b actionID
      = fs w1 !! Snapshot2.cacheEmptyOutputPath b actionID ->
      repeat_M n (Snapshot2.Bucket_OutputIDFromAction b actionID) w2
      = (Ret (replicate n ("", None)), w2).
Proof.
  intros Hlink Hmark Hreply Hnf Hok.
  rewrite (Snapshot2_lookup_not_found _ _ _ _ Hlink Hmark Hreply Hnf). cbn zeta.
  rewrite Hok. eexists. split; [reflexivity|]. cbn. split.
  { rewrite lookup_insert_ne by apply marker_not_action. done. }
  split.
  { eexists. apply lookup_insert_eq. }
  intros n w2 Hlink2 Hmark2. rewrite lookup_insert_eq in Hmark2.
  induction n as [|n IH]; [done|].
  cbn [repeat_M]. rewrite bind_eq.
  erewrite lookup_served_from_marker by done.
  rewrite bind_eq, IH. done.
Qed.

(** With no link and no marker, the lookup asks the bucket. *)
Lemma Snapshot2_lookup_asks_bucket b actionID w :
  fs w !! actionPathname (disk b) actionID = None ->
  fs w !! Snapshot2.cacheEmptyOutputPath b actionID = None ->
  calls (Snapshot2.Bucket_OutputIDFromAction b actionID w).2
  = calls w ++ [CallAttributes (path_Join [actionDir; actionID])].
Proof.
  intros Hlink Hmark.
  unfold Snapshot2.Bucket_OutputIDFromAction.
  rewrite bind_eq, Disk_OutputIDFromAction_absent by done.
  rewrite decide_False by (by intros []). rewrite bind_eq.
  destruct (os_Stat_None _ _ Hmark) as [e' ->].
  rewrite bind_eq. unfold Bucket_Attributes at 1.
  set (key := path_Join [actionDir; actionID]).
  set (wc := set_calls (calls w ++ [CallAttributes key]) w).
  destruct (bucket_Attributes (env w) (calls w) key) as [attr|e2].
  - case_decide; [done|]. rewrite bind_eq.
    pose proof (keeps_calls_Snapshot2_Disk_link (disk b) actionID
                  (default "" (Metadata attr !! "output_id")) wc) as Hk.
    by destruct (Snapshot2.Disk_LinkActionToOutput _ _ _ wc) as [[r|msg] w3].
  - destruct (is_NotFound (Some e2)); [|done]. rewrite bind_eq.
    pose proof (keeps_calls_os_WriteFile (Snapshot2.cacheEmptyOutputPath b actionID) [] wc)
      as Hk.
    by destruct (os_WriteFile _ _ wc) as [[r|msg] w3].
Qed.

(** When the write of the marker fails, nothing is recorded: the lookup
    still gives the empty output id and no error, and the next lookup of the
    action calls the bucket again. *)
Lemma marker_not_written_on_fault b actionID w e en :
  fs w !! actionPathname (disk b) actionID = None ->
  fs w !! Snapshot2.cacheEmptyOutputPath b actionID = None ->
  bucket_Attributes (env w) (calls w) (path_Join [actionDir; actionID]) = inr e ->
  is_NotFound (Some e) = true ->
  os_fault (env w) (tick w) = Some en ->
  exists w1,
    Snapshot2.Bucket_OutputIDFromAction b actionID w = (Ret ("", None), w1) /\
    fs w1 = fs w /\
    calls (Snapshot2.Bucket_OutputIDFromAction b actionID w1).2
    = calls w ++ [CallAttributes (path_Join [actionDir; actionID]);
                  CallAttributes (path_Join [actionDir; actionID])].
Proof.
  intros Hlink Hmark Hreply Hnf Hfault.
  rewrite (Snapshot2_lookup_not_found _ _ _ _ Hlink Hmark Hreply Hnf). cbn zeta.
  rewrite Hfault. eexists. split; [reflexivity|]. split; [done|].
  rewrite Snapshot2_lookup_asks_bucket by done. cbn -[path_Join].
  by rewrite <- app_assoc.
Qed.

(** The second snapshot hands a remote error that is not a not-found back to
    the caller. *)
Lemma Snapshot2_lookup_returns_remote_error b actionID w e :
  fs w !! actionPathname (disk b) actionID = None ->
  fs w !! Snapshot2.cacheEmptyOutputPath b actionID = None ->
  bucket_Attributes (env w) (calls w) (path_Join [actionDir; actionID]) = inr e ->
  is_NotFound (Some e) = false ->
  Snapshot2.Bucket_OutputIDFromAction b actionID w
  = (Ret ("", Some (Wrapf ("attribute for " +:+ actionID) e)),
     set_calls (calls w ++ [CallAttributes (path_Join [actionDir; actionID])]) w).
Proof.
  intros Hlink Hmark Hreply Hnf.
  unfold Snapshot2.Bucket_OutputIDFromAction.
  rewrite bind_eq, Disk_OutputIDFromAction_absent by done.
  rewrite decide_False by (by intros []). rewrite bind_eq.
  destruct (os_Stat_None _ _ Hmark) as [e' ->].
  rewrite bind_eq. unfold Bucket_Attributes. by rewrite Hreply, Hnf.
Qed.

(** The first snapshot keeps no marker: after a not-found the file system is
    as it was, and the lookup has called the bucket. *)
Lemma Snapshot1_lookup_keeps_no_marker b actionID w e :
  fs w !! actionPathname (disk b) actionID = None ->
  bucket_Attributes (env w) (calls w) (path_Join [actionDir; actionID]) = inr e ->
  is_NotFound (Some e) = true ->
  Snapshot1.Bucket_OutputIDFromAction b actionID w
  = (Ret ("", None),
     set_calls (calls w ++ [CallAttributes (path_Join [actionDir; actionID])]) w).
Proof.
  intros Hlink Hreply Hnf.
  unfold Snapshot1.Bucket_OutputIDFromAction.
  rewrite bind_eq, Disk_OutputIDFromAction_absent by done.
  rewrite decide_False by (by intros []). rewrite bind_eq.
  unfold Bucket_Attributes. by rewrite Hreply, Hnf.
Qed.

(** C2, on the first snapshot.  With no local link, a remote error that is
    not a not-found is neither returned nor turned into a miss: the lookup
    dereferences the [nil] attributes and panics. *)
Theorem Snapshot1_lookup_panics_on_remote_error b actionID w e :
  fs w !! actionPathname (disk b) actionID = None ->
  bucket_Attributes (env w) (calls w) (path_Join [actionDir; actionID]) = inr e ->
  is_NotFound (Some e) = false ->
  Snapshot1.Bucket_OutputIDFromAction b actionID w
  = (Panic "invalid memory address or nil pointer dereference",
     set_calls (calls w ++ [CallAttributes (path_Join [actionDir; actionID])]) w).
Proof.
  intros Hlink Hreply Hnf.
  unfold Snapshot1.Bucket_OutputIDFromAction.
  rewrite bind_eq, Disk_OutputIDFromAction_absent by done.
  rewrite decide_False by (by intros []). rewrite bind_eq.
  unfold Bucket_Attributes. by rewrite Hreply, Hnf.
Qed.

(** An instance: the bucket answers permission denied. *)
Lemma Snapshot1_lookup_panics_on_remote_error_witness :
  (Snapshot1.Bucket_OutputIDFromAction {| disk := example_disk |} "0a"
     (world_with_fault 9)).1
  = Panic "invalid memory address or nil pointer dereference".
Proof.
  rewrite (Snapshot1_lookup_panics_on_remote_error {| disk := example_disk |} "0a"
             (world_with_fault 9)
             (GcError PermissionDenied "blob: permission denied"));
    [reflexivity | vm_compute; reflexivity | reflexivity | reflexivity].
Defined.

(** ** The response to a get *)

(** C1.  When [Cacher.Get] gives no path, with or without an error, the
    response that is written has [Miss] set, and its [Err] is the text of the
    failed [os.Stat] of the empty path: the deferred inspection of the path
    runs on the empty path too. *)
Theorem get_without_path_response c req w err w1 :
  req_Command req = cmdGet ->
  Cacher_Get c req w = (Ret ("", err), w1) ->
  exists resp,
    handle c req w = (Ret tt, set_stdout (stdout w1 ++ [resp]) w1) /\
    resp_ID resp = req_ID req /\
    resp_Miss resp = true /\
    resp_Err resp = "stat : no such file or directory".
Proof.
  intros Hcmd Hget. unfold handle, handle_switch.
  rewrite Hcmd. rewrite decide_False by discriminate.
  rewrite decide_True by done. rewrite bind_eq, Hget.
  unfold handle_deferred. rewrite Hcmd.
  destruct err as [e|]; cbn; eexists; (split; [reflexivity|]); done.
Qed.

(** An instance: the link of the action is there, the blob is nowhere. *)
Lemma get_without_path_response_witness :
  req_Command get_0a = cmdGet /\
  Cacher_Get example_cacher get_0a world_dangling_link
  = (Ret ("", None), snd (Cacher_Get example_cacher get_0a world_dangling_link)) /\
  exists resp,
    handle example_cacher get_0a world_dangling_link
    = (Ret tt,
       set_stdout
         (stdout (snd (Cacher_Get example_cacher get_0a world_dangling_link)) ++ [resp])
         (snd (Cacher_Get example_cacher get_0a world_dangling_link))) /\
    resp_ID resp = req_ID get_0a /\
    resp_Miss resp = true /\
    resp_Err resp = "stat : no such file or directory".
Proof.
  split; [reflexivity|]. split; [vm_compute; reflexivity|].
  apply (get_without_path_response example_cacher get_0a world_dangling_link None);
    [reflexivity | vm_compute; reflexivity].
Defined.

(** A get for an action that is known nowhere: the lookup gives the empty
    output id, [Bucket.GetOutput] joins it to the path of the output
    directory, which exists, and the response carries that path, no [Miss]
    and an error text. *)
Example get_unknown_action_response :
  stdout (snd (handle example_cacher get_0a (example_world [])))
  = [ {| resp_ID := 7; resp_Err := "invalid output id"; resp_KnownCommands := [];
         resp_Miss := false; resp_OutputID := Some []; resp_Size := 4096;
         resp_TimeNanos := 0; resp_DiskPath := "/c/output" |} ].
Proof. vm_compute. reflexivity. Qed.

(** ** Framing of a put *)

Lemma read_request_shorter input req body rest :
  read_request input = Dispatch req body rest -> length rest < length input.
Proof.
  unfold read_request. intros H.
  repeat case_match; simplify_eq; cbn; lia.
Qed.

(** The loop never runs out of fuel: any two amounts above the length of the
    input give the same run. *)
Lemma serve_loop_fuel cacher n m input w :
  length input < n -> length input < m ->
  serve_loop n cacher input w = serve_loop m cacher input w.
Proof.
  revert m input w. induction n as [|n IH]; intros [|m] input w Hn Hm; try lia.
  cbn [serve_loop]. destruct (read_request input) as [| |req body rest] eqn:Hr; try done.
  apply read_request_shorter in Hr.
  rewrite !bind_eq.
  destruct (_ w) as [[req'|msg] w1]; [|done].
  rewrite !bind_eq. destruct (handle cacher req' w1) as [[[]|msg] w2]; [|done].
  apply IH; lia.
Qed.

Lemma serve_loop_S fuel cacher input w :
  serve_loop (S fuel) cacher input w =
  match read_request input with
  | Eof => (Ret None, w)
  | Fatal e => (Ret (Some e), w)
  | Dispatch req body rest =>
      (req ← match body with
             | Some buf => r ← new_reader {| s_data := buf; s_err := None |};
                           mret (set_Body r req)
             | None => mret req
             end;
       _ ← handle cacher req;
       serve_loop fuel cacher rest) w
  end.
Proof. cbn [serve_loop]. by destruct (read_request input). Qed.

(** C7.  A put request followed by a payload.  When the declared size and the
    payload's length differ, the session ends with an error, and what follows
    the payload plays no part in the run.  With a positive declared size the
    loop returns the length error at once, the world untouched.  When they
    agree, the request is dispatched with a reader that holds exactly the
    payload. *)
Theorem put_framing cacher r buf rest fuel w :
  req_Command r = cmdPut ->
  (Z.of_nat (length buf) <> req_BodySize r ->
     session_failed (serve_loop (S (S fuel)) cacher (JObject r :: JString buf :: rest) w).1 /\
     serve_loop (S (S fuel)) cacher (JObject r :: JString buf :: rest) w
     = serve_loop (S (S fuel)) cacher [JObject r; JString buf] w /\
     ((0 < req_BodySize r)%Z ->
        serve_loop (S (S fuel)) cacher (JObject r :: JString buf :: rest) w
        = (Ret (Some (ErrorString
                        ("incorrect length: " +:+ pretty (Z.of_nat (length buf))
                           +:+ " != " +:+ pretty (req_BodySize r)))), w))) /\
  (Z.of_nat (length buf) = req_BodySize r ->
     exists rest',
       read_request (JObject r :: JString buf :: rest)
       = Dispatch (framed r) (Some buf) rest' /\
       serve_loop (S (S fuel)) cacher (JObject r :: JString buf :: rest) w
       = (body ← new_reader {| s_data := buf; s_err := None |};
          _ ← handle cacher (set_Body body (framed r));
          serve_loop (S fuel) cacher rest') w).
Proof.
  intros Hcmd.
  assert (req_Command (framed r) = cmdPut) as Hcmd'.
  { unfold framed. by destruct (req_ObjectID r). }
  assert (req_BodySize (framed r) = req_BodySize r) as Hsize.
  { unfold framed. by destruct (req_ObjectID r). }
  assert (forall tl, read_request (JObject r :: tl)
            = if (0 <? req_BodySize r)%Z
              then match tl with
                   | [] => Fatal (Wrapf "decoding body" (ErrorString "EOF"))
                   | v' :: rest' =>
                       match decode_bytes v' with
                       | inr e => Fatal (Wrapf "decoding body" e)
                       | inl b =>
                           if decide (Z.of_nat (length b) <> req_BodySize r)
                           then Fatal (ErrorString
                                  ("incorrect length: " +:+ pretty (Z.of_nat (length b))
                                     +:+ " != " +:+ pretty (req_BodySize r)))
                           else Dispatch (framed r) (Some b) rest'
                       end
                   end
              else Dispatch (framed r) (Some []) tl) as Hread.
  { intros tl. unfold read_request, framed in *. cbn [decode_request].
    cbn [req_ObjectID set_Body].
    destruct (req_ObjectID r); cbn zeta; rewrite Hcmd', Hsize;
      by rewrite decide_True by done. }
  split.
  - intros Hne. rewrite !serve_loop_S, !Hread. cbn [decode_bytes].
    destruct (0 <? req_BodySize r)%Z eqn:Hpos.
    + rewrite !decide_True by done. split; [done|]. split; [done|]. done.
    + unfold_m. unfold new_reader. cbn beta iota zeta.
      destruct (handle cacher _ _) as [[[]|msg] w2];
        [|split; [done|]; split; [done|]; lia].
      rewrite !serve_loop_S. cbn. split; [done|]. split; [done|]. lia.
  - intros Heq. rewrite !serve_loop_S, !Hread. cbn [decode_bytes].
    destruct (0 <? req_BodySize r)%Z eqn:Hpos.
    + rewrite decide_False by (by intros []). eauto.
    + assert (buf = []) as ->.
      { destruct buf; [done|]. cbn [length] in Heq. lia. }
      eauto.
Qed.

(** An instance: a put that declares two bytes, followed by three. *)
Lemma put_framing_witness :
  req_Command put_bb = cmdPut /\
  Z.of_nat (length [Byte.x01; Byte.x02; Byte.x03]) <> req_BodySize put_bb /\
  serve_loop 3 example_cacher
    [JObject put_bb; JString [Byte.x01; Byte.x02; Byte.x03]; JObject get_0a] fresh_world
  = (Ret (Some (ErrorString "incorrect length: 3 != 2")), fresh_world).
Proof.
  split; [reflexivity|]. split; [discriminate|].
  destruct (put_framing example_cacher put_bb [Byte.x01; Byte.x02; Byte.x03]
              [JObject get_0a] 1 fresh_world eq_refl) as [H _].
  destruct H as (_ & _ & H); [discriminate|].
  apply H. reflexivity.
Defined.

(** ** Read-only mode *)

Lemma emits_silent {A} (m : M A) :
  (forall w, stdout (m w).2 = stdout w) ->
  (forall w l, m (set_stdout l w) = ((m w).1, set_stdout l (m w).2)) ->
  emits m.
Proof.
  intros H1 H2 w. exists []. rewrite !app_nil_r. split; [apply H1|].
  intros l. rewrite app_nil_r. apply H2.
Qed.

Lemma emits_ret {A} (a : A) : emits (mret a).
Proof. by apply emits_silent. Qed.

Lemma emits_panic {A} msg : emits (@panic A msg).
Proof. by apply emits_silent. Qed.

Lemma emits_bind {A B} (m : M A) (f : A -> M B) :
  emits m -> (forall a, emits (f a)) -> emits (m ≫= f).
Proof.
  intros Hm Hf w. destruct (Hm w) as (out1 & Hout1 & Hm').
  unfold mbind, M_bind.
  destruct (m w) as [[a|msg] w1] eqn:Hmw; cbn in *.
  - destruct (Hf a w1) as (out2 & Hout2 & Hf').
    exists (out1 ++ out2). split.
    + by rewrite Hout2, Hout1, app_assoc.
    + intros l. rewrite Hm', Hf'. by rewrite app_assoc.
  - exists out1. split; [done|]. intros l. by rewrite Hm'.
Qed.

Lemma emits_defer {A B} (cleanup : M B) (body : M A) :
  emits cleanup -> emits body -> emits (defer cleanup body).
Proof.
  intros Hc Hb w. destruct (Hb w) as (out1 & Hout1 & Hb').
  unfold defer.
  destruct (body w) as [o w1] eqn:Hbw; cbn in *.
  destruct (Hc w1) as (out2 & Hout2 & Hc').
  exists (out1 ++ out2).
  destruct (cleanup w1) as [o2 w2] eqn:Hcw; cbn in *. split.
  - by rewrite Hout2, Hout1, app_assoc.
  - intros l. rewrite Hb', Hc'. by rewrite app_assoc.
Qed.

Create HintDb emits discriminated.
#[local] Hint Resolve emits_ret emits_panic : emits.

Ltac emits_prim :=
  apply emits_silent; intros; unfold_m; cbn -[stat_node];
  repeat case_match; simplify_eq/=; reflexivity.

Lemma emits_consult : emits consult.
Proof. by apply emits_silent. Qed.
Lemma emits_os_Stat name : emits (os_Stat name).
Proof. unfold os_Stat. emits_prim. Qed.
Lemma emits_os_Readlink name : emits (os_Readlink name).
Proof. unfold os_Readlink. emits_prim. Qed.
Lemma emits_os_Symlink o n : emits (os_Symlink o n).
Proof. unfold os_Symlink. emits_prim. Qed.
Lemma emits_os_CreateTemp d p : emits (os_CreateTemp d p).
Proof. unfold os_CreateTemp. emits_prim. Qed.
Lemma emits_io_Copy f r : emits (io_Copy f r).
Proof. unfold io_Copy. emits_prim. Qed.
Lemma emits_File_Close f : emits (File_Close f).
Proof. unfold File_Close. emits_prim. Qed.
Lemma emits_os_Rename o n : emits (os_Rename o n).
Proof. unfold os_Rename. emits_prim. Qed.
Lemma emits_os_RemoveAll p : emits (os_RemoveAll p).
Proof. unfold os_RemoveAll. emits_prim. Qed.
Lemma emits_os_MkdirAll p : emits (os_MkdirAll p).
Proof. unfold os_MkdirAll. emits_prim. Qed.
Lemma emits_os_Open p : emits (os_Open p).
Proof. unfold os_Open. emits_prim. Qed.
Lemma emits_new_reader s : emits (new_reader s).
Proof. unfold new_reader. emits_prim. Qed.
Lemma emits_Bucket_Attributes k : emits (Bucket_Attributes k).
Proof. unfold Bucket_Attributes. emits_prim. Qed.
Lemma emits_Bucket_Upload k c m t : emits (Bucket_Upload k c m t).
Proof. unfold Bucket_Upload. emits_prim. Qed.
Lemma emits_Bucket_Download k : emits (Bucket_Download k).
Proof. unfold Bucket_Download. emits_prim. Qed.
Lemma emits_jobs_send p : emits (jobs_send p).
Proof. unfold jobs_send. emits_prim. Qed.
Lemma emits_Flush : emits Flush.
Proof. unfold Flush. emits_prim. Qed.
Lemma emits_Bucket_Start b : emits (Bucket_Start b).
Proof. unfold Bucket_Start. emits_prim. Qed.

Lemma emits_Encode resp : emits (Encode resp).
Proof. intros w. exists [resp]. split; [done|]. done. Qed.

#[local] Hint Resolve emits_consult emits_os_Stat emits_os_Readlink emits_os_Symlink
  emits_os_CreateTemp emits_io_Copy emits_File_Close emits_os_Rename
  emits_os_RemoveAll emits_os_MkdirAll emits_os_Open emits_new_reader
  emits_Bucket_Attributes emits_Bucket_Upload emits_Bucket_Download
  emits_jobs_send emits_Flush emits_Bucket_Start emits_Encode : emits.

Ltac emits_step :=
  first
    [ solve [eauto with emits]
    | apply emits_bind; [|intros ?]
    | apply emits_defer
    | match goal with
      | |- emits (match ?x with _ => _ end) => destruct x
      end ].

Ltac emits_auto := repeat emits_step.

Lemma emits_Disk_PutOutput d o r : emits (Disk_PutOutput d o r).
Proof. unfold Disk_PutOutput, File_Close_deferred. emits_auto. Qed.
Lemma emits_Disk_GetOutput d o : emits (Disk_GetOutput d o).
Proof. unfold Disk_GetOutput. emits_auto. Qed.
Lemma emits_Disk_OutputIDFromAction d a : emits (Disk_OutputIDFromAction d a).
Proof. unfold Disk_OutputIDFromAction. emits_auto. Qed.
#[local] Hint Resolve emits_Disk_PutOutput emits_Disk_GetOutput
  emits_Disk_OutputIDFromAction : emits.

Lemma emits_Bucket_PutOutput b o r : emits (Bucket_PutOutput b o r).
Proof. unfold Bucket_PutOutput. emits_auto. Qed.
Lemma emits_upload_jobs l : emits (upload_jobs l).
Proof. induction l; cbn [upload_jobs]; unfold upload_job; emits_auto. Qed.
#[local] Hint Resolve emits_Bucket_PutOutput emits_upload_jobs : emits.

Lemma emits_Bucket_Close b : emits (Bucket_Close b).
Proof.
  unfold Bucket_Close. apply emits_bind; [|eauto with emits]. unfold act. emits_prim.
Qed.
Lemma emits_Disk_LinkActionToOutput d a o :
  emits (Snapshot1.Disk_LinkActionToOutput d a o).
Proof. unfold Snapshot1.Disk_LinkActionToOutput. emits_auto. Qed.
#[local] Hint Resolve emits_Bucket_Close emits_Disk_LinkActionToOutput : emits.

Lemma emits_Bucket_OutputIDFromAction b a :
  emits (Snapshot1.Bucket_OutputIDFromAction b a).
Proof. unfold Snapshot1.Bucket_OutputIDFromAction. emits_auto. Qed.
Lemma emits_Bucket_LinkActionToOutput b a o :
  emits (Snapshot1.Bucket_LinkActionToOutput b a o).
Proof. unfold Snapshot1.Bucket_LinkActionToOutput. emits_auto. Qed.
Lemma emits_Bucket_GetOutput b o : emits (Snapshot1.Bucket_GetOutput b o).
Proof. unfold Snapshot1.Bucket_GetOutput. emits_auto. Qed.
#[local] Hint Resolve emits_Bucket_OutputIDFromAction emits_Bucket_LinkActionToOutput
  emits_Bucket_GetOutput : emits.

Lemma emits_Cacher_Get c req : emits (Cacher_Get c req).
Proof. unfold Cacher_Get, flight_Do. emits_auto. Qed.
Lemma emits_Cacher_Put c req : emits (Cacher_Put c req).
Proof. unfold Cacher_Put, flight_Do. emits_auto. Qed.
#[local] Hint Resolve emits_Cacher_Get emits_Cacher_Put : emits.

Lemma emits_handle_switch c req resp : emits (handle_switch c req resp).
Proof. unfold handle_switch. emits_auto. Qed.
Lemma emits_handle_deferred req resp : emits (handle_deferred req resp).
Proof. unfold handle_deferred. emits_auto. Qed.
#[local] Hint Resolve emits_handle_switch emits_handle_deferred : emits.

Lemma emits_handle c req : emits (handle c req).
Proof.
  intros w. unfold handle.
  destruct (emits_handle_switch c req (new_response (req_ID req)) w)
    as (out1 & Hout1 & Hs).
  destruct (handle_switch c req (new_response (req_ID req)) w)
    as [[resp'|msg] w1] eqn:Hsw; cbn in Hout1, Hs.
  - destruct (emits_handle_deferred req resp' w1) as (out2 & Hout2 & Hd).
    exists (out1 ++ out2). split.
    + by rewrite Hout2, Hout1, app_assoc.
    + intros l. rewrite Hs, Hd. by rewrite app_assoc.
  - destruct (emits_handle_deferred req (new_response (req_ID req)) w1)
      as (out2 & Hout2 & Hd).
    exists (out1 ++ out2).
    destruct (handle_deferred req (new_response (req_ID req)) w1) as [o2 w2] eqn:Hdw.
    cbn in *. split.
    + by rewrite Hout2, Hout1, app_assoc.
    + intros l. rewrite Hs, Hd. by rewrite app_assoc.
Qed.
#[local] Hint Resolve emits_handle : emits.

Lemma emits_serve_loop fuel c input : emits (serve_loop fuel c input).
Proof.
  revert input. induction fuel as [|fuel IH]; intros input; cbn [serve_loop];
    emits_auto.
Qed.

Lemma os_MkdirAll_stdout path w : stdout (os_MkdirAll path w).2 = stdout w.
Proof.
  unfold os_MkdirAll. unfold_m. cbn -[stat_node].
  repeat case_match; simplify_eq/=; reflexivity.
Qed.

Lemma run_setup_stdout d w : stdout (run_setup d w).2 = stdout w.
Proof.
  unfold run_setup. rewrite bind_eq. cbn [Bucket_Start]. rewrite bind_eq.
  set (w0 := set_jobs_closed false (set_jobs [] w)).
  pose proof (os_MkdirAll_stdout (filepath_Join [cacheDir d; actionDir]) w0) as H1.
  destruct (os_MkdirAll _ w0) as [[[e|]|msg] w1]; [done| |done].
  rewrite bind_eq.
  pose proof (os_MkdirAll_stdout (filepath_Join [cacheDir d; outputDir]) w1) as H2.
  destruct (os_MkdirAll _ w1) as [[[e|]|msg] w2]; cbn in *; congruence.
Qed.

Lemma run_eq userCacheDir readonly input w :
  let d := {| cacheDir := filepath_Join [userCacheDir; ".gocachebucket"] |} in
  run userCacheDir readonly input w =
  match run_setup d w with
  | (Ret None, w1) =>
      let w2 := set_tick (S (tick w1)) (set_stdout (stdout w1 ++ [handshake readonly]) w1) in
      match os_fault (env w1) (tick w1) with
      | Some en => (Ret (Some (PathError "write" "/dev/stdout" en)), w2)
      | None => serve {| c_disk := d; c_bucket := {| disk := d |} |} input w2
      end
  | (Ret (Some e), w1) => (Ret (Some e), w1)
  | (Panic msg, w1) => (Panic msg, w1)
  end.
Proof.
  intros d. unfold run, run_setup. fold d. rewrite !bind_eq.
  destruct (Bucket_Start _ w) as [[[]|msg] w0]; [|done].
  rewrite !bind_eq.
  destruct (os_MkdirAll _ w0) as [[[e|]|msg] w1]; [done| |done].
  rewrite !bind_eq.
  destruct (os_MkdirAll _ w1) as [[[e|]|msg] w2]; [done| |done].
  unfold Encode, Flush. unfold_m. cbn.
  by destruct (os_fault (env w2) (tick w2)).
Qed.

(** C8, as the code has it.  In read-only mode the handshake lists [close] and
    [get] and not [put].  Nothing else depends on the mode: a session in
    read-only mode and the same session in read-write mode end the same way,
    in worlds that differ in the handshake alone; in particular a put that
    is sent in read-only mode is carried out as in read-write mode. *)
Theorem readonly_changes_the_handshake_only userCacheDir input w :
  resp_KnownCommands (handshake true) = [cmdClose; cmdGet] /\
  (run userCacheDir true input w).1 = (run userCacheDir false input w).1 /\
  let w_ro := (run userCacheDir true input w).2 in
  let w_rw := (run userCacheDir false input w).2 in
  fs w_ro = fs w_rw /\ calls w_ro = calls w_rw /\ jobs w_ro = jobs w_rw /\
  jobs_closed w_ro = jobs_closed w_rw /\ readers w_ro = readers w_rw /\
  ((stdout w_ro = stdout w /\ stdout w_rw = stdout w) \/
   exists rest, stdout w_ro = stdout w ++ handshake true :: rest /\
                stdout w_rw = stdout w ++ handshake false :: rest).
Proof.
  split; [done|]. rewrite !run_eq.
  set (d := {| cacheDir := filepath_Join [userCacheDir; ".gocachebucket"] |}).
  pose proof (run_setup_stdout d w) as Hout.
  destruct (run_setup d w) as [[[e|]|msg] w1]; cbn in Hout;
    [by repeat split; auto| |by repeat split; auto].
  destruct (os_fault (env w1) (tick w1)) as [en|].
  { cbn. rewrite Hout. repeat split; try done. right. by exists []. }
  set (c := {| c_disk := d; c_bucket := {| disk := d |} |}).
  destruct (emits_serve_loop (S (length input)) c input (set_tick (S (tick w1)) w1))
    as (out & _ & Hserve).
  unfold serve.
  change (set_tick (S (tick w1)) (set_stdout ?l w1))
    with (set_stdout l (set_tick (S (tick w1)) w1)).
  rewrite !Hserve. cbn. rewrite Hout.
  repeat split; try done. right. exists out. by rewrite <- !app_assoc.
Qed.

(** C8, as the claim has it, fails: a put sent in read-only mode is not
    rejected.  Its response carries the path and no error, the blob is on
    disk, its upload is queued and the action object has been uploaded to the
    bucket. *)
Lemma readonly_put_is_carried_out :
  let w' := (run "/c" true [JObject put_bb; JString [Byte.x01; Byte.x02]] fresh_world).2 in
  stdout w' !! 0%nat = Some (handshake true) /\
  stdout w' !! 1%nat
  = Some {| resp_ID := 1; resp_Err := ""; resp_KnownCommands := [];
            resp_Miss := false; resp_OutputID := Some [Byte.xbb]; resp_Size := 2;
            resp_TimeNanos := 4; resp_DiskPath := "/c/.gocachebucket/output/bb" |} /\
  fs w' !! "/c/.gocachebucket/output/bb" = Some (File [Byte.x01; Byte.x02] 4) /\
  jobs w' = ["/c/.gocachebucket/output/bb"] /\
  calls w' = [CallUpload "action/0a" [] {[ "output_id" := "bb" ]} "plain/text"].
Proof. vm_compute. repeat split. Qed.

(** ** Path elements and identifiers in hexadecimal *)

Lemma list_ascii_of_string_app (a b : string) :
  list_ascii_of_string (a +:+ b) = list_ascii_of_string a ++ list_ascii_of_string b.
Proof.
  induction a as [|c a IH]; [done|].
  change (c :: list_ascii_of_string (a +:+ b)
          = c :: (list_ascii_of_string a ++ list_ascii_of_string b)).
  by rewrite IH.
Qed.

Lemma string_app_assoc (a b c : string) : (a +:+ b) +:+ c = a +:+ b +:+ c.
Proof.
  induction a as [|x a IH]; [done|].
  change (String x ((a +:+ b) +:+ c) = String x (a +:+ b +:+ c)). by rewrite IH.
Qed.

Lemma drop_while_head {A} (p : A -> bool) x l :
  p x = false -> drop_while p (x :: l) = x :: l.
Proof. cbn. by intros ->. Qed.

Lemma take_while_app_stop {A} (p : A -> bool) l x l' :
  (forall y, y ∈ l -> p y = true) -> p x = false ->
  take_while p (l ++ x :: l') = l.
Proof.
  intros Hl Hx. induction l as [|y l IH]; cbn.
  - by rewrite Hx.
  - rewrite (Hl y) by left. f_equal. apply IH. intros z Hz. apply Hl. by right.
Qed.

Lemma is_sep_false c : c <> "/"%char -> is_sep c = false.
Proof. intros H. unfold is_sep. by apply Ascii.eqb_neq. Qed.

Lemma plain_element_inv s :
  plain_element s = true -> s <> "" /\ "/"%char ∉ list_ascii_of_string s.
Proof.
  unfold plain_element. rewrite !andb_true_iff, !negb_true_iff.
  intros [[[H1 _] _] H4]. split.
  - intros ->. discriminate H1.
  - intros Hin%list_elem_of_In. rewrite forallb_forall in H4.
    apply H4 in Hin. discriminate Hin.
Qed.

Lemma filepath_Base_last (p o : string) :
  plain_element o = true -> filepath_Base (p +:+ "/" +:+ o) = o.
Proof.
  intros [Hne Hsep]%plain_element_inv. unfold filepath_Base.
  destruct (p +:+ "/" +:+ o) as [|c s] eqn:Heq.
  { apply (f_equal String.length) in Heq. rewrite !string_length_app in Heq.
    cbn in Heq. lia. }
  rewrite <- Heq. clear Heq c s.
  rewrite !list_ascii_of_string_app, !rev_app_distr. cbn [list_ascii_of_string rev app].
  rewrite <- !app_assoc. cbn [app].
  destruct (rev (list_ascii_of_string o)) as [|c l] eqn:Hrev.
  { apply (f_equal (@rev _)) in Hrev. rewrite rev_involutive in Hrev. cbn in Hrev.
    destruct o; [done | discriminate]. }
  assert (forall y, y ∈ c :: l -> y <> "/"%char) as Hall.
  { intros y Hy ->. apply Hsep. apply list_elem_of_In, in_rev. rewrite Hrev.
    by apply list_elem_of_In. }
  cbn [app]. rewrite drop_while_head by (apply is_sep_false, Hall; left).
  change (c :: l ++ "/"%char :: rev (list_ascii_of_string p))
    with ((c :: l) ++ "/"%char :: rev (list_ascii_of_string p)).
  rewrite take_while_app_stop.
  - change (rev l ++ [c]) with (rev (c :: l)).
    rewrite <- Hrev, rev_involutive. apply string_of_list_ascii_of_string.
  - intros y Hy. rewrite is_sep_false; [done|]. by apply Hall.
  - done.
Qed.

Lemma filepath_Join_last (a b o : string) :
  b <> "" -> o <> "" ->
  filepath_Join [a; b; o] = filepath_Join [a; b] +:+ "/" +:+ o.
Proof.
  intros Hb Ho. unfold filepath_Join.
  destruct a as [|c a], b as [|c' b], o as [|c'' o]; try done; cbn;
    repeat case_decide; try done; cbn.
  by rewrite !string_app_assoc.
Qed.

Lemma outputPathname_Base d o :
  plain_element o = true -> filepath_Base (outputPathname d o) = o.
Proof.
  intros Ho. pose proof (plain_element_inv _ Ho) as [Hne _]. unfold outputPathname.
  rewrite filepath_Join_last by done. by apply filepath_Base_last.
Qed.

Lemma link_target_Base o :
  plain_element o = true -> filepath_Base (link_target o) = o.
Proof.
  intros Ho. pose proof (plain_element_inv _ Ho) as [Hne _]. unfold link_target.
  rewrite filepath_Join_last by done. by apply filepath_Base_last.
Qed.

Lemma action_not_output d a o : actionPathname d a <> outputPathname d o.
Proof.
  unfold actionPathname, outputPathname, filepath_Join, actionDir, outputDir.
  destruct (cacheDir d) as [|c cd], a as [|x a], o as [|y o]; cbn;
    repeat case_decide; try done; cbn; intros Heq; try discriminate Heq;
    injection Heq as Heq; apply (inj (String.app cd)) in Heq; discriminate Heq.
Qed.

Lemma hex_EncodeToString_cons b bs :
  hex_EncodeToString (b :: bs)
  = String (hexchar (Byte.to_N b / 16))
      (String (hexchar (Byte.to_N b mod 16)) (hex_EncodeToString bs)).
Proof. reflexivity. Qed.

(** The two digits of a byte decode to the byte, and are neither a slash nor
    a dot. *)
Lemma hex_byte (b : Byte.byte) :
  let h := hexchar (Byte.to_N b / 16) in
  let l := hexchar (Byte.to_N b mod 16) in
  (exists x y, fromHexChar h = Some x /\ fromHexChar l = Some y /\ byte_of_nibbles x y = b) /\
  is_sep h = false /\ is_sep l = false /\ Ascii.eqb h "." = false.
Proof. destruct b; vm_compute; (split; [eexists _, _|]); repeat split; discriminate. Qed.

Lemma hex_round_trip bs : hex_DecodeString (hex_EncodeToString bs) = (bs, None).
Proof.
  induction bs as [|b bs IH]; [done|].
  rewrite hex_EncodeToString_cons. cbn [hex_DecodeString].
  destruct (hex_byte b) as [(x & y & -> & -> & Hb) _]. by rewrite IH, Hb.
Qed.

Lemma hex_no_sep bs :
  forallb (fun c => negb (is_sep c)) (list_ascii_of_string (hex_EncodeToString bs)) = true.
Proof.
  induction bs as [|b bs IH]; [done|].
  rewrite hex_EncodeToString_cons. cbn [list_ascii_of_string forallb].
  destruct (hex_byte b) as (_ & -> & -> & _). by rewrite IH.
Qed.

Lemma hex_plain bs : bs <> [] -> plain_element (hex_EncodeToString bs) = true.
Proof.
  intros Hne. destruct bs as [|b bs]; [done|]. unfold plain_element.
  rewrite hex_no_sep, hex_EncodeToString_cons. cbn [String.eqb].
  destruct (hex_byte b) as (_ & _ & _ & ->). done.
Qed.

(** A node added at a path that named nothing does not change what a
    successful [os.Stat] finds. *)
Lemma stat_node_insert fuel (m : gmap string node) k nd name fi :
  m !! k = None ->
  stat_node fuel m name = inl fi ->
  stat_node fuel (<[k := nd]> m) name = inl fi.
Proof.
  intros Hk. revert name. induction fuel as [|fuel IH]; intros name; cbn.
  - destruct (decide (name = k)) as [->|Hne].
    + by rewrite Hk.
    + by rewrite lookup_insert_ne.
  - destruct (decide (name = k)) as [->|Hne].
    + by rewrite Hk.
    + rewrite lookup_insert_ne by done.
      destruct (m !! name) as [[| |target]|]; try done. apply IH.
Qed.

Lemma os_Stat_ok_inv name w fi :
  os_Stat name w = (Ret (fi, None), w) ->
  name <> "" /\ stat_node 40 (fs w) name = inl fi.
Proof.
  unfold os_Stat. intros H. case_decide; [done|].
  destruct (stat_node 40 (fs w) name); by simplify_eq.
Qed.

Lemma os_Stat_ok name w fi :
  name <> "" -> stat_node 40 (fs w) name = inl fi ->
  os_Stat name w = (Ret (fi, None), w).
Proof. intros Hne H. unfold os_Stat. rewrite decide_False by done. by rewrite H. Qed.

(** ** What a computation leaves alone *)

#[global] Instance OutOfReach_stdout : OutOfReach stdout.
Proof. by split. Qed.
#[global] Instance OutOfReach_jobs : OutOfReach jobs.
Proof. by split. Qed.
#[global] Instance OutOfReach_jobs_closed : OutOfReach jobs_closed.
Proof. by split. Qed.
#[global] Instance OutOfReach_uploads : OutOfReach uploads.
Proof.
  split; try done. intros c w Hc. unfold uploads. cbn.
  rewrite filter_app, filter_cons_False; [by rewrite filter_nil, app_nil_r|].
  rewrite Hc. intros H. exact H.
Qed.

Section keeps.
Context {B : Type} (proj : World -> B).

Lemma keeps_ret {A} (a : A) : keeps proj (mret a).
Proof. by intros w. Qed.

Lemma keeps_panic {A} msg : keeps proj (@panic A msg).
Proof. by intros w. Qed.

Lemma keeps_bind {A C} (m : M A) (f : A -> M C) :
  keeps proj m -> (forall a, keeps proj (f a)) -> keeps proj (m ≫= f).
Proof.
  intros Hm Hf w. unfold mbind, M_bind. specialize (Hm w).
  destruct (m w) as [[a|msg] w1]; cbn in *; [|done].
  by rewrite Hf.
Qed.

Lemma keeps_defer {A C} (cleanup : M C) (body : M A) :
  keeps proj cleanup -> keeps proj body -> keeps proj (defer cleanup body).
Proof.
  intros Hc Hb w. unfold defer. specialize (Hb w).
  destruct (body w) as [o w1]. specialize (Hc w1).
  destruct (cleanup w1) as [o2 w2]. cbn in *. congruence.
Qed.

Context `{!OutOfReach proj}.

Ltac keeps_body :=
  intros w; unfold act; cbn -[stat_node];
  repeat case_match; simplify_eq/=;
  rewrite ?reach_readers, ?reach_fs, ?reach_tick; done.

Lemma keeps_consult : keeps proj consult.
Proof. intros w. apply reach_tick. Qed.
Lemma keeps_os_Stat name : keeps proj (os_Stat name).
Proof. unfold os_Stat. keeps_body. Qed.
Lemma keeps_os_Readlink name : keeps proj (os_Readlink name).
Proof. unfold os_Readlink. keeps_body. Qed.
Lemma keeps_os_Symlink o n : keeps proj (os_Symlink o n).
Proof.
  unfold os_Symlink. apply keeps_bind; [apply keeps_consult|]. intros [[f ?] ?]. keeps_body.
Qed.
Lemma keeps_os_CreateTemp d p : keeps proj (os_CreateTemp d p).
Proof.
  unfold os_CreateTemp. apply keeps_bind; [apply keeps_consult|]. intros [[f ?] ?].
  keeps_body.
Qed.
Lemma keeps_io_Copy f r : keeps proj (io_Copy f r).
Proof.
  unfold io_Copy. apply keeps_bind; [apply keeps_consult|]. intros [[? ?] ?].
  keeps_body.
Qed.
Lemma keeps_File_Close f : keeps proj (File_Close f).
Proof.
  unfold File_Close. apply keeps_bind; [apply keeps_consult|]. intros [[? ?] ?].
  apply keeps_ret.
Qed.
Lemma keeps_os_Rename o n : keeps proj (os_Rename o n).
Proof.
  unfold os_Rename. apply keeps_bind; [apply keeps_consult|]. intros [[? ?] ?].
  keeps_body.
Qed.
Lemma keeps_os_RemoveAll p : keeps proj (os_RemoveAll p).
Proof. unfold os_RemoveAll. keeps_body. Qed.
Lemma keeps_os_Open p : keeps proj (os_Open p).
Proof. unfold os_Open. keeps_body. Qed.
Lemma keeps_new_reader s : keeps proj (new_reader s).
Proof. unfold new_reader. keeps_body. Qed.
Lemma keeps_Bucket_Attributes k : keeps proj (Bucket_Attributes k).
Proof. intros w. by apply reach_query. Qed.
Lemma keeps_Bucket_Download k : keeps proj (Bucket_Download k).
Proof. intros w. by apply reach_query. Qed.

End keeps.

Create HintDb keeps discriminated.
#[local] Hint Resolve keeps_consult keeps_os_Stat keeps_os_Readlink keeps_os_Symlink
  keeps_os_CreateTemp keeps_io_Copy keeps_File_Close keeps_os_Rename keeps_os_RemoveAll
  keeps_os_Open keeps_new_reader keeps_Bucket_Attributes keeps_Bucket_Download : keeps.

Ltac keeps_step :=
  lazymatch goal with
  | |- keeps _ (mret _) => apply keeps_ret
  | |- keeps _ (panic _) => apply keeps_panic
  | |- keeps _ (_ ≫= _) => apply keeps_bind; [|intros ?]
  | |- keeps _ (defer _ _) => apply keeps_defer
  | |- keeps _ (match ?x with _ => _ end) => destruct x
  | |- keeps _ _ => solve [eauto with keeps typeclass_instances]
  end.

Ltac keeps_auto := repeat keeps_step.

Section tiers.
Context {B : Type} (proj : World -> B) `{!OutOfReach proj}.

Lemma keeps_Disk_PutOutput d o r : keeps proj (Disk_PutOutput d o r).
Proof. unfold Disk_PutOutput, File_Close_deferred. keeps_auto. Qed.
Lemma keeps_Disk_OutputIDFromAction d a : keeps proj (Disk_OutputIDFromAction d a).
Proof. unfold Disk_OutputIDFromAction. keeps_auto. Qed.
Hint Resolve keeps_Disk_PutOutput keeps_Disk_OutputIDFromAction : keeps.

Lemma keeps_Snapshot1_lookup b a : keeps proj (Snapshot1.Bucket_OutputIDFromAction b a).
Proof. unfold Snapshot1.Bucket_OutputIDFromAction. keeps_auto. Qed.
Lemma keeps_Snapshot1_GetOutput b o : keeps proj (Snapshot1.Bucket_GetOutput b o).
Proof. unfold Snapshot1.Bucket_GetOutput, Disk_GetOutput. keeps_auto. Qed.
Hint Resolve keeps_Snapshot1_lookup keeps_Snapshot1_GetOutput : keeps.

Lemma keeps_Cacher_Get c req : keeps proj (Cacher_Get c req).
Proof. unfold Cacher_Get, flight_Do. keeps_auto. Qed.

End tiers.

Lemma keeps_stdout_Bucket_Upload k c m t : keeps stdout (Bucket_Upload k c m t).
Proof. by intros w. Qed.
Lemma keeps_stdout_jobs_send p : keeps stdout (jobs_send p).
Proof. intros w. unfold jobs_send. by case_match. Qed.
#[local] Hint Resolve keeps_stdout_Bucket_Upload keeps_stdout_jobs_send : keeps.

Lemma keeps_stdout_upload_jobs l : keeps stdout (upload_jobs l).
Proof. induction l; cbn [upload_jobs]; unfold upload_job; keeps_auto. Qed.
#[local] Hint Resolve keeps_stdout_upload_jobs : keeps.

Lemma keeps_stdout_Bucket_Close b : keeps stdout (Bucket_Close b).
Proof.
  unfold Bucket_Close. apply keeps_bind; [|auto with keeps].
  intros w. unfold act. by case_match.
Qed.

Lemma keeps_stdout_Cacher_Put c req : keeps stdout (Cacher_Put c req).
Proof.
  pose proof (@keeps_Disk_PutOutput _ stdout _).
  unfold Cacher_Put, flight_Do, Bucket_PutOutput, Bucket_LinkActionToOutput,
    Disk_LinkActionToOutput.
  keeps_auto.
Qed.

Lemma keeps_stdout_handle_switch c req resp : keeps stdout (handle_switch c req resp).
Proof.
  pose proof keeps_stdout_Bucket_Close. pose proof keeps_stdout_Cacher_Put.
  pose proof (@keeps_Cacher_Get _ stdout _).
  unfold handle_switch. keeps_auto.
Qed.

(** ** One response for every request *)

Lemma handle_switch_ID c req resp w resp' w1 :
  handle_switch c req resp w = (Ret resp', w1) -> resp_ID resp' = resp_ID resp.
Proof.
  unfold handle_switch. intros H. repeat case_decide; rewrite ?bind_eq in H.
  - destruct (Bucket_Close _ w) as [[[]|?] ?]; unfold_m; by simplify_eq.
  - destruct (Cacher_Get c req w) as [[[p [e|]]|?] ?]; unfold_m; simplify_eq/=;
      by case_decide.
  - destruct (Cacher_Put c req w) as [[[p [e|]]|?] ?]; unfold_m; by simplify_eq/=.
  - unfold_m. by simplify_eq.
Qed.

Lemma handle_deferred_writes req resp w :
  exists resp', handle_deferred req resp w = (Ret tt, set_stdout (stdout w ++ [resp']) w) /\
                resp_ID resp' = resp_ID resp.
Proof.
  unfold handle_deferred. case_decide; rewrite bind_eq.
  - rewrite bind_eq. destruct (os_Stat (resp_DiskPath resp) w) as [o w'] eqn:Hst.
    apply os_Stat_inv in Hst as [-> [[fi ->]|[e ->]]].
    + destruct (hex_DecodeString _) as [oid [e|]]; cbn; eauto.
    + cbn. eauto.
  - cbn. eauto.
Qed.

(** X1.  A handler that runs to its end writes one response and no more,
    under the [ID] of its request, also when its switch panics: the deferred
    function is the only place where it writes.  (Nothing waits for a
    handler: one that is still running when [run] returns has written no
    response, and its request stays unanswered.) *)
Theorem finished_handler_writes_one_response c req w :
  exists resp,
    stdout (handle c req w).2 = stdout w ++ [resp] /\ resp_ID resp = req_ID req.
Proof.
  unfold handle.
  pose proof (keeps_stdout_handle_switch c req (new_response (req_ID req)) w) as Hout.
  destruct (handle_switch c req (new_response (req_ID req)) w) as [[resp'|msg] w1] eqn:Hsw;
    cbn in Hout.
  - destruct (handle_deferred_writes req resp' w1) as (r & -> & Hid).
    exists r. cbn. rewrite Hout. split; [done|].
    rewrite Hid. by rewrite (handle_switch_ID _ _ _ _ _ _ Hsw).
  - destruct (handle_deferred_writes req (new_response (req_ID req)) w1) as (r & -> & Hid).
    exists r. cbn. by rewrite Hout.
Qed.

(** ** What a get leaves alone *)

(** X2.  A get sends no job, closes nothing, writes no response and uploads
    nothing: the calls it makes to the bucket are queries and downloads. *)
Theorem Cacher_Get_uploads_nothing c req w :
  jobs (Cacher_Get c req w).2 = jobs w /\
  jobs_closed (Cacher_Get c req w).2 = jobs_closed w /\
  uploads (Cacher_Get c req w).2 = uploads w /\
  stdout (Cacher_Get c req w).2 = stdout w.
Proof. split_and!; by apply keeps_Cacher_Get, _. Qed.

(** ** Linking an action to an output *)

Lemma os_Symlink_eq oldname newname w :
  os_Symlink oldname newname w =
  let w' := set_tick (S (tick w)) w in
  match fs w !! newname with
  | Some _ => (Ret (Some (LinkError "symlink" oldname newname EEXIST)), w')
  | None =>
      match os_fault (env w) (tick w) with
      | Some en => (Ret (Some (LinkError "symlink" oldname newname en)), w')
      | None => (Ret None, set_fs (<[newname := Symlink oldname]> (fs w)) w')
      end
  end.
Proof. unfold os_Symlink. unfold_m. cbn. by repeat case_match. Qed.

Lemma Snapshot1_Disk_LinkActionToOutput_eq d a o w :
  Snapshot1.Disk_LinkActionToOutput d a o w =
  let w' := set_tick (S (tick w)) w in
  match fs w !! actionPathname d a with
  | Some _ => (Ret None, w')
  | None =>
      match os_fault (env w) (tick w) with
      | Some EEXIST => (Ret None, w')
      | Some en => (Ret (Some (LinkError "symlink" (link_target o) (actionPathname d a) en)), w')
      | None => (Ret None, set_fs (<[actionPathname d a := Symlink (link_target o)]> (fs w)) w')
      end
  end.
Proof.
  unfold Snapshot1.Disk_LinkActionToOutput. rewrite bind_eq, os_Symlink_eq. cbn zeta.
  destruct (fs w !! actionPathname d a); [done|].
  by destruct (os_fault (env w) (tick w)) as [[]|].
Qed.

Lemma Snapshot2_Disk_LinkActionToOutput_eq d a o w :
  Snapshot2.Disk_LinkActionToOutput d a o w =
  let w' := set_tick (S (tick w)) w in
  match fs w !! actionPathname d a with
  | Some _ => (Ret (true, None), w')
  | None =>
      match os_fault (env w) (tick w) with
      | Some EEXIST => (Ret (true, None), w')
      | Some en =>
          (Ret (false, Some (LinkError "symlink" (link_target o) (actionPathname d a) en)), w')
      | None =>
          (Ret (false, None),
           set_fs (<[actionPathname d a := Symlink (link_target o)]> (fs w)) w')
      end
  end.
Proof.
  unfold Snapshot2.Disk_LinkActionToOutput. rewrite bind_eq, os_Symlink_eq. cbn zeta.
  destruct (fs w !! actionPathname d a); [done|].
  by destruct (os_fault (env w) (tick w)) as [[]|].
Qed.

Lemma Snapshot1_Bucket_LinkActionToOutput_eq b a o w :
  Snapshot1.Bucket_LinkActionToOutput b a o w =
  let wu := set_calls (calls w ++ [action_call a o]) w in
  match bucket_Upload (env w) (calls w) (path_Join [actionDir; a]) []
          {[ "output_id" := o ]} "plain/text" with
  | Some e => (Ret (Some e), wu)
  | None => Snapshot1.Disk_LinkActionToOutput (disk b) a o wu
  end.
Proof.
  unfold Snapshot1.Bucket_LinkActionToOutput. rewrite bind_eq. unfold Bucket_Upload.
  by destruct (bucket_Upload _ _ _ _ _ _).
Qed.

Lemma Snapshot2_Bucket_LinkActionToOutput_eq b a o w :
  Snapshot2.Bucket_LinkActionToOutput b a o w =
  match Snapshot2.Disk_LinkActionToOutput (disk b) a o w with
  | (Ret (false, None), wl) =>
      (Ret (false, bucket_Upload (env wl) (calls wl) (path_Join [actionDir; a]) []
                     {[ "output_id" := o ]} "plain/text"),
       set_calls (calls wl ++ [action_call a o]) wl)
  | (Ret (ex, err), wl) => (Ret (ex, err), wl)
  | (Panic msg, wl) => (Panic msg, wl)
  end.
Proof.
  unfold Snapshot2.Bucket_LinkActionToOutput. rewrite bind_eq.
  destruct (Snapshot2.Disk_LinkActionToOutput (disk b) a o w) as [[[[] [e|]]|msg] wl];
    try done.
Qed.

(** X3.  First snapshot, [Bucket.LinkActionToOutput] (lines 130-140).  The
    action object is uploaded first, whatever the local state.  No path but
    the action's own changes.  When the upload fails, its error is returned
    and no link is made.  An entry that is already at the action's path is
    never replaced and is no error: the call then returns what the upload
    returned, so relinking an action to another output changes the mapping in
    the bucket and not the local one.  The file system changes only by the
    new link, after a successful upload. *)
Theorem Snapshot1_link_follows_upload b a o w r w1 :
  Snapshot1.Bucket_LinkActionToOutput b a o w = (r, w1) ->
  let uerr := bucket_Upload (env w) (calls w) (path_Join [actionDir; a]) []
                {[ "output_id" := o ]} "plain/text" in
  calls w1 = calls w ++ [action_call a o] /\
  (forall path, path <> actionPathname (disk b) a -> fs w1 !! path = fs w !! path) /\
  (forall e, uerr = Some e -> r = Ret (Some e) /\ fs w1 = fs w) /\
  (forall nd, fs w !! actionPathname (disk b) a = Some nd -> r = Ret uerr /\ fs w1 = fs w) /\
  (fs w1 <> fs w ->
     r = Ret None /\ uerr = None /\ fs w !! actionPathname (disk b) a = None /\
     fs w1 = <[actionPathname (disk b) a := Symlink (link_target o)]> (fs w)).
Proof.
  rewrite Snapshot1_Bucket_LinkActionToOutput_eq. cbn zeta.
  destruct (bucket_Upload _ _ _ _ _ _) as [e|] eqn:Hup.
  { intros [= <- <-]. cbn. split_and!; try done. by intros e' [= <-]. }
  rewrite Snapshot1_Disk_LinkActionToOutput_eq. cbn -[actionPathname].
  destruct (fs w !! actionPathname (disk b) a) as [nd|] eqn:Hnd.
  { intros [= <- <-]. cbn. split_and!; try done. }
  destruct (os_fault (env w) (tick w)) as [en|].
  - intros H.
    assert (exists err, r = Ret err /\ w1 = set_tick (S (tick w))
              (set_calls (calls w ++ [action_call a o]) w)) as (err & -> & ->).
    { destruct en; simplify_eq/=; eauto. }
    cbn. split_and!; try done.
  - intros [= <- <-]. cbn. split_and!; try done.
    intros path Hp. by rewrite lookup_insert_ne.
Qed.

(** An instance: the action [0a] is linked to the output [cc] and is linked
    again to [bb].  The bucket is told [bb]; the link stays as it is, and no
    error is returned. *)
Lemma Snapshot1_link_follows_upload_witness :
  let b := {| disk := example_disk |} in
  let w := example_world [("/c/action/0a", Symlink "../output/cc")] in
  (Snapshot1.Bucket_LinkActionToOutput b "0a" "bb" w).1 = Ret None /\
  fs (Snapshot1.Bucket_LinkActionToOutput b "0a" "bb" w).2 = fs w /\
  calls (Snapshot1.Bucket_LinkActionToOutput b "0a" "bb" w).2 = [action_call "0a" "bb"].
Proof.
  cbv zeta.
  destruct (Snapshot1_link_follows_upload {| disk := example_disk |} "0a" "bb"
              (example_world [("/c/action/0a", Symlink "../output/cc")]) _ _
              (surjective_pairing _))
    as (Hcalls & _ & _ & Hex & _).
  destruct (Hex (Symlink "../output/cc")) as [Hr Hfs]; [vm_compute; reflexivity|].
  split; [exact Hr|]. split; [exact Hfs | exact Hcalls].
Defined.

(** X4.  Second snapshot, [Bucket.LinkActionToOutput] (lines 383-393).
    The link comes first.  An entry that is already at the action's path is
    reported as [exists] and nothing is uploaded; a link that cannot be made
    is an error and nothing is uploaded.  The action object is uploaded
    exactly when this call has made the link, and the call returns what the
    upload returned. *)
Theorem Snapshot2_upload_follows_link b a o w r w1 :
  Snapshot2.Bucket_LinkActionToOutput b a o w = (r, w1) ->
  (forall nd, fs w !! actionPathname (disk b) a = Some nd ->
     r = Ret (true, None) /\ fs w1 = fs w /\ calls w1 = calls w) /\
  ((fs w1 = fs w /\ calls w1 = calls w /\
    exists ex err, r = Ret (ex, err) /\ (ex = true \/ err <> None)) \/
   (fs w !! actionPathname (disk b) a = None /\
    fs w1 = <[actionPathname (disk b) a := Symlink (link_target o)]> (fs w) /\
    calls w1 = calls w ++ [action_call a o] /\
    r = Ret (false, bucket_Upload (env w) (calls w) (path_Join [actionDir; a]) []
                      {[ "output_id" := o ]} "plain/text"))).
Proof.
  rewrite Snapshot2_Bucket_LinkActionToOutput_eq, Snapshot2_Disk_LinkActionToOutput_eq.
  cbn zeta. intros H.
  destruct (fs w !! actionPathname (disk b) a) as [nd|] eqn:Hnd.
  { simplify_eq/=. split; [done|]. left. split_and!; eauto. }
  split; [done|].
  destruct (os_fault (env w) (tick w)) as [en|].
  - left. destruct en; simplify_eq/=; split_and!; eauto 6.
  - right. by simplify_eq/=.
Qed.

(** An instance: the same relinking; here the bucket is not told. *)
Lemma Snapshot2_upload_follows_link_witness :
  let b := {| disk := example_disk |} in
  let w := example_world [("/c/action/0a", Symlink "../output/cc")] in
  (Snapshot2.Bucket_LinkActionToOutput b "0a" "bb" w).1 = Ret (true, None) /\
  fs (Snapshot2.Bucket_LinkActionToOutput b "0a" "bb" w).2 = fs w /\
  calls (Snapshot2.Bucket_LinkActionToOutput b "0a" "bb" w).2 = calls w.
Proof.
  cbv zeta.
  destruct (Snapshot2_upload_follows_link {| disk := example_disk |} "0a" "bb"
              (example_world [("/c/action/0a", Symlink "../output/cc")]) _ _
              (surjective_pairing _))
    as (Hex & _).
  apply (Hex (Symlink "../output/cc")). vm_compute; reflexivity.
Defined.

(** ** Lookups of an action *)

Lemma Disk_OutputIDFromAction_linked d a o w :
  fs w !! actionPathname d a = Some (Symlink (link_target o)) ->
  plain_element o = true ->
  Disk_OutputIDFromAction d a w = (Ret (o, None), w).
Proof.
  intros Hl Ho. unfold Disk_OutputIDFromAction, os_Readlink. rewrite bind_eq, Hl.
  cbn -[filepath_Base link_target]. by rewrite link_target_Base.
Qed.

Lemma Snapshot1_lookup_linked b a o w :
  fs w !! actionPathname (disk b) a = Some (Symlink (link_target o)) ->
  plain_element o = true ->
  Snapshot1.Bucket_OutputIDFromAction b a w = (Ret (o, None), w).
Proof.
  intros Hl Ho. unfold Snapshot1.Bucket_OutputIDFromAction.
  rewrite bind_eq, (Disk_OutputIDFromAction_linked _ _ _ _ Hl Ho).
  rewrite decide_True; [done|]. by apply plain_element_inv.
Qed.

Lemma Snapshot2_lookup_linked b a o w :
  fs w !! actionPathname (disk b) a = Some (Symlink (link_target o)) ->
  plain_element o = true ->
  Snapshot2.Bucket_OutputIDFromAction b a w = (Ret (o, None), w).
Proof.
  intros Hl Ho. unfold Snapshot2.Bucket_OutputIDFromAction.
  rewrite bind_eq, (Disk_OutputIDFromAction_linked _ _ _ _ Hl Ho).
  rewrite decide_True; [done|]. by apply plain_element_inv.
Qed.

Lemma repeat_M_fixed {A} (m : M A) (a : A) (w : World) n :
  m w = (Ret a, w) -> repeat_M n m w = (Ret (replicate n a), w).
Proof.
  intros H. induction n as [|n IH]; [done|].
  cbn [repeat_M]. by rewrite bind_eq, H, bind_eq, IH.
Qed.

(** X5.  First snapshot: the lookup of an action that has no local link
    asks the bucket and writes nothing to the cache, whatever the answer; so
    the next lookup asks again. *)
Theorem Snapshot1_lookup_never_caches b a w :
  fs w !! actionPathname (disk b) a = None ->
  calls (Snapshot1.Bucket_OutputIDFromAction b a w).2
  = calls w ++ [CallAttributes (path_Join [actionDir; a])] /\
  fs (Snapshot1.Bucket_OutputIDFromAction b a w).2 = fs w.
Proof.
  intros Hlink. unfold Snapshot1.Bucket_OutputIDFromAction.
  rewrite bind_eq, Disk_OutputIDFromAction_absent by done.
  rewrite decide_False by (by intros []). rewrite bind_eq.
  unfold Bucket_Attributes.
  destruct (bucket_Attributes _ _ _) as [attr|e]; [done|].
  by destruct (is_NotFound (Some e)).
Qed.

(** An instance: the bucket knows the action; the cache is as before. *)
Lemma Snapshot1_lookup_never_caches_witness :
  let b := {| disk := example_disk |} in
  (Snapshot1.Bucket_OutputIDFromAction b "0a" (stocked_world [])).1 = Ret ("bb", None) /\
  calls (Snapshot1.Bucket_OutputIDFromAction b "0a" (stocked_world [])).2
  = [CallAttributes "action/0a"] /\
  fs (Snapshot1.Bucket_OutputIDFromAction b "0a" (stocked_world [])).2
  = fs (stocked_world []).
Proof.
  cbv zeta. split; [vm_compute; reflexivity|].
  apply (Snapshot1_lookup_never_caches {| disk := example_disk |} "0a" (stocked_world [])).
  vm_compute; reflexivity.
Defined.

(** X6.  Second snapshot: an action that is found in the bucket is linked
    locally, and the lookups that follow are answered from the link, without
    a remote call. *)
Theorem Snapshot2_remote_hit_is_linked b a w attr o :
  fs w !! actionPathname (disk b) a = None ->
  fs w !! Snapshot2.cacheEmptyOutputPath b a = None ->
  bucket_Attributes (env w) (calls w) (path_Join [actionDir; a]) = inl attr ->
  Metadata attr !! "output_id" = Some o ->
  plain_element o = true ->
  os_fault (env w) (tick w) = None ->
  exists w1,
    Snapshot2.Bucket_OutputIDFromAction b a w = (Ret (o, None), w1) /\
    calls w1 = calls w ++ [CallAttributes (path_Join [actionDir; a])] /\
    fs w1 = <[actionPathname (disk b) a := Symlink (link_target o)]> (fs w) /\
    forall n, repeat_M n (Snapshot2.Bucket_OutputIDFromAction b a) w1
              = (Ret (replicate n (o, None)), w1).
Proof.
  intros Hlink Hmark Hreply Hmeta Ho Hfault.
  unfold Snapshot2.Bucket_OutputIDFromAction at 1.
  rewrite bind_eq, Disk_OutputIDFromAction_absent by done.
  rewrite decide_False by (by intros []). rewrite bind_eq.
  destruct (os_Stat_None _ _ Hmark) as [e' ->].
  rewrite bind_eq. unfold Bucket_Attributes at 1. rewrite Hreply, Hmeta.
  cbn [default from_option]. rewrite decide_False by (by apply plain_element_inv).
  rewrite bind_eq, Snapshot2_Disk_LinkActionToOutput_eq. cbn -[actionPathname].
  rewrite Hlink, Hfault. eexists. split; [reflexivity|]. cbn -[actionPathname].
  split; [done|]. split; [done|].
  intros n. apply repeat_M_fixed, Snapshot2_lookup_linked; [|done].
  cbn -[actionPathname]. apply lookup_insert_eq.
Qed.

(** An instance: the bucket maps the action [0a] to the output [bb]. *)
Lemma Snapshot2_remote_hit_is_linked_witness :
  let b := {| disk := example_disk |} in
  exists w1,
    Snapshot2.Bucket_OutputIDFromAction b "0a" (stocked_world []) = (Ret ("bb", None), w1) /\
    calls w1 = calls (stocked_world []) ++ [CallAttributes (path_Join [actionDir; "0a"])] /\
    fs w1 = <[actionPathname (disk b) "0a" := Symlink (link_target "bb")]>
              (fs (stocked_world [])) /\
    forall n, repeat_M n (Snapshot2.Bucket_OutputIDFromAction b "0a") w1
              = (Ret (replicate n ("bb", None)), w1).
Proof.
  cbv zeta.
  apply (Snapshot2_remote_hit_is_linked {| disk := example_disk |} "0a" (stocked_world [])
           {| Metadata := {[ "output_id" := "bb" ]} |} "bb");
    vm_compute; reflexivity.
Defined.

(** X7.  Second snapshot: once [Bucket.LinkActionToOutput] has made the
    link, lookups return the output, whether or not the marker of an earlier
    miss is there and whether or not the upload of the action object went
    through. *)
Theorem Snapshot2_link_overrides_marker b a o w :
  fs w !! actionPathname (disk b) a = None ->
  plain_element o = true ->
  os_fault (env w) (tick w) = None ->
  exists uerr w1,
    Snapshot2.Bucket_LinkActionToOutput b a o w = (Ret (false, uerr), w1) /\
    fs w1 !! Snapshot2.cacheEmptyOutputPath b a = fs w !! Snapshot2.cacheEmptyOutputPath b a /\
    Snapshot2.Bucket_OutputIDFromAction b a w1 = (Ret (o, None), w1).
Proof.
  intros Hlink Ho Hfault.
  rewrite Snapshot2_Bucket_LinkActionToOutput_eq, Snapshot2_Disk_LinkActionToOutput_eq.
  cbn -[actionPathname]. rewrite Hlink, Hfault.
  eexists _, _. split; [reflexivity|]. cbn -[actionPathname]. split.
  - rewrite lookup_insert_ne; [done|]. intros H. by apply (marker_not_action b a).
  - apply Snapshot2_lookup_linked; [|done]. cbn -[actionPathname]. apply lookup_insert_eq.
Qed.

(** An instance: the marker of the action [0a] is there, and the bucket
    refuses the upload. *)
Lemma Snapshot2_link_overrides_marker_witness :
  let b := {| disk := example_disk |} in
  let w := stocked_world [("/c/action/0a.empty", File [] 0)] in
  exists uerr w1,
    Snapshot2.Bucket_LinkActionToOutput b "0a" "bb" w = (Ret (false, uerr), w1) /\
    fs w1 !! Snapshot2.cacheEmptyOutputPath b "0a"
    = fs w !! Snapshot2.cacheEmptyOutputPath b "0a" /\
    Snapshot2.Bucket_OutputIDFromAction b "0a" w1 = (Ret ("bb", None), w1).
Proof.
  cbv zeta.
  apply (Snapshot2_link_overrides_marker {| disk := example_disk |} "0a" "bb"
           (stocked_world [("/c/action/0a.empty", File [] 0)]));
    vm_compute; reflexivity.
Defined.

(** ** [Cacher.Put], step by step *)

Lemma Snapshot1_link_cases b a o w r w1 :
  Snapshot1.Bucket_LinkActionToOutput b a o w = (r, w1) ->
  exists err, r = Ret err /\
    env w1 = env w /\ calls w1 = calls w ++ [action_call a o] /\ jobs w1 = jobs w /\
    jobs_closed w1 = jobs_closed w /\ stdout w1 = stdout w /\ readers w1 = readers w /\
    (fs w1 = fs w \/
     (err = None /\ fs w !! actionPathname (disk b) a = None /\
      fs w1 = <[actionPathname (disk b) a := Symlink (link_target o)]> (fs w))) /\
    (fs w !! actionPathname (disk b) a = None -> err = None ->
     no_spurious_EEXIST (env w) ->
     fs w1 = <[actionPathname (disk b) a := Symlink (link_target o)]> (fs w)).
Proof.
  rewrite Snapshot1_Bucket_LinkActionToOutput_eq. cbn zeta.
  destruct (bucket_Upload _ _ _ _ _ _) as [e|] eqn:Hup.
  { intros [= <- <-]. eexists. split; [done|]. cbn. split_and!; auto. done. }
  rewrite Snapshot1_Disk_LinkActionToOutput_eq. cbn -[actionPathname].
  destruct (fs w !! actionPathname (disk b) a) as [nd|] eqn:Hnd.
  { intros [= <- <-]. eexists. split; [done|]. cbn. split_and!; auto. done. }
  destruct (os_fault (env w) (tick w)) as [en|] eqn:Hf.
  - intros H. destruct en; simplify_eq/=; eexists; (split; [done|]); cbn;
      split_and!; auto; try done.
    intros _ _ Hno. by destruct (Hno (tick w)).
  - intros [= <- <-]. eexists. split; [done|]. cbn -[actionPathname]. split_and!; auto.
Qed.

Lemma Cacher_Put_cases c req w p err w1 :
  Cacher_Put c req w = (Ret (p, err), w1) ->
  let d := disk (c_bucket c) in
  let o := hex_EncodeToString (bytes_of (req_OutputID req)) in
  let a := hex_EncodeToString (bytes_of (req_ActionID req)) in
  (p = "" /\ exists e ex, err = Some e /\
     Disk_PutOutput d o (req_Body req) w = (Ret ("", ex, Some e), w1)) \/
  (p = outputPathname d o /\
   exists ex wd,
     Disk_PutOutput d o (req_Body req) w = (Ret (p, ex, None), wd) /\
     (ex = false -> jobs_closed wd = false) /\
     Snapshot1.Bucket_LinkActionToOutput (c_bucket c) a o
       (if ex then wd else set_jobs (jobs wd ++ [p]) wd) = (Ret err, w1)).
Proof.
  unfold Cacher_Put, flight_Do. rewrite !bind_eq, Bucket_PutOutput_eq. cbn zeta.
  destruct (Disk_PutOutput _ _ _ w) as [o wd] eqn:Hd.
  pose proof (Disk_PutOutput_spec _ _ _ _ _ _ Hd) as (_ & _ & Hres).
  destruct o as [[[p0 [|]] [e|]]|msg]; [| | | |done].
  - destruct Hres as (-> & _). unfold_m. intros [= <- <- <-]. left. eauto 6.
  - destruct Hres as (-> & _). unfold_m.
    destruct (Snapshot1.Bucket_LinkActionToOutput _ _ _ wd) as [[e|msg] w2] eqn:Hl;
      intros [= <- <- <-]; right; (split; [done|]); exists true, wd; by rewrite Hl.
  - destruct Hres as (-> & _). unfold_m. intros [= <- <- <-]. left. eauto 6.
  - destruct Hres as (-> & _). destruct (jobs_closed wd) eqn:Hc; [done|].
    unfold_m.
    destruct (Snapshot1.Bucket_LinkActionToOutput _ _ _ _) as [[e|msg] w2] eqn:Hl;
      intros [= <- <- <-]; right; (split; [done|]); exists false, wd; by rewrite Hl.
Qed.

(** What [os.Stat] finds at the output's path after a put that returned a
    path. *)
Lemma Cacher_Put_stat c req w p err w1 :
  Cacher_Put c req w = (Ret (p, err), w1) -> p <> "" ->
  exists fi, os_Stat p w1 = (Ret (fi, None), w1) /\
    (fs w !! p = None ->
     exists i s, req_Body req = Some i /\ readers w !! i = Some s /\
       fi_Size fi = Z.of_nat (length (s_data s))).
Proof.
  intros H Hp. apply Cacher_Put_cases in H as [[-> _]|(-> & ex & wd & Hd & _ & Hl)]; [done|].
  cbn zeta in *.
  set (d := disk (c_bucket c)) in *.
  set (o := hex_EncodeToString (bytes_of (req_OutputID req))) in *.
  set (a := hex_EncodeToString (bytes_of (req_ActionID req))) in *.
  apply Snapshot1_link_cases in Hl as (err' & [= <-] & _ & _ & _ & _ & _ & _ & Hfs & _).
  assert (exists fi, stat_node 40 (fs wd) (outputPathname d o) = inl fi /\
            (fs w !! outputPathname d o = None ->
             exists i s, req_Body req = Some i /\ readers w !! i = Some s /\
               fi_Size fi = Z.of_nat (length (s_data s)))) as (fi & Hst & Hnew).
  { apply Disk_PutOutput_spec in Hd as (_ & _ & Hres). destruct ex.
    - destruct Hres as (_ & -> & fi & Hst). exists fi.
      apply os_Stat_ok_inv in Hst as [_ Hst]. split; [done|].
      intros Hnone. by rewrite (stat_node_None _ _ _ Hnone) in Hst.
    - destruct Hres as (_ & i & s & mt & Hr & Hs & _ & Hfs').
      eexists. split.
      + apply stat_node_File. rewrite Hfs'. apply lookup_insert_eq.
      + intros _. by exists i, s. }
  exists fi. split; [|done].
  apply os_Stat_ok; [done|].
  assert (fs (if ex then wd else set_jobs (jobs wd ++ [outputPathname d o]) wd) = fs wd)
    as Hwj by (by destruct ex).
  rewrite Hwj in Hfs. destruct Hfs as [->|(_ & Hnone & ->)]; [done|].
  by apply stat_node_insert.
Qed.

(** ** The responses to a put *)

(** X8.  The response to a put whose blob is in the cache, newly written or
    there before: it carries the blob's path, the output id of the request,
    the size and the time that [os.Stat] finds at that path once the put has
    returned, and as [Err] the text of the error of the link, if there was
    one.  For a newly written blob the size is the length of the body. *)
Theorem put_response_with_path c req w p err w1 oid :
  req_Command req = cmdPut ->
  req_OutputID req = Some oid -> oid <> [] ->
  Cacher_Put c req w = (Ret (p, err), w1) -> p <> "" ->
  exists fi,
    os_Stat (outputPathname (disk (c_bucket c)) (hex_EncodeToString oid)) w1
    = (Ret (fi, None), w1) /\
    handle c req w
    = (Ret tt,
       set_stdout
         (stdout w1 ++
          [ {| resp_ID := req_ID req;
               resp_Err := match err with Some e => Error e | None => "" end;
               resp_KnownCommands := []; resp_Miss := false;
               resp_OutputID := Some oid;
               resp_Size := fi_Size fi; resp_TimeNanos := fi_ModTime fi;
               resp_DiskPath := outputPathname (disk (c_bucket c)) (hex_EncodeToString oid) |} ])
         w1) /\
    (fs w !! outputPathname (disk (c_bucket c)) (hex_EncodeToString oid) = None ->
     exists i s, req_Body req = Some i /\ readers w !! i = Some s /\
       fi_Size fi = Z.of_nat (length (s_data s))).
Proof.
  intros Hcmd Hoid Hne Hput Hp.
  destruct (Cacher_Put_stat _ _ _ _ _ _ Hput Hp) as (fi & Hst & Hnew).
  pose proof (Cacher_Put_cases _ _ _ _ _ _ Hput) as [[-> _]|[Hpath _]]; [done|].
  rewrite Hoid in Hpath. change (bytes_of (Some oid)) with oid in Hpath.
  rewrite <- Hpath. exists fi. split; [done|]. split; [|done].
  unfold handle, handle_switch. rewrite Hcmd.
  rewrite !decide_False by discriminate. rewrite decide_True by done.
  rewrite bind_eq, Hput. cbn [mret M_ret].
  unfold handle_deferred. rewrite Hcmd, decide_True by discriminate.
  assert (hex_DecodeString (filepath_Base p) = (oid, None)) as Hdec.
  { rewrite Hpath, outputPathname_Base by (by apply hex_plain).
    apply hex_round_trip. }
  destruct err as [e|]; rewrite !bind_eq; cbn [resp_DiskPath set_DiskPath set_Err];
    rewrite Hst, Hdec; reflexivity.
Qed.

(** An instance: the put of the two bytes of the output [bb] in a bucket
    that refuses the upload of the action object.  The response carries the
    path, the size and the error. *)
Lemma put_response_with_path_witness :
  let w := set_readers {[ 0%nat := {| s_data := [Byte.x01; Byte.x02]; s_err := None |} ]}
             (stocked_world []) in
  exists fi,
    os_Stat "/c/output/bb" (Cacher_Put example_cacher put_bb_body w).2
    = (Ret (fi, None), (Cacher_Put example_cacher put_bb_body w).2) /\
    handle example_cacher put_bb_body w
    = (Ret tt,
       set_stdout
         (stdout (Cacher_Put example_cacher put_bb_body w).2 ++
          [ {| resp_ID := 1; resp_Err := "blob: internal error";
               resp_KnownCommands := []; resp_Miss := false;
               resp_OutputID := Some [Byte.xbb];
               resp_Size := fi_Size fi; resp_TimeNanos := fi_ModTime fi;
               resp_DiskPath := "/c/output/bb" |} ])
         (Cacher_Put example_cacher put_bb_body w).2) /\
    (fs w !! "/c/output/bb" = None ->
     exists i s, req_Body put_bb_body = Some i /\ readers w !! i = Some s /\
       fi_Size fi = Z.of_nat (length (s_data s))).
Proof.
  cbv zeta.
  apply (put_response_with_path example_cacher put_bb_body _ "/c/output/bb"
           (Some (GcError Internal "blob: internal error")) _ [Byte.xbb]);
    [reflexivity | reflexivity | discriminate | vm_compute; reflexivity | discriminate].
Defined.

(** X9.  The response to a put whose blob could not be written: no path,
    and as [Err] the text of the failed [os.Stat] of the empty path, not the
    text of the error of the write. *)
Theorem put_without_path_response c req w err w1 :
  req_Command req = cmdPut ->
  Cacher_Put c req w = (Ret ("", err), w1) ->
  handle c req w
  = (Ret tt,
     set_stdout (stdout w1 ++
                 [set_Err "stat : no such file or directory" (new_response (req_ID req))])
       w1).
Proof.
  intros Hcmd Hput. unfold handle, handle_switch. rewrite Hcmd.
  rewrite !decide_False by discriminate. rewrite decide_True by done.
  rewrite bind_eq, Hput. unfold handle_deferred. rewrite Hcmd.
  by destruct err.
Qed.

(** An instance: the copy to the temporary file fails. *)
Lemma put_without_path_response_witness :
  stdout (handle example_cacher put_bb_body (world_with_fault 1)).2
  = [set_Err "stat : no such file or directory" (new_response 1)].
Proof.
  rewrite (put_without_path_response example_cacher put_bb_body (world_with_fault 1)
             (Some (Wrapf "copying output to disk" (PathError "write" "/c/output1000" EIO)))
             (Cacher_Put example_cacher put_bb_body (world_with_fault 1)).2);
    [vm_compute; reflexivity | reflexivity | vm_compute; reflexivity].
Defined.

(** ** Round trips *)

Lemma Snapshot1_GetOutput_local b o w fi :
  os_Stat (outputPathname (disk b) o) w = (Ret (fi, None), w) ->
  Snapshot1.Bucket_GetOutput b o w = (Ret (outputPathname (disk b) o, None), w).
Proof.
  intros H. unfold Snapshot1.Bucket_GetOutput, Disk_GetOutput.
  rewrite bind_eq. cbn [mret M_ret]. by rewrite bind_eq, H.
Qed.

(** X10.  After a put for an action that had no link, a get for the action
    returns the path the put returned, and leaves the world as it is: no
    remote call is made. *)
Theorem get_after_put c put get w p w1 oid :
  req_OutputID put = Some oid -> oid <> [] ->
  fs w !! actionPathname (disk (c_bucket c))
            (hex_EncodeToString (bytes_of (req_ActionID put))) = None ->
  no_spurious_EEXIST (env w) ->
  Cacher_Put c put w = (Ret (p, None), w1) ->
  req_ActionID get = req_ActionID put ->
  Cacher_Get c get w1 = (Ret (p, None), w1).
Proof.
  intros Hoid Hne Hlink Hno Hput Haid.
  assert (p <> "") as Hp.
  { apply Cacher_Put_cases in Hput as [(_ & e & ex & [=] & _)|[-> _]].
    apply outputPathname_nonempty. }
  destruct (Cacher_Put_stat _ _ _ _ _ _ Hput Hp) as (fi & Hst & _).
  apply Cacher_Put_cases in Hput as [[-> _]|(Hpath & ex & wd & Hd & _ & Hl)]; [done|].
  rewrite Hoid in *. change (bytes_of (Some oid)) with oid in *.
  set (d := disk (c_bucket c)) in *.
  set (o := hex_EncodeToString oid) in *.
  set (a := hex_EncodeToString (bytes_of (req_ActionID put))) in *.
  apply Disk_PutOutput_spec in Hd as ((Henv & _) & Hframe & _).
  apply Snapshot1_link_cases in Hl as (err' & [= <-] & _ & _ & _ & _ & _ & _ & _ & Hfs).
  assert (fs w1 !! actionPathname d a = Some (Symlink (link_target o))) as Hl1.
  { rewrite Hfs; [apply lookup_insert_eq| |done|].
    - destruct ex; cbn; rewrite Hframe by apply action_not_output; done.
    - destruct ex; cbn; by rewrite Henv. }
  unfold Cacher_Get, flight_Do. rewrite Haid. fold a.
  rewrite bind_eq, (Snapshot1_lookup_linked _ _ o) by (done || by apply hex_plain).
  rewrite !bind_eq. rewrite Hpath in Hst.
  by rewrite (Snapshot1_GetOutput_local _ _ _ _ Hst), Hpath.
Qed.

(** An instance: the put of the output [bb] for the action [0a], then a get
    of [0a]. *)
Lemma get_after_put_witness :
  let w1 := (Cacher_Put example_cacher put_bb_body (world_with_fault 9)).2 in
  Cacher_Get example_cacher get_0a w1 = (Ret ("/c/output/bb", None), w1).
Proof.
  cbv zeta.
  apply (get_after_put example_cacher put_bb_body get_0a (world_with_fault 9)
           "/c/output/bb" _ [Byte.xbb]);
    [reflexivity | discriminate | vm_compute; reflexivity
    | intros n; cbn; destruct (n =? 9)%nat; discriminate
    | vm_compute; reflexivity | reflexivity].
Defined.

(** ** The responses to a get *)

(** X11.  A get that is served from the cache: the action is linked and the
    blob is on disk.  The response carries the blob's path, its output id,
    its size and its time; nothing else changes, and the bucket is not
    called. *)
Theorem get_local_hit_response c req w oid data mtime :
  req_Command req = cmdGet ->
  oid <> [] ->
  fs w !! actionPathname (disk (c_bucket c))
            (hex_EncodeToString (bytes_of (req_ActionID req)))
  = Some (Symlink (link_target (hex_EncodeToString oid))) ->
  fs w !! outputPathname (disk (c_bucket c)) (hex_EncodeToString oid)
  = Some (File data mtime) ->
  handle c req w
  = (Ret tt,
     set_stdout
       (stdout w ++
        [ {| resp_ID := req_ID req; resp_Err := ""; resp_KnownCommands := [];
             resp_Miss := false; resp_OutputID := Some oid;
             resp_Size := Z.of_nat (length data); resp_TimeNanos := mtime;
             resp_DiskPath := outputPathname (disk (c_bucket c)) (hex_EncodeToString oid) |} ])
       w).
Proof.
  intros Hcmd Hne Hlink Hblob.
  pose proof (hex_plain oid Hne) as Hplain.
  pose proof (os_Stat_file _ _ _ _ (outputPathname_nonempty _ _) Hblob) as Hst.
  unfold handle, handle_switch. rewrite Hcmd.
  rewrite decide_False by discriminate. rewrite decide_True by done.
  rewrite bind_eq. unfold Cacher_Get, flight_Do.
  rewrite bind_eq, (Snapshot1_lookup_linked _ _ _ _ Hlink Hplain).
  rewrite !bind_eq, (Snapshot1_GetOutput_local _ _ _ _ Hst).
  cbn [mret M_ret set_DiskPath resp_DiskPath new_response].
  rewrite decide_False by apply outputPathname_nonempty.
  unfold handle_deferred. rewrite Hcmd, decide_True by discriminate.
  rewrite !bind_eq. cbn [resp_DiskPath set_DiskPath]. rewrite Hst.
  rewrite outputPathname_Base, hex_round_trip by done. reflexivity.
Qed.

(** An instance: the action [0a], linked to the output [bb] of two bytes. *)
Lemma get_local_hit_response_witness :
  handle example_cacher get_0a world_cached
  = (Ret tt,
     set_stdout
       [ {| resp_ID := 7; resp_Err := ""; resp_KnownCommands := [];
            resp_Miss := false; resp_OutputID := Some [Byte.xbb];
            resp_Size := 2; resp_TimeNanos := 5; resp_DiskPath := "/c/output/bb" |} ]
       world_cached).
Proof.
  apply (get_local_hit_response example_cacher get_0a world_cached [Byte.xbb]
           [Byte.x01; Byte.x02] 5);
    [reflexivity | discriminate | vm_compute; reflexivity | vm_compute; reflexivity].
Defined.

Lemma outputPathname_empty d : outputPathname d "" = filepath_Join [cacheDir d; outputDir].
Proof.
  unfold outputPathname, filepath_Join, outputDir.
  destruct (cacheDir d); cbn; by repeat case_decide.
Qed.

Lemma output_directory_Base d : filepath_Base (filepath_Join [cacheDir d; outputDir]) = "output".
Proof.
  unfold filepath_Join, outputDir. destruct (cacheDir d) as [|c cd] eqn:Hcd.
  - reflexivity.
  - cbn. repeat case_decide; try done. cbn [String.concat].
    by apply filepath_Base_last.
Qed.

(** X12.  A get for an action that is known neither in the cache nor in the
    bucket.  The lookup gives the empty output id and no error;
    [Bucket.GetOutput] joins the empty id to the path of the output directory,
    which exists, and returns that path.  So the response has no [Miss]: it
    carries the path, the size and the time of the output directory, and
    [Err] says that the output id is invalid. *)
Theorem get_miss_in_both_tiers_response c req w e size mtime :
  req_Command req = cmdGet ->
  fs w !! actionPathname (disk (c_bucket c))
            (hex_EncodeToString (bytes_of (req_ActionID req))) = None ->
  bucket_Attributes (env w) (calls w)
    (path_Join [actionDir; hex_EncodeToString (bytes_of (req_ActionID req))]) = inr e ->
  is_NotFound (Some e) = true ->
  fs w !! filepath_Join [cacheDir (disk (c_bucket c)); outputDir] = Some (Dir size mtime) ->
  handle c req w
  = (Ret tt,
     set_stdout
       (stdout w ++
        [ {| resp_ID := req_ID req; resp_Err := "invalid output id";
             resp_KnownCommands := []; resp_Miss := false; resp_OutputID := Some [];
             resp_Size := size; resp_TimeNanos := mtime;
             resp_DiskPath := filepath_Join [cacheDir (disk (c_bucket c)); outputDir] |} ])
       (set_calls
          (calls w ++
           [CallAttributes
              (path_Join [actionDir; hex_EncodeToString (bytes_of (req_ActionID req))])])
          w)).
Proof.
  intros Hcmd Hlink Hreply Hnf Hdir.
  set (a := hex_EncodeToString (bytes_of (req_ActionID req))) in *.
  set (dir := filepath_Join [cacheDir (disk (c_bucket c)); outputDir]) in *.
  set (wc := set_calls (calls w ++ [CallAttributes (path_Join [actionDir; a])]) w).
  assert (dir <> "") as Hne.
  { unfold dir. rewrite <- outputPathname_empty. apply outputPathname_nonempty. }
  assert (os_Stat dir wc = (Ret ({| fi_Size := size; fi_ModTime := mtime |}, None), wc))
    as Hst.
  { apply os_Stat_ok; [done|]. cbn [stat_node fs wc set_calls]. by rewrite Hdir. }
  unfold handle, handle_switch. rewrite Hcmd.
  rewrite decide_False by discriminate. rewrite decide_True by done.
  rewrite bind_eq. unfold Cacher_Get, flight_Do. fold a.
  rewrite bind_eq, (Snapshot1_lookup_keeps_no_marker _ _ _ _ Hlink Hreply Hnf). fold wc.
  rewrite !bind_eq, (Snapshot1_GetOutput_local _ _ _ _ ltac:(rewrite outputPathname_empty; exact Hst)).
  rewrite outputPathname_empty. fold dir.
  cbn [mret M_ret set_DiskPath resp_DiskPath new_response].
  rewrite decide_False by done.
  unfold handle_deferred. rewrite Hcmd, decide_True by discriminate.
  rewrite !bind_eq. cbn [resp_DiskPath set_DiskPath]. rewrite Hst.
  unfold dir. rewrite output_directory_Base. reflexivity.
Qed.

(** An instance: the action [0a], in an empty cache, with a bucket that holds
    nothing. *)
Lemma get_miss_in_both_tiers_response_witness :
  handle example_cacher get_0a (example_world [])
  = (Ret tt,
     set_stdout
       [ {| resp_ID := 7; resp_Err := "invalid output id"; resp_KnownCommands := [];
            resp_Miss := false; resp_OutputID := Some []; resp_Size := 4096;
            resp_TimeNanos := 0; resp_DiskPath := "/c/output" |} ]
       (set_calls [CallAttributes "action/0a"] (example_world []))).
Proof.
  apply (get_miss_in_both_tiers_response example_cacher get_0a (example_world [])
           (GcError NotFound "blob: not found") 4096 0);
    [reflexivity | vm_compute; reflexivity | reflexivity | reflexivity
    | vm_compute; reflexivity].
Defined.

(** ** A get after a not-found (second snapshot) *)

Lemma Snapshot2_GetOutput_local b o w fi :
  os_Stat (outputPathname (disk b) o) w = (Ret (fi, None), w) ->
  Snapshot2.Bucket_GetOutput b o w = (Ret (outputPathname (disk b) o, None), w).
Proof.
  intros H. unfold Snapshot2.Bucket_GetOutput, Disk_GetOutput.
  rewrite bind_eq. cbn [mret M_ret]. by rewrite bind_eq, H.
Qed.

(** C3.  On the snapshot that keeps the marker.  When the action has no link
    and no marker, the bucket answers not-found and the write of the marker
    goes through, the lookup leaves the marker, an empty file, behind.  From
    then on, in any world in which the marker is there, the action has no link
    and the output directory exists, whatever the bucket would answer, a get
    for the action calls nothing remote and changes nothing.  But it is not
    answered with a miss: the lookup gives the empty output id, [Cacher.Get]
    hands it to [Bucket.GetOutput], which joins it to the path of the output
    directory and finds that path, and the response carries the directory's
    path, size and time, [Miss] unset, and the error text of a path that names
    no output. *)
Theorem get_after_negative_marker_is_no_miss c req w e :
  req_Command req = cmdGet ->
  fs w !! actionPathname (disk (c_bucket c))
            (hex_EncodeToString (bytes_of (req_ActionID req))) = None ->
  fs w !! Snapshot2.cacheEmptyOutputPath (c_bucket c)
            (hex_EncodeToString (bytes_of (req_ActionID req))) = None ->
  bucket_Attributes (env w) (calls w)
    (path_Join [actionDir; hex_EncodeToString (bytes_of (req_ActionID req))]) = inr e ->
  is_NotFound (Some e) = true ->
  os_fault (env w) (tick w) = None ->
  exists w1 mtime,
    Snapshot2.Bucket_OutputIDFromAction (c_bucket c)
      (hex_EncodeToString (bytes_of (req_ActionID req))) w = (Ret ("", None), w1) /\
    fs w1 !! Snapshot2.cacheEmptyOutputPath (c_bucket c)
               (hex_EncodeToString (bytes_of (req_ActionID req)))
    = Some (File [] mtime) /\
    forall w2 size mt,
      fs w2 !! actionPathname (disk (c_bucket c))
                 (hex_EncodeToString (bytes_of (req_ActionID req))) = None ->
      fs w2 !! Snapshot2.cacheEmptyOutputPath (c_bucket c)
                 (hex_EncodeToString (bytes_of (req_ActionID req)))
      = Some (File [] mtime) ->
      fs w2 !! filepath_Join [cacheDir (disk (c_bucket c)); outputDir] = Some (Dir size mt) ->
      OnSnapshot2.Cacher_Get c req w2
      = (Ret (filepath_Join [cacheDir (disk (c_bucket c)); outputDir], None), w2) /\
      OnSnapshot2.handle_get c req w2
      = (Ret tt,
         set_stdout
           (stdout w2 ++
            [ {| resp_ID := req_ID req; resp_Err := "invalid output id";
                 resp_KnownCommands := []; resp_Miss := false; resp_OutputID := Some [];
                 resp_Size := size; resp_TimeNanos := mt;
                 resp_DiskPath := filepath_Join [cacheDir (disk (c_bucket c)); outputDir] |} ])
           w2).
Proof.
  intros Hcmd Hlink Hmark Hreply Hnf Hok.
  set (a := hex_EncodeToString (bytes_of (req_ActionID req))) in *.
  set (dir := filepath_Join [cacheDir (disk (c_bucket c)); outputDir]) in *.
  rewrite (Snapshot2_lookup_not_found _ _ _ _ Hlink Hmark Hreply Hnf). cbn zeta.
  rewrite Hok. eexists _, _. split; [reflexivity|]. split.
  { cbn. apply lookup_insert_eq. }
  intros w2 size mt Hlink2 Hmark2 Hdir.
  assert (dir <> "") as Hne.
  { unfold dir. rewrite <- outputPathname_empty. apply outputPathname_nonempty. }
  assert (os_Stat dir w2 = (Ret ({| fi_Size := size; fi_ModTime := mt |}, None), w2)) as Hst.
  { apply os_Stat_ok; [done|]. cbn [stat_node]. by rewrite Hdir. }
  assert (OnSnapshot2.Cacher_Get c req w2 = (Ret (dir, None), w2)) as Hget.
  { unfold OnSnapshot2.Cacher_Get, flight_Do. fold a.
    rewrite bind_eq, (lookup_served_from_marker _ _ _ _ Hlink2 Hmark2).
    rewrite !bind_eq.
    rewrite (Snapshot2_GetOutput_local _ _ _ _
               ltac:(rewrite outputPathname_empty; exact Hst)).
    by rewrite outputPathname_empty. }
  split; [exact Hget|].
  unfold OnSnapshot2.handle_get. rewrite bind_eq, Hget.
  cbn [mret M_ret set_DiskPath resp_DiskPath new_response].
  rewrite decide_False by done.
  unfold handle_deferred. rewrite Hcmd, decide_True by discriminate.
  rewrite !bind_eq. cbn [resp_DiskPath set_DiskPath]. rewrite Hst.
  unfold dir. rewrite output_directory_Base. reflexivity.
Qed.

(** An instance: the action [0a], in an empty cache, with a bucket that holds
    nothing.  The first lookup leaves the marker; the get that follows is
    answered with the path of the output directory. *)
Lemma get_after_negative_marker_is_no_miss_witness :
  let w1 := (Snapshot2.Bucket_OutputIDFromAction (c_bucket example_cacher) "0a"
               (example_world [])).2 in
  (exists mtime, fs w1 !! "/c/action/0a.empty" = Some (File [] mtime)) /\
  OnSnapshot2.handle_get example_cacher get_0a w1
  = (Ret tt,
     set_stdout
       [ {| resp_ID := 7; resp_Err := "invalid output id"; resp_KnownCommands := [];
            resp_Miss := false; resp_OutputID := Some []; resp_Size := 4096;
            resp_TimeNanos := 0; resp_DiskPath := "/c/output" |} ]
       w1).
Proof.
  cbv zeta.
  destruct (get_after_negative_marker_is_no_miss example_cacher get_0a (example_world [])
              (GcError NotFound "blob: not found"))
    as (w1 & mtime & Hlook & Hmark & Hlater);
    [reflexivity | vm_compute; reflexivity | vm_compute; reflexivity | reflexivity
    | reflexivity | reflexivity |].
  change (hex_EncodeToString (bytes_of (req_ActionID get_0a))) with "0a" in *.
  apply (f_equal snd) in Hlook. cbn [snd] in Hlook. subst w1.
  split; [by exists mtime|].
  destruct (Hlater (Snapshot2.Bucket_OutputIDFromAction (c_bucket example_cacher) "0a"
                      (example_world [])).2 4096%Z 0%Z) as [_ ->];
    [vm_compute; reflexivity | exact Hmark | vm_compute; reflexivity |].
  vm_compute; reflexivity.
Defined.

(** ** Other requests *)

(** X13.  A request whose command is none of the three is not refused as
    such: the handler does nothing, and the response carries the text of the
    failed [os.Stat] of the empty path. *)
Theorem unknown_command_response c req w :
  req_Command req <> cmdClose -> req_Command req <> cmdGet -> req_Command req <> cmdPut ->
  handle c req w
  = (Ret tt,
     set_stdout (stdout w ++
                 [set_Err "stat : no such file or directory" (new_response (req_ID req))])
       w).
Proof.
  intros H1 H2 H3. unfold handle, handle_switch. rewrite !decide_False by done.
  cbn [mret M_ret]. unfold handle_deferred. rewrite decide_True by done.
  reflexivity.
Qed.

(** An instance: a request for statistics. *)
Lemma unknown_command_response_witness :
  handle example_cacher stats_4 fresh_world
  = (Ret tt,
     set_stdout [set_Err "stat : no such file or directory" (new_response 4)] fresh_world).
Proof.
  apply (unknown_command_response example_cacher stats_4 fresh_world); discriminate.
Defined.

Lemma read_request_object r rest :
  read_request (JObject r :: rest)
  = if decide (req_Command r = cmdPut) then
      if (0 <? req_BodySize r)%Z then
        match rest with
        | [] => Fatal (Wrapf "decoding body" (ErrorString "EOF"))
        | v' :: rest' =>
            match decode_bytes v' with
            | inr e => Fatal (Wrapf "decoding body" e)
            | inl buf =>
                if decide (Z.of_nat (length buf) <> req_BodySize r)
                then Fatal (ErrorString
                              ("incorrect length: " +:+ pretty (Z.of_nat (length buf))
                                 +:+ " != " +:+ pretty (req_BodySize r)))
                else Dispatch (framed r) (Some buf) rest'
            end
        end
      else Dispatch (framed r) (Some []) rest
    else Dispatch (framed r) None rest.
Proof.
  unfold read_request, framed. cbn [decode_request]. cbn [req_ObjectID set_Body].
  destruct (req_ObjectID r); cbn zeta;
    cbn [req_Command req_BodySize set_OutputID set_Body]; reflexivity.
Qed.

(** X14.  What the loop dispatches for an object of the input is the
    request as it was decoded, except that a deprecated [ObjectID], when it is
    given, takes the place of [OutputID], also when [OutputID] is given too.  A request
    that is not a put takes no body from the input, whatever size it
    declares: the value that follows it is read as the next request. *)
Theorem ObjectID_replaces_OutputID r rest req body rest' :
  read_request (JObject r :: rest) = Dispatch req body rest' ->
  req_OutputID req
  = match req_ObjectID r with Some o => Some o | None => req_OutputID r end /\
  req_ID req = req_ID r /\ req_Command req = req_Command r /\
  req_ActionID req = req_ActionID r /\ req_BodySize req = req_BodySize r /\
  (req_Command r <> cmdPut -> body = None /\ rest' = rest).
Proof.
  rewrite read_request_object. intros H.
  assert (req = framed r) as -> by (repeat case_match; by simplify_eq).
  split_and!; try (unfold framed; by destruct (req_ObjectID r)).
  intros Hcmd. rewrite decide_False in H by done. by simplify_eq.
Qed.

(** An instance: a get that gives both fields and declares a body of two
    bytes. *)
Lemma ObjectID_replaces_OutputID_witness :
  read_request [JObject get_legacy; JString [Byte.x01; Byte.x02]]
  = Dispatch (framed get_legacy) None [JString [Byte.x01; Byte.x02]] /\
  req_OutputID (framed get_legacy) = Some [Byte.xbb].
Proof.
  split; [reflexivity|].
  apply (ObjectID_replaces_OutputID get_legacy [JString [Byte.x01; Byte.x02]]
           (framed get_legacy) None [JString [Byte.x01; Byte.x02]]).
  reflexivity.
Defined.

(** ** Fetching an output from the bucket *)

Lemma is_NotFound_Wrapf context e : is_NotFound (Some (Wrapf context e)) = is_NotFound (Some e).
Proof. reflexivity. Qed.

Lemma os_CreateTemp_error dir pattern w f e w' :
  os_CreateTemp dir pattern w = (Ret (f, Some e), w') -> is_NotFound (Some e) = false.
Proof. unfold os_CreateTemp. unfold_m. cbn. intros H. by repeat case_match; simplify_eq. Qed.

Lemma File_Close_error f w e w' :
  File_Close f w = (Ret (Some e), w') -> is_NotFound (Some e) = false.
Proof. unfold File_Close. unfold_m. cbn. intros H. by repeat case_match; simplify_eq. Qed.

Lemma os_Rename_error a b w e w' :
  os_Rename a b w = (Ret (Some e), w') -> is_NotFound (Some e) = false.
Proof. unfold os_Rename. unfold_m. cbn. intros H. by repeat case_match; simplify_eq. Qed.

Lemma io_Copy_reader f i s w :
  readers w !! i = Some s ->
  exists k err w', io_Copy f (Some i) w = (Ret (k, err), w') /\
    (is_NotFound err = true -> err = s_err s).
Proof.
  intros Hs. unfold io_Copy. unfold_m. cbn. rewrite Hs.
  destruct (os_fault (env w) (tick w)); eexists _, _, _; (split; [done|]); done.
Qed.

(** A store from a reader that exists returns; an error of it that the
    bucket's codes call not-found is the error the reader ended with. *)
Lemma Disk_PutOutput_reader d o i s w :
  readers w !! i = Some s ->
  exists p ex err w',
    Disk_PutOutput d o (Some i) w = (Ret (p, ex, err), w') /\
    (is_NotFound err = true -> is_NotFound (s_err s) = true).
Proof.
  intros Hs. unfold Disk_PutOutput. rewrite bind_eq.
  destruct (os_Stat (outputPathname d o) w) as [o1 w1] eqn:Hstat.
  pose proof (os_Stat_inv _ _ _ _ Hstat) as [-> [(fi & ->)|(e0 & ->)]].
  { eexists _, _, _, _. split; [done|]. done. }
  rewrite bind_eq.
  destruct (os_CreateTemp (cacheDir d) "output" w) as [o1 w1] eqn:Hct.
  pose proof (os_CreateTemp_inv _ _ _ _ _ Hct)
    as (_ & Hr1 & [(e & -> & _) | (n & now & -> & _ & _)]).
  { eexists _, _, _, _. split; [done|]. rewrite is_NotFound_Wrapf.
    by rewrite (os_CreateTemp_error _ _ _ _ _ _ Hct). }
  set (tmp := tmp_name (cacheDir d) "output" n).
  unfold defer. rewrite bind_eq.
  rewrite <- Hr1 in Hs.
  destruct (io_Copy_reader tmp i s w1 Hs) as (k & err & w2 & -> & Herr).
  destruct err as [e|].
  { cbn [mret M_ret File_Close_deferred].
    destruct (os_RemoveAll tmp w2) as [o3 w3].
    eexists _, _, _, _. split; [done|]. rewrite is_NotFound_Wrapf.
    intros H. by rewrite <- (Herr H). }
  rewrite bind_eq. destruct (File_Close tmp w2) as [o4 w4] eqn:Hfc.
  pose proof (File_Close_inv _ _ _ _ Hfc) as (_ & _ & _ & [err ->]).
  destruct err as [e|].
  { cbn [mret M_ret File_Close_deferred].
    destruct (os_RemoveAll tmp w4) as [o3 w3].
    eexists _, _, _, _. split; [done|]. rewrite is_NotFound_Wrapf.
    by rewrite (File_Close_error _ _ _ _ Hfc). }
  rewrite bind_eq. destruct (os_Rename tmp (outputPathname d o) w4) as [o5 w5] eqn:Hrn.
  pose proof (os_Rename_inv _ _ _ _ _ Hrn) as (_ & _ & [(e & -> & _) | (nd & -> & _)]).
  - cbn [mret M_ret File_Close_deferred].
    destruct (os_RemoveAll tmp w5) as [o3 w3].
    eexists _, _, _, _. split; [done|]. rewrite is_NotFound_Wrapf.
    by rewrite (os_Rename_error _ _ _ _ _ Hrn).
  - cbn [mret M_ret File_Close_deferred].
    destruct (os_RemoveAll tmp w5) as [o3 w3].
    eexists _, _, _, _. split; [done|]. done.
Qed.

Lemma new_reader_eq s w :
  new_reader s w
  = (Ret (Some (fresh (dom (readers w)))),
     set_readers (<[fresh (dom (readers w)) := s]> (readers w)) w).
Proof. reflexivity. Qed.

(** X15.  First snapshot, [Bucket.GetOutput] (lines 196-224), for an output
    that is not on disk.  The call returns.  It makes one remote call, the
    download; it sends no job, so a downloaded blob is not uploaded again.
    No path but the output's own changes.  When it returns a path, the
    download ended without an error and the file at the path holds exactly
    what the bucket sent.  When it returns no path, the file system is as it
    was; it reports a miss, no path and no error, only if the download ended
    with a not-found. *)
Theorem Snapshot1_GetOutput_download b o w data derr :
  fs w !! outputPathname (disk b) o = None ->
  bucket_Download (env w) (calls w) (path_Join [outputDir; o]) = (data, derr) ->
  exists p err w1,
    Snapshot1.Bucket_GetOutput b o w = (Ret (p, err), w1) /\
    calls w1 = calls w ++ [CallDownload (path_Join [outputDir; o])] /\
    jobs w1 = jobs w /\
    (forall path, path <> outputPathname (disk b) o -> fs w1 !! path = fs w !! path) /\
    (p <> "" ->
       p = outputPathname (disk b) o /\ err = None /\ derr = None /\
       exists mtime, fs w1 !! p = Some (File data mtime)) /\
    (p = "" -> fs w1 = fs w /\ (err = None -> is_NotFound derr = true)).
Proof.
  intros Hnone Hdl. unfold Snapshot1.Bucket_GetOutput, Disk_GetOutput.
  rewrite bind_eq. cbn [mret M_ret]. rewrite bind_eq.
  destruct (os_Stat_None _ _ Hnone) as [e0 Hst]. rewrite Hst.
  rewrite bind_eq. unfold Bucket_Download at 1. rewrite Hdl.
  rewrite bind_eq, new_reader_eq.
  set (wc := set_calls _ w). set (i := fresh (dom (readers wc))).
  set (wr := set_readers _ wc).
  assert (readers wr !! i = Some {| s_data := data; s_err := derr |}) as Hs
    by apply lookup_insert_eq.
  destruct (Disk_PutOutput_reader (disk b) o i _ wr Hs) as (p & ex & err & w1 & Hd & Hnf).
  rewrite bind_eq, Hd.
  pose proof (Disk_PutOutput_spec _ _ _ _ _ _ Hd) as ((_ & Hcalls & Hjobs & _) & Hframe & Hres).
  destruct err as [e|].
  - assert (p = "" /\ fs w1 = fs wr) as [-> Hfs]
      by (destruct ex; destruct Hres as (? & ? & _); by split).
    destruct (is_NotFound (Some e)) eqn:Hcode.
    + eexists _, _, _. split; [done|]. split_and!; try done.
      intros _. split; [done|]. intros _. by apply Hnf.
    + eexists _, _, _. split; [done|]. split_and!; try done.
  - cbn [is_NotFound gcerrors_Code]. destruct ex.
    + destruct Hres as (_ & _ & fi & Hst').
      apply os_Stat_ok_inv in Hst' as [_ Hst'].
      change (fs wr) with (fs w) in Hst'.
      by rewrite (stat_node_None _ _ _ Hnone) in Hst'.
    + destruct Hres as (-> & i' & s' & mt & [= <-] & Hs' & Hends & Hfs).
      rewrite Hs in Hs'. injection Hs' as <-. cbn in Hends. subst derr.
      eexists _, _, _. split; [done|]. split_and!; try done.
      * intros _. split_and!; try done. exists mt. rewrite Hfs. apply lookup_insert_eq.
      * intros Hp. by destruct (outputPathname_nonempty (disk b) o).
Qed.

(** An instance: the bucket holds the two bytes of the output [bb]. *)
Lemma Snapshot1_GetOutput_download_witness :
  let b := {| disk := example_disk |} in
  let w := stocked_world [] in
  exists p err w1,
    Snapshot1.Bucket_GetOutput b "bb" w = (Ret (p, err), w1) /\
    calls w1 = calls w ++ [CallDownload (path_Join [outputDir; "bb"])] /\
    jobs w1 = jobs w /\
    (forall path, path <> outputPathname (disk b) "bb" -> fs w1 !! path = fs w !! path) /\
    (p <> "" ->
       p = outputPathname (disk b) "bb" /\ err = None /\ @None Err = None /\
       exists mtime, fs w1 !! p = Some (File [Byte.x01; Byte.x02] mtime)) /\
    (p = "" -> fs w1 = fs w /\ (err = None -> is_NotFound None = true)).
Proof.
  cbv zeta.
  apply (Snapshot1_GetOutput_download {| disk := example_disk |} "bb" (stocked_world [])
           [Byte.x01; Byte.x02] None);
    vm_compute; reflexivity.
Defined.

(** X16.  Second snapshot, [Bucket.GetOutput] (lines 450-485), for an output
    that is not on disk: as the first one; moreover a download that ends with
    an error leaves the world untouched but for the call, and an error that
    is not a not-found is returned as it is. *)
Theorem Snapshot2_GetOutput_download b o w data derr :
  fs w !! outputPathname (disk b) o = None ->
  bucket_Download (env w) (calls w) (path_Join [outputDir; o]) = (data, derr) ->
  exists p err w1,
    Snapshot2.Bucket_GetOutput b o w = (Ret (p, err), w1) /\
    calls w1 = calls w ++ [CallDownload (path_Join [outputDir; o])] /\
    jobs w1 = jobs w /\
    (forall path, path <> outputPathname (disk b) o -> fs w1 !! path = fs w !! path) /\
    (p <> "" ->
       p = outputPathname (disk b) o /\ err = None /\ derr = None /\
       exists mtime, fs w1 !! p = Some (File data mtime)) /\
    (p = "" -> fs w1 = fs w /\ (err = None -> is_NotFound derr = true)) /\
    (forall e, derr = Some e ->
       p = "" /\ err = (if is_NotFound derr then None else Some e) /\
       w1 = set_calls (calls w ++ [CallDownload (path_Join [outputDir; o])]) w).
Proof.
  intros Hnone Hdl. unfold Snapshot2.Bucket_GetOutput, Disk_GetOutput.
  rewrite bind_eq. cbn [mret M_ret]. rewrite bind_eq.
  destruct (os_Stat_None _ _ Hnone) as [e0 Hst]. rewrite Hst.
  rewrite bind_eq. unfold Bucket_Download at 1. rewrite Hdl.
  set (wc := set_calls _ w).
  destruct (is_NotFound derr) eqn:Hcode.
  { eexists _, _, _. split; [done|]. by split_and!. }
  destruct derr as [e|].
  { eexists _, _, _. split; [done|]. by split_and!. }
  rewrite bind_eq, new_reader_eq.
  set (i := fresh (dom (readers wc))). set (wr := set_readers _ wc).
  assert (readers wr !! i = Some {| s_data := data; s_err := None |}) as Hs
    by apply lookup_insert_eq.
  destruct (Disk_PutOutput_reader (disk b) o i _ wr Hs) as (p & ex & err & w1 & Hd & Hnf).
  rewrite bind_eq, Hd.
  pose proof (Disk_PutOutput_spec _ _ _ _ _ _ Hd) as ((_ & Hcalls & Hjobs & _) & Hframe & Hres).
  eexists _, _, _. split; [done|]. split; [done|]. split; [done|]. split; [done|].
  destruct err as [e|].
  - assert (p = "" /\ fs w1 = fs wr) as [-> Hfs]
      by (destruct ex; destruct Hres as (? & ? & _); by split).
    split_and!; try done.
  - destruct ex.
    + destruct Hres as (_ & _ & fi & Hst').
      apply os_Stat_ok_inv in Hst' as [_ Hst'].
      change (fs wr) with (fs w) in Hst'.
      by rewrite (stat_node_None _ _ _ Hnone) in Hst'.
    + destruct Hres as (-> & i' & s' & mt & [= <-] & Hs' & Hends & Hfs).
      rewrite Hs in Hs'. injection Hs' as <-.
      split_and!; try done.
      * intros _. split_and!; try done. exists mt. rewrite Hfs. apply lookup_insert_eq.
      * intros Hp. by destruct (outputPathname_nonempty (disk b) o).
Qed.

(** An instance: the bucket holds nothing; the miss costs one call and
    leaves the world as it was. *)
Lemma Snapshot2_GetOutput_download_witness :
  let b := {| disk := example_disk |} in
  let w := example_world [] in
  Snapshot2.Bucket_GetOutput b "bb" w
  = (Ret ("", None), set_calls [CallDownload "output/bb"] w).
Proof.
  cbv zeta.
  destruct (Snapshot2_GetOutput_download {| disk := example_disk |} "bb" (example_world [])
              [] (Some (GcError NotFound "blob: not found")))
    as (p & err & w1 & -> & _ & _ & _ & _ & _ & Herr);
    [vm_compute; reflexivity | vm_compute; reflexivity |].
  destruct (Herr _ eq_refl) as (-> & -> & ->). reflexivity.
Defined.

(** ** Closing *)

Lemma set_calls_id w : set_calls (calls w) w = w.
Proof. by destruct w. Qed.

Lemma upload_jobs_eq l w :
  upload_jobs l w = (Ret tt, set_calls (calls w ++ omap (upload_of (fs w)) l) w).
Proof.
  revert w. induction l as [|p l IH]; intros w.
  - cbn. by rewrite app_nil_r, set_calls_id.
  - cbn [upload_jobs omap list_omap]. rewrite bind_eq. unfold upload_job at 1.
    rewrite bind_eq. unfold os_Open, upload_of at 1.
    destruct (fs w !! p) as [[content mt| |]|]; cbn [mret M_ret]; rewrite ?IH; try done.
    rewrite bind_eq. unfold Bucket_Upload at 1. cbn [mret M_ret]. rewrite IH. cbn.
    by rewrite <- app_assoc.
Qed.



(** X18.  The response to a close carries the [ID] and nothing else.  The
    first close of a session runs [Bucket.Close] to its end and leaves the
    channel closed and empty; a close after that panics in [close(b.jobs)],
    and the response is written all the same, by the deferred function,
    before the process goes down. *)
Theorem close_response c req w :
  req_Command req = cmdClose ->
  (jobs_closed w = false ->
     exists w1, Bucket_Close (c_bucket c) w = (Ret tt, w1) /\
       jobs_closed w1 = true /\ jobs w1 = [] /\
       handle c req w
       = (Ret tt, set_stdout (stdout w1 ++ [new_response (req_ID req)]) w1)) /\
  (jobs_closed w = true ->
     handle c req w
     = (Panic "close of closed channel",
        set_stdout (stdout w ++ [new_response (req_ID req)]) w)).
Proof.
  intros Hcmd. unfold handle, handle_switch, handle_deferred.
  rewrite Hcmd. rewrite decide_True by done. rewrite decide_False by (by intros []).
  rewrite bind_eq. unfold Bucket_Close. rewrite bind_eq. unfold act.
  split; intros ->; [|done].
  rewrite upload_jobs_eq. eexists. split; [done|]. done.
Qed.

(** An instance: a close with two jobs in the queue, and a close on a
    closed channel. *)
Lemma close_response_witness :
  (exists w1, Bucket_Close (c_bucket example_cacher) world_queued = (Ret tt, w1) /\
     jobs_closed w1 = true /\ jobs w1 = [] /\
     handle example_cacher close_9 world_queued
     = (Ret tt, set_stdout (stdout w1 ++ [new_response 9]) w1)) /\
  handle example_cacher close_9 (set_jobs_closed true world_queued)
  = (Panic "close of closed channel",
     set_stdout [new_response 9] (set_jobs_closed true world_queued)).
Proof.
  split.
  - apply (proj1 (close_response example_cacher close_9 world_queued eq_refl)).
    reflexivity.
  - apply (proj2 (close_response example_cacher close_9
                    (set_jobs_closed true world_queued) eq_refl)).
    reflexivity.
Defined.

(** X19.  A put that comes after a close, for a blob that is not in the
    cache: the blob is written to disk, then the send on the closed channel
    panics.  No job is sent and the action is not linked, neither locally nor
    in the bucket; the response that the deferred function writes carries no
    path, and as [Err] the text of the failed [os.Stat] of the empty path.
    (The panic passes through [singleflight], which wraps its value: the
    message is left open.) *)
Theorem put_after_close_panics c req w p wd :
  req_Command req = cmdPut ->
  jobs_closed w = true ->
  Disk_PutOutput (disk (c_bucket c))
    (hex_EncodeToString (bytes_of (req_OutputID req))) (req_Body req) w
  = (Ret (p, false, None), wd) ->
  (exists msg,
     handle c req w
     = (Panic msg,
        set_stdout (stdout wd ++
                    [set_Err "stat : no such file or directory" (new_response (req_ID req))])
          wd)) /\
  jobs wd = jobs w /\ calls wd = calls w /\
  (forall a, fs wd !! actionPathname (disk (c_bucket c)) a
             = fs w !! actionPathname (disk (c_bucket c)) a) /\
  exists data mtime, fs wd !! p = Some (File data mtime).
Proof.
  intros Hcmd Hclosed Hd.
  pose proof (Disk_PutOutput_spec _ _ _ _ _ _ Hd)
    as ((_ & Hcalls & Hjobs & Hcl & _) & Hframe & (-> & i & s & mt & _ & _ & _ & Hfs)).
  split_and!; try done.
  - eexists. unfold handle, handle_switch. rewrite Hcmd.
    rewrite !decide_False by discriminate. rewrite decide_True by done.
    rewrite bind_eq. unfold Cacher_Put, flight_Do.
    rewrite !bind_eq, Bucket_PutOutput_eq, Hd, Hcl, Hclosed.
    unfold handle_deferred. by rewrite Hcmd.
  - intros a. apply Hframe, action_not_output.
  - exists (s_data s), mt. rewrite Hfs. apply lookup_insert_eq.
Qed.

(** An instance: the put of the output [bb] on a closed channel. *)
Lemma put_after_close_panics_witness :
  let w := set_jobs_closed true (world_with_fault 9) in
  let wd := (Disk_PutOutput example_disk "bb" (Some 0%nat) w).2 in
  (exists msg,
     handle example_cacher put_bb_body w
     = (Panic msg,
        set_stdout [set_Err "stat : no such file or directory" (new_response 1)] wd)) /\
  fs wd !! "/c/action/0a" = None /\
  exists data mtime, fs wd !! "/c/output/bb" = Some (File data mtime).
Proof.
  cbv zeta.
  destruct (put_after_close_panics example_cacher put_bb_body
              (set_jobs_closed true (world_with_fault 9)) "/c/output/bb"
              (Disk_PutOutput example_disk "bb" (Some 0%nat)
                 (set_jobs_closed true (world_with_fault 9))).2)
    as (Hp & _ & _ & Hlinks & Hblob);
    [reflexivity | reflexivity | vm_compute; reflexivity |].
  split; [exact Hp|]. split; [|exact Hblob].
  exact (Hlinks "0a").
Defined.

(** X20.  A put of a new blob, then a close: the blob is uploaded under the
    key of its output id, with the bytes of the put's body. *)
Theorem put_then_close_uploads_the_blob c req w p err w1 oid :
  req_OutputID req = Some oid -> oid <> [] ->
  fs w !! outputPathname (disk (c_bucket c)) (hex_EncodeToString oid) = None ->
  Cacher_Put c req w = (Ret (p, err), w1) -> p <> "" ->
  exists i s w2,
    req_Body req = Some i /\ readers w !! i = Some s /\
    Bucket_Close (c_bucket c) w1 = (Ret tt, w2) /\
    CallUpload (path_Join [outputDir; hex_EncodeToString oid]) (s_data s) ∅
      "application/octet-stream" ∈ calls w2.
Proof.
  intros Hoid Hne Hnone Hput Hp.
  apply Cacher_Put_cases in Hput as [[-> _]|(Hpath & ex & wd & Hd & Hopen & Hl)]; [done|].
  rewrite Hoid in *. change (bytes_of (Some oid)) with oid in *.
  set (d := disk (c_bucket c)) in *.
  set (o := hex_EncodeToString oid) in *.
  apply Disk_PutOutput_spec in Hd as ((_ & _ & Hjobs & Hclosed & _) & _ & Hres).
  destruct ex.
  { destruct Hres as (_ & -> & fi & Hst). apply os_Stat_ok_inv in Hst as [_ Hst].
    by rewrite (stat_node_None _ _ _ Hnone) in Hst. }
  destruct Hres as (_ & i & s & mt & Hr & Hs & _ & Hfs).
  apply Snapshot1_link_cases
    in Hl as (err' & [= <-] & _ & _ & Hjobs1 & Hclosed1 & _ & _ & Hfs1 & _).
  cbn in Hjobs1, Hclosed1, Hfs1.
  assert (fs w1 !! p = Some (File (s_data s) mt)) as Hblob.
  { destruct Hfs1 as [->|(_ & _ & ->)].
    - rewrite Hfs, Hpath. apply lookup_insert_eq.
    - rewrite lookup_insert_ne by (rewrite Hpath; apply action_not_output).
      rewrite Hfs, Hpath. apply lookup_insert_eq. }
  exists i, s. eexists. split; [done|]. split; [done|].
  unfold Bucket_Close. rewrite bind_eq. unfold act.
  assert (jobs_closed w1 = false) as -> by (by rewrite Hclosed1, (Hopen eq_refl)).
  rewrite upload_jobs_eq. split; [done|].
  cbn. rewrite Hjobs1, omap_app. cbn. unfold upload_of at 2. rewrite Hblob.
  rewrite Hpath at 1. unfold o. rewrite outputPathname_Base by (by apply hex_plain).
  rewrite !elem_of_app. right. right. left.
Qed.

(** An instance: the put of the two bytes of the output [bb], and the
    close. *)
Lemma put_then_close_uploads_the_blob_witness :
  let w1 := (Cacher_Put example_cacher put_bb_body (world_with_fault 9)).2 in
  exists i s w2,
    req_Body put_bb_body = Some i /\ readers (world_with_fault 9) !! i = Some s /\
    Bucket_Close (c_bucket example_cacher) w1 = (Ret tt, w2) /\
    CallUpload (path_Join [outputDir; hex_EncodeToString [Byte.xbb]]) (s_data s) ∅
      "application/octet-stream" ∈ calls w2.
Proof.
  cbv zeta.
  apply (put_then_close_uploads_the_blob example_cacher put_bb_body (world_with_fault 9)
           "/c/output/bb" None _ [Byte.xbb]);
    [reflexivity | discriminate | vm_compute; reflexivity | vm_compute; reflexivity
    | discriminate].
Defined.

(** ** The drain barrier *)

Import Pipeline.

Lemma list_split_at {A} (l : list A) (j : nat) (x : A) :
  l !! j = Some x ->
  exists l1 l2, l = l1 ++ x :: l2 /\ forall y, <[j := y]> l = l1 ++ y :: l2.
Proof.
  intros H. exists (take j l), (drop (S j) l). split.
  - by rewrite take_drop_middle.
  - intros y. apply insert_take_drop. by eapply lookup_lt_Some.
Qed.

Lemma running_app ws1 ws2 : running (ws1 ++ ws2) = running ws1 + running ws2.
Proof. induction ws1 as [|[] ws1 IH]; cbn; lia. Qed.

Lemma uploading_app ws1 ws2 : uploading (ws1 ++ ws2) = uploading ws1 ++ uploading ws2.
Proof. induction ws1 as [|[] ws1 IH]; cbn; by rewrite ?IH. Qed.

Lemma running_0 ws : running ws = 0 -> forall wk, wk ∈ ws -> wk = Exited.
Proof.
  induction ws as [|[] ws IH]; cbn; intros H wk Hin; try lia.
  - by apply elem_of_nil in Hin.
  - apply elem_of_cons in Hin as [->|Hin]; auto.
Qed.

Lemma uploading_Exited ws : (forall wk, wk ∈ ws -> wk = Exited) -> uploading ws = [].
Proof.
  induction ws as [|wk ws IH]; [done|]. intros H.
  rewrite (H wk) by left. cbn. apply IH. intros wk' Hin. apply H. by right.
Qed.

Lemma invariant_init : invariant init.
Proof.
  split.
  - done.
  - reflexivity.
  - done.
  - intros H. by apply (elem_of_replicate_inv _ 20 Idle) in H.
  - unfold close_answered. cbn. intros [H|H]; by apply elem_of_nil in H.
Qed.

Lemma elem_of_insert_inv {A} (l : list A) i x y :
  y ∈ <[i := x]> l -> y = x \/ y ∈ l.
Proof.
  intros H. apply list_elem_of_lookup in H as [j Hj].
  apply list_lookup_insert_Some in Hj as [(-> & -> & _)|[_ Hj]]; [by left|].
  right. by eapply list_elem_of_lookup_2.
Qed.

Lemma invariant_step s s' : invariant s -> step s s' -> invariant s'.
Proof.
  intros [Hws Hwg Hjobs Hex Hwait] Hstep. unfold close_answered in *.
  destruct Hstep; cbn in *.
  - (* spawn *)
    split; cbn; auto. unfold close_answered; cbn.
    intros [Hin|Hin]; [|by auto].
    apply elem_of_app in Hin as [Hin|Hin]; [by auto|].
    apply list_elem_of_singleton in Hin as <-. by destruct H.
  - (* send *)
    split; cbn; auto.
    + rewrite Hjobs. by rewrite !app_assoc.
    + intros Hin. by destruct (Hex Hin).
    + unfold close_answered; cbn. intros [Hin|Hin]; [|by auto].
      apply elem_of_insert_inv in Hin as [[=]|Hin]; auto.
  - (* send on a closed channel *)
    split; cbn; auto. unfold close_answered; cbn. intros [Hin|Hin].
    + apply elem_of_insert_inv in Hin as [[=]|Hin]; auto.
    + apply elem_of_app in Hin as [Hin|Hin]; [by auto|].
      by apply list_elem_of_singleton in Hin.
  - (* close *)
    split; cbn; auto.
    + intros Hin. by destruct (Hex Hin).
    + unfold close_answered; cbn. intros [Hin|Hin]; [|by auto].
      apply elem_of_insert_inv in Hin as [[=]|Hin]; auto.
  - (* close of a closed channel *)
    split; cbn; auto. unfold close_answered; cbn. intros [Hin|Hin].
    + apply elem_of_insert_inv in Hin as [[=]|Hin]; auto.
    + apply elem_of_app in Hin as [Hin|Hin]; [by auto|].
      by apply list_elem_of_singleton in Hin.
  - (* wait *)
    split; cbn; auto.
  - (* respond *)
    split; cbn; auto. unfold close_answered; cbn. intros [Hin|Hin].
    + apply elem_of_insert_inv in Hin as [[=]|Hin]; auto.
    + apply elem_of_app in Hin as [Hin|Hin]; [by auto|].
      apply list_elem_of_singleton in Hin as [= <-].
      apply Hwait. left. by eapply list_elem_of_lookup_2.
  - (* receive *)
    destruct (list_split_at _ _ _ H) as (ws1 & ws2 & -> & Hins).
    rewrite Hins. split; cbn.
    + by destruct ws1.
    + rewrite Hwg, !running_app. done.
    + rewrite Hjobs, !uploading_app. cbn. by solve_Permutation.
    + intros Hin. assert (Exited ∈ ws1 ++ Idle :: ws2) as Hin'.
      { apply elem_of_app in Hin as [Hin|Hin]; apply elem_of_app; [by left|].
        apply elem_of_cons in Hin as [[=]|Hin]. right. by right. }
      by destruct (Hex Hin').
    + done.
  - (* upload *)
    destruct (list_split_at _ _ _ H) as (ws1 & ws2 & -> & Hins).
    rewrite Hins. split; cbn.
    + by destruct ws1.
    + rewrite Hwg, !running_app. done.
    + rewrite Hjobs, !uploading_app. cbn. by solve_Permutation.
    + intros Hin. apply Hex.
      apply elem_of_app in Hin as [Hin|Hin]; apply elem_of_app; [by left|].
      apply elem_of_cons in Hin as [[=]|Hin]. right. by right.
    + done.
  - (* exit *)
    destruct (list_split_at _ _ _ H) as (ws1 & ws2 & -> & Hins).
    rewrite Hins. split; cbn.
    + by destruct ws1.
    + rewrite Hwg, !running_app. cbn. lia.
    + rewrite Hjobs, !uploading_app. done.
    + done.
    + intros Hc. rewrite (Hwait Hc). done.
Qed.

Lemma invariant_reachable s : reachable s -> invariant s.
Proof.
  unfold reachable. intros H.
  apply (rtc_ind_r (R := step) invariant init); [apply invariant_init| |exact H].
  intros y z _ Hyz Hy. by eapply invariant_step.
Qed.

(** A response to a close that was written while its handler panicked: the
    channel was closed before, and the process is going down. *)
Lemma panicked_close_reachable s :
  reachable s -> (cmdClose, true) ∈ out s -> closed s = true /\ crashed s = true.
Proof.
  unfold reachable. intros H.
  apply (rtc_ind_r (R := step)
           (fun s => (cmdClose, true) ∈ out s -> closed s = true /\ crashed s = true) init);
    [| |exact H].
  - cbn. intros Hin. by apply elem_of_nil in Hin.
  - intros y z _ Hyz IH. destruct Hyz; cbn in *; intros Hin;
      try (by destruct (IH Hin));
      apply elem_of_app in Hin as [Hin|Hin]; try (by destruct (IH Hin));
      by apply list_elem_of_singleton in Hin.
Qed.

(** C6.  In every state the pipeline can reach, if the response to a close
    has been written by a handler that returned from [Bucket.Close], the
    first close of its session, then the channel is closed and empty, every
    worker has left its loop, and every job that was sent has had its upload
    attempted.  If the response to a close has been written while its handler
    panicked, the channel was closed already and the process is going down;
    nothing is said then of the jobs, which may still be in the channel.  In
    this model [Bucket.Close] is the two steps [step_close], for
    [close(b.jobs)], and [step_wait], for [b.wg.Wait()]. *)
Theorem close_response_after_drain s :
  reachable s ->
  (close_answered s ->
   closed s = true /\ chan s = [] /\
   (forall wk, wk ∈ workers s -> wk = Exited) /\
   sent s ≡ₚ attempted s) /\
  ((cmdClose, true) ∈ out s -> closed s = true /\ crashed s = true).
Proof.
  intros Hr. split; [|by apply panicked_close_reachable].
  intros Hc. destruct (invariant_reachable s Hr) as [Hws Hwg Hjobs Hex Hwait].
  assert (wg s = 0) as H0 by auto. rewrite Hwg in H0.
  pose proof (running_0 _ H0) as Hall.
  assert (Exited ∈ workers s) as Hin.
  { destruct (workers s) as [|wk ws] eqn:E; [done|].
    rewrite <- (Hall wk) by left. left. }
  destruct (Hex Hin) as [Hcl Hch]. repeat split; try done.
  by rewrite Hjobs, Hch, (uploading_Exited _ Hall), !app_nil_r.
Qed.

(** An instance: one put, its upload, and a close, to the end. *)
Ltac pipeline_step c := eapply rtc_l; [c|]; cbn.

Ltac workers_exit j n :=
  lazymatch n with
  | O => idtac
  | S ?n' =>
      pipeline_step ltac:(apply (step_exit _ _ _ _ _ _ j); reflexivity);
      workers_exit (S j) n'
  end.

Lemma drained_reachable : reachable drained.
Proof.
  unfold reachable, init, drained.
  pipeline_step ltac:(apply (step_spawn _ _ _ _ _ _ _ _ (Sending "/c/output/bb")); exact I).
  pipeline_step ltac:(apply (step_send _ _ _ _ _ _ _ 0 "/c/output/bb");
                      [reflexivity | cbn; lia]).
  pipeline_step ltac:(apply (step_respond _ _ _ _ _ _ _ _ 0 cmdPut); reflexivity).
  pipeline_step ltac:(apply (step_spawn _ _ _ _ _ _ _ _ Closing); exact I).
  pipeline_step ltac:(apply (step_receive _ _ _ _ _ _ _ _ _ 0); reflexivity).
  pipeline_step ltac:(apply (step_upload _ _ _ _ _ _ _ _ 0 "/c/output/bb"); reflexivity).
  pipeline_step ltac:(apply (step_close _ _ _ _ _ _ _ 1); reflexivity).
  workers_exit 0%nat 20%nat.
  pipeline_step ltac:(apply (step_wait _ _ _ _ _ _ _ 1); reflexivity).
  pipeline_step ltac:(apply (step_respond _ _ _ _ _ _ _ _ 1 cmdClose); reflexivity).
  apply rtc_refl.
Qed.

Lemma close_response_after_drain_witness :
  reachable drained /\ close_answered drained /\
  closed drained = true /\ chan drained = [] /\
  (forall wk, wk ∈ workers drained -> wk = Exited) /\
  sent drained ≡ₚ attempted drained.
Proof.
  split; [exact drained_reachable|]. split.
  { unfold close_answered, drained. cbn. right. left. }
  apply (proj1 (close_response_after_drain drained drained_reachable)).
  unfold close_answered, drained. cbn. right. left.
Defined.

(** C6, as the claim has it, fails for a close that is not the first of its
    session.  [close(b.jobs)] panics on the closed channel,
    and the deferred function of that handler writes the response to the
    close at once: a job that was sent before it is still in the channel, no
    upload has been attempted, and every worker is in its loop. *)
Lemma close_of_closed_is_answered_at_once :
  exists s,
    reachable s /\ (cmdClose, true) ∈ out s /\ closed s = true /\
    chan s = ["/c/output/bb"] /\ sent s = ["/c/output/bb"] /\ attempted s = [] /\
    workers s = replicate 20 Idle.
Proof.
  exists (mk ["/c/output/bb"] true 20 (replicate 20 Idle)
            [Responding cmdPut; Waiting; Finished] ["/c/output/bb"] []
            [(cmdClose, true)] true).
  split; [|cbn; split_and!; try done; left].
  unfold reachable, init.
  pipeline_step ltac:(apply (step_spawn _ _ _ _ _ _ _ _ (Sending "/c/output/bb")); exact I).
  pipeline_step ltac:(apply (step_send _ _ _ _ _ _ _ 0 "/c/output/bb");
                      [reflexivity | cbn; lia]).
  pipeline_step ltac:(apply (step_spawn _ _ _ _ _ _ _ _ Closing); exact I).
  pipeline_step ltac:(apply (step_spawn _ _ _ _ _ _ _ _ Closing); exact I).
  pipeline_step ltac:(apply (step_close _ _ _ _ _ _ _ 1); reflexivity).
  pipeline_step ltac:(apply (step_close_of_closed _ _ _ _ _ _ _ 2); reflexivity).
  apply rtc_refl.
Qed.

(** ** The queue and the workers *)

Lemma uploading_length ws : length (uploading ws) <= length ws.
Proof. induction ws as [|[] ws IH]; cbn; lia. Qed.

Lemma bounds_reachable s :
  reachable s -> length (chan s) <= 1000 /\ length (workers s) = 20.
Proof.
  unfold reachable. intros H.
  apply (rtc_ind_r (R := step)
           (fun s => length (chan s) <= 1000 /\ length (workers s) = 20) init);
    [| |exact H].
  - split; [cbn; lia | reflexivity].
  - intros y z _ Hyz [Hch Hws]. destruct Hyz; cbn in *;
      rewrite ?length_app, ?length_insert; cbn; split; lia.
Qed.

(** X21.  In every state the pipeline can reach: a job that was sent is in
    the channel, in the hands of a worker, or has had its upload attempted,
    and is in one of these places once for every time it was sent; the
    channel holds at most 1000 jobs; there are 20 workers, so at most 20
    uploads are under way. *)
Theorem no_job_is_lost s :
  reachable s ->
  sent s ≡ₚ attempted s ++ uploading (workers s) ++ chan s /\
  length (chan s) <= 1000 /\
  length (workers s) = 20 /\
  length (uploading (workers s)) <= 20.
Proof.
  intros Hr. destruct (invariant_reachable s Hr) as [_ _ Hjobs _ _].
  destruct (bounds_reachable s Hr) as [Hch Hws].
  split_and!; try done. rewrite <- Hws. apply uploading_length.
Qed.

(** An instance: a job is in the channel, and a close has closed it. *)
Lemma queued_reachable :
  reachable (mk ["/c/output/bb"] true 20 (replicate 20 Idle)
               [Responding cmdPut; Waiting] ["/c/output/bb"] [] [] false).
Proof.
  unfold reachable, init.
  pipeline_step ltac:(apply (step_spawn _ _ _ _ _ _ _ _ (Sending "/c/output/bb")); exact I).
  pipeline_step ltac:(apply (step_send _ _ _ _ _ _ _ 0 "/c/output/bb");
                      [reflexivity | cbn; lia]).
  pipeline_step ltac:(apply (step_spawn _ _ _ _ _ _ _ _ Closing); exact I).
  pipeline_step ltac:(apply (step_close _ _ _ _ _ _ _ 1); reflexivity).
  apply rtc_refl.
Qed.

Lemma no_job_is_lost_witness :
  ["/c/output/bb"] ≡ₚ [] ++ uploading (replicate 20 Idle) ++ ["/c/output/bb"] /\
  length ["/c/output/bb"] <= 1000 /\
  length (replicate 20 Idle) = 20 /\
  length (uploading (replicate 20 Idle)) <= 20.
Proof. exact (no_job_is_lost _ queued_reachable). Defined.

(** X22.  Once the channel is closed it stays closed and takes no job:
    whatever the goroutines do from there, nothing more is sent. *)
Theorem closed_channel_takes_no_job s s' :
  closed s = true ->
  rtc step s s' ->
  closed s' = true /\ sent s' = sent s.
Proof.
  intros Hcl Hsteps. induction Hsteps as [s|s1 s2 s3 Hstep _ IH]; [done|].
  destruct Hstep; cbn in *; try done; destruct IH as [-> ->]; done.
Qed.

(** An instance: after the close of [close_waiting], a worker has left. *)
Lemma closed_channel_takes_no_job_witness :
  let s' := mk [] true 19 (Exited :: replicate 19 Idle) [Waiting] [] [] [] false in
  closed s' = true /\ sent s' = sent close_waiting.
Proof.
  cbv zeta. apply (closed_channel_takes_no_job close_waiting _ eq_refl).
  eapply rtc_l; [|apply rtc_refl].
  exact (step_exit 20 (replicate 20 Idle) [Waiting] [] [] [] 0 eq_refl).
Defined.

Lemma waiting_closed s : reachable s -> Waiting ∈ handlers s -> closed s = true.
Proof.
  unfold reachable. intros H.
  apply (rtc_ind_r (R := step) (fun s => Waiting ∈ handlers s -> closed s = true) init);
    [| |exact H].
  - cbn. intros Hin. by apply elem_of_nil in Hin.
  - intros y z _ Hyz IH. destruct Hyz; cbn in *; try done; intros Hin.
    all: try (apply elem_of_insert_inv in Hin as [[=]|Hin]; by auto).
    apply elem_of_app in Hin as [Hin|Hin]; [auto|].
    apply list_elem_of_singleton in Hin as <-. by destruct H0.
Qed.

Lemma reachable_step s s' : reachable s -> step s s' -> reachable s'.
Proof. unfold reachable. intros H Hs. by eapply rtc_r. Qed.

Lemma reachable_steps s s' : reachable s -> rtc step s s' -> reachable s'.
Proof. unfold reachable. intros H Hs. by etrans. Qed.

Lemma list_insert_middle {A} (l1 l2 : list A) x y :
  <[length l1 := y]> (l1 ++ x :: l2) = l1 ++ y :: l2.
Proof. by rewrite insert_app_r_alt, Nat.sub_diag. Qed.

(** The workers finish the uploads they hold. *)
Lemma workers_finish ws2 : forall ws1 ch cl n hs se att o,
  exists ws2' att',
    rtc step (mk ch cl n (ws1 ++ ws2) hs se att o false)
             (mk ch cl n (ws1 ++ ws2') hs se att' o false) /\
    uploading ws2' = [].
Proof.
  induction ws2 as [|wk ws2 IH]; intros ws1 ch cl n hs se att o.
  { exists [], att. split; [apply rtc_refl | done]. }
  destruct wk as [|p|].
  - destruct (IH (ws1 ++ [Idle]) ch cl n hs se att o) as (ws2' & att' & Hsteps & Hup).
    rewrite <- !app_assoc in Hsteps. cbn [app] in Hsteps. by exists (Idle :: ws2'), att'.
  - destruct (IH (ws1 ++ [Idle]) ch cl n hs se (att ++ [p]) o) as (ws2' & att' & Hsteps & Hup).
    rewrite <- !app_assoc in Hsteps. cbn [app] in Hsteps.
    exists (Idle :: ws2'), att'. split; [|done].
    eapply rtc_l; [|exact Hsteps].
    rewrite <- (list_insert_middle ws1 ws2 (Uploading p) Idle).
    apply step_upload. apply list_lookup_middle. done.
  - destruct (IH (ws1 ++ [Exited]) ch cl n hs se att o) as (ws2' & att' & Hsteps & Hup).
    rewrite <- !app_assoc in Hsteps. cbn [app] in Hsteps. by exists (Exited :: ws2'), att'.
Qed.

(** The workers take the jobs that wait in the channel, one by one. *)
Lemma workers_drain ch : forall n ws hs se att o,
  reachable (mk ch true n ws hs se att o false) ->
  uploading ws = [] ->
  exists att', rtc step (mk ch true n ws hs se att o false)
                        (mk [] true n ws hs se att' o false).
Proof.
  induction ch as [|p ch IH]; intros n ws hs se att o Hr Hup.
  { exists att. apply rtc_refl. }
  destruct (invariant_reachable _ Hr) as [Hws _ _ Hex _]. cbn in Hws, Hex.
  destruct ws as [|wk ws]; [done|].
  destruct wk as [|q|]; [|done|by destruct Hex; [left|]].
  assert (step (mk (p :: ch) true n (Idle :: ws) hs se att o false)
               (mk ch true n (Uploading p :: ws) hs se att o false)) as H1
    by exact (step_receive p ch true n (Idle :: ws) hs se att o 0 eq_refl).
  assert (step (mk ch true n (Uploading p :: ws) hs se att o false)
               (mk ch true n (Idle :: ws) hs se (att ++ [p]) o false)) as H2
    by exact (step_upload ch true n (Uploading p :: ws) hs se att o 0 p eq_refl).
  destruct (IH n (Idle :: ws) hs se (att ++ [p]) o) as [att' Hsteps]; [|done|].
  { eapply reachable_step; [|exact H2]. eapply reachable_step; [exact Hr|exact H1]. }
  exists att'. eapply rtc_l; [exact H1|]. eapply rtc_l; [exact H2|]. exact Hsteps.
Qed.

(** With the channel closed and empty, the workers leave their loops. *)
Lemma workers_leave ws2 : forall ws1 n hs se att o,
  uploading ws2 = [] ->
  exists n',
    rtc step (mk [] true n (ws1 ++ ws2) hs se att o false)
             (mk [] true n' (ws1 ++ replicate (length ws2) Exited) hs se att o false).
Proof.
  induction ws2 as [|wk ws2 IH]; intros ws1 n hs se att o Hup.
  { exists n. apply rtc_refl. }
  destruct wk as [|p|]; [| done |].
  - destruct (IH (ws1 ++ [Exited]) (pred n) hs se att o Hup) as (n' & Hsteps).
    rewrite <- !app_assoc in Hsteps. cbn [app] in Hsteps. exists n'.
    eapply rtc_l; [|exact Hsteps].
    rewrite <- (list_insert_middle ws1 ws2 Idle Exited).
    apply step_exit. apply list_lookup_middle. done.
  - destruct (IH (ws1 ++ [Exited]) n hs se att o Hup) as (n' & Hsteps).
    rewrite <- !app_assoc in Hsteps. cbn [app] in Hsteps. by exists n'.
Qed.

Lemma running_replicate_Exited k : running (replicate k Exited) = 0.
Proof. by induction k. Qed.

(** X23.  A close handler that waits in [b.wg.Wait()] is not stuck: from any
    state the pipeline can reach without a panic, the workers alone can
    finish their uploads, empty the channel and leave, after which the
    handler returns from the wait and its response is written. *)
Theorem close_can_complete s i :
  reachable s ->
  crashed s = false ->
  handlers s !! i = Some Waiting ->
  exists s', rtc step s s' /\ close_answered s' /\ crashed s' = false.
Proof.
  intros Hr Hcr Hi.
  assert (closed s = true) as Hcl
    by (apply waiting_closed; [done|]; by eapply list_elem_of_lookup_2).
  destruct s as [ch cl n ws hs se att o cr]. cbn in Hcr, Hi, Hcl. subst cl cr.
  destruct (workers_finish ws [] ch true n hs se att o) as (wsA & attA & HA & Hup).
  cbn [app] in HA.
  pose proof (reachable_steps _ _ Hr HA) as HrA.
  destruct (workers_drain ch n wsA hs se attA o HrA Hup) as (attB & HB).
  pose proof (reachable_steps _ _ HrA HB) as HrB.
  destruct (workers_leave wsA [] n hs se attB o Hup) as (n' & HC).
  cbn [app] in HC.
  pose proof (reachable_steps _ _ HrB HC) as HrC.
  destruct (invariant_reachable _ HrC) as [_ Hwg _ _ _]. cbn in Hwg.
  rewrite running_replicate_Exited in Hwg. subst n'.
  eexists. split.
  - etrans; [exact HA|]. etrans; [exact HB|]. etrans; [exact HC|].
    eapply rtc_l; [by apply (step_wait _ _ _ _ _ _ _ i)|].
    eapply rtc_l; [|apply rtc_refl].
    apply (step_respond _ _ _ _ _ _ _ _ i cmdClose).
    apply list_lookup_insert_eq. by eapply lookup_lt_Some.
  - split; [|done]. unfold close_answered. cbn. apply elem_of_app. right. left.
Qed.

(** An instance: a close right after the start. *)
Lemma close_waiting_reachable : reachable close_waiting.
Proof.
  unfold reachable, init, close_waiting.
  pipeline_step ltac:(apply (step_spawn _ _ _ _ _ _ _ _ Closing); exact I).
  pipeline_step ltac:(apply (step_close _ _ _ _ _ _ _ 0); reflexivity).
  apply rtc_refl.
Qed.

Lemma close_can_complete_witness :
  exists s', rtc step close_waiting s' /\ close_answered s' /\ crashed s' = false.
Proof.
  exact (close_can_complete close_waiting 0 close_waiting_reachable eq_refl eq_refl).
Defined.

(** ** The sequential close as a schedule of the pipeline *)

(** The first worker takes the jobs of the channel one by one. *)
Lemma first_worker_drains ch : forall cl n ws hs se att o,
  rtc step (mk ch cl n (Idle :: ws) hs se att o false)
           (mk [] cl n (Idle :: ws) hs se (att ++ ch) o false).
Proof.
  induction ch as [|p ch IH]; intros cl n ws hs se att o.
  { rewrite app_nil_r. apply rtc_refl. }
  eapply rtc_l; [exact (step_receive p ch cl n (Idle :: ws) hs se att o 0 eq_refl)|].
  eapply rtc_l; [exact (step_upload ch cl n (Uploading p :: ws) hs se att o 0 p eq_refl)|].
  cbn. specialize (IH cl n ws hs se (att ++ [p]) o).
  by rewrite <- app_assoc in IH.
Qed.

(** With the channel closed and empty, [k] idle workers leave, and the wait
    group counts [k] less. *)
Lemma idle_workers_leave k : forall ws1 n hs se att o,
  rtc step (mk [] true (n + k) (ws1 ++ replicate k Idle) hs se att o false)
           (mk [] true n (ws1 ++ replicate k Exited) hs se att o false).
Proof.
  induction k as [|k IH]; intros ws1 n hs se att o.
  { rewrite Nat.add_0_r. apply rtc_refl. }
  cbn [replicate].
  eapply rtc_l.
  { apply (step_exit (n + S k) (ws1 ++ Idle :: replicate k Idle) hs se att o (length ws1)).
    by apply list_lookup_middle. }
  rewrite list_insert_middle.
  replace (pred (n + S k)) with (n + k) by lia.
  specialize (IH (ws1 ++ [Exited]) n hs se att o).
  by rewrite <- !app_assoc in IH.
Qed.

(** The sequential [Bucket.Close] is one of the runs of the pipeline: the
    one in which no job has been taken before the close, and after
    [close(b.jobs)] the first worker takes the jobs of the channel in their
    order; then the 20 workers leave and the wait ends.  The channel is left
    as [Bucket_Close] leaves it, and the uploads [Bucket_Close] makes are
    those of the jobs that run attempts. *)
Lemma Bucket_Close_is_a_schedule b w hs se att o i :
  jobs_closed w = false ->
  hs !! i = Some Closing ->
  exists s',
    rtc step (mk (jobs w) false 20 (replicate 20 Idle) hs se att o false) s' /\
    handlers s' = <[i := Responding cmdClose]> hs /\
    chan s' = jobs (Bucket_Close b w).2 /\
    closed s' = jobs_closed (Bucket_Close b w).2 /\
    workers s' = replicate 20 Exited /\
    attempted s' = att ++ jobs w /\
    calls (Bucket_Close b w).2
    = calls w ++ omap (upload_of (fs w)) (drop (length att) (attempted s')).
Proof.
  intros Hopen Hi.
  exists (mk [] true 0 (replicate 20 Exited) (<[i := Responding cmdClose]> hs) se
            (att ++ jobs w) o false).
  assert (Bucket_Close b w
          = (Ret tt, set_calls (calls w ++ omap (upload_of (fs w)) (jobs w))
                       (set_jobs [] (set_jobs_closed true w)))) as ->.
  { unfold Bucket_Close. rewrite bind_eq. unfold act. rewrite Hopen.
    by rewrite upload_jobs_eq. }
  cbn. split_and!; try done; [|by rewrite drop_app_length].
  eapply rtc_l; [by apply (step_close _ _ _ _ _ _ _ i)|].
  etrans; [apply (first_worker_drains (jobs w) true 20 (replicate 19 Idle))|].
  etrans; [apply (idle_workers_leave 20 [] 0)|]. cbn [app].
  eapply rtc_l; [|apply rtc_refl].
  replace (<[i := Responding cmdClose]> hs)
    with (<[i := Responding cmdClose]> (<[i := Waiting]> hs))
    by apply list_insert_insert_eq.
  apply step_wait. apply list_lookup_insert_eq. by eapply lookup_lt_Some.
Qed.

(** ** Callers that share a call *)

Import Flight.












(** ** A caller that is alone *)








(** ** What the callers of one key share *)




(** A caller that comes to [Do] when the call of the first has left the
    group runs [fn] again: the two puts, one after the other. *)
Example late_caller_runs_fn_again :
  let s := play example_cacher [0; 0; 0; 0; 1; 1; 1; 1]
             (start world_two_puts [put_bb_body; put_bb_0b]) in
  map e_key (executions s) = ["putbb"; "putbb"] /\
  map e_served (executions s) = [[0]; [1]] /\
  callers s
  = [Returned "/c/output/bb" None;
     Returned "/c/output/bb" (Some (GcError PermissionDenied "blob: permission denied"))].
Proof. cbv zeta. split_and!; vm_compute; reflexivity. Qed.
